(** * Secret-shared recommender update (CS670, A3-A4): a shallow embedding

    The development follows the C++ sources:
    - [common.hpp]: the ring of 64-bit shares, the small-seed PRG, the
      distributed point function ([generateDPF], [evalDPF], [EvalFull]),
      the vector helpers and the framing of values on a socket;
    - [pB.cpp]: the two compute servers (one program, compiled for role 0
      and role 1);
    - [p2.cpp]: the helper that ships correlated randomness;
    - [gen_queries.cpp]: the client that prepares the query files;
    - [check_correctness.cpp]: the cleartext simulation and the checker.

    Machine integers are integers of [Z] with the wrap-around written out.
    A read outside a vector, which C++ leaves undefined, is a failure of the
    model ([None], or [Crash] for a server process). *)

From Stdlib Require Import ZArith Lia Bool List String Ascii Morphisms Setoid.
From Stdlib Require Import DecimalString DecimalN DecimalPos DecimalFacts.
From stdpp Require Import base tactics option list relations.
Import ListNotations.

Local Open Scope Z_scope.

(** ** Machine integers *)

Module Int.

(** [int64_t]: two's complement, conversions and arithmetic wrap. *)
Definition to_i64 (z : Z) : Z := (z + 2 ^ 63) mod 2 ^ 64 - 2 ^ 63.
(** [uint64_t] / [size_t]. *)
Definition to_u64 (z : Z) : Z := z mod 2 ^ 64.
(** [int32_t] and [uint32_t]. *)
Definition to_i32 (z : Z) : Z := (z + 2 ^ 31) mod 2 ^ 32 - 2 ^ 31.
Definition to_u32 (z : Z) : Z := z mod 2 ^ 32.
(** [uint8_t]. *)
Definition to_u8 (z : Z) : Z := z mod 2 ^ 8.

Definition add64 (a b : Z) : Z := to_i64 (a + b).
Definition sub64 (a b : Z) : Z := to_i64 (a - b).
Definition mul64 (a b : Z) : Z := to_i64 (a * b).

Definition is_i64 (z : Z) : Prop := - 2 ^ 63 <= z < 2 ^ 63.

(** [bool] converted to an integer. *)
Definition b2z (b : bool) : Z := if b then 1 else 0.

(** Congruence modulo [2^64] and modulo [2^32]. *)
Definition eqm64 (a b : Z) : Prop := a mod 2 ^ 64 = b mod 2 ^ 64.
Definition eqm32 (a b : Z) : Prop := a mod 2 ^ 32 = b mod 2 ^ 32.

End Int.
Export Int.

(** ** The small-seed PRG of [common.hpp]

    [PRG] seeds a [std::mt19937] with the seed and takes its first four
    outputs.  The generator is the 32-bit Mersenne twister of the C++
    standard library; the model below computes the outputs the engine gives
    before it has produced 227 values, which covers the four that [PRG]
    draws. *)

Module MT.

Definition mask32 (z : Z) : Z := z mod 2 ^ 32.

(** State initialisation: [mt[i] = 1812433253 * (mt[i-1] ^ (mt[i-1] >> 30)) + i]. *)
Fixpoint init_from (prev : Z) (i : Z) (count : nat) : list Z :=
  match count with
  | O => []
  | S count' =>
      let x := mask32 (1812433253 * Z.lxor prev (Z.shiftr prev 30) + i) in
      x :: init_from x (i + 1) count'
  end.

Definition init (seed : Z) : list Z :=
  mask32 seed :: init_from (mask32 seed) 1 623.

Definition word (st : list Z) (i : nat) : Z := nth i st 0.

(** One word of the twist, for [i < 227] (the words read are still the
    initial ones). *)
Definition twist (st : list Z) (i : nat) : Z :=
  let y := Z.lor (Z.land (word st i) 2147483648)
                 (Z.land (word st (i + 1)) 2147483647) in
  Z.lxor (Z.lxor (word st (i + 397)) (Z.shiftr y 1))
         (if Z.odd y then 2567483615 else 0).

Definition temper (y : Z) : Z :=
  let y := Z.lxor y (Z.shiftr y 11) in
  let y := Z.lxor y (Z.land (mask32 (Z.shiftl y 7)) 2636928640) in
  let y := Z.lxor y (Z.land (mask32 (Z.shiftl y 15)) 4022730752) in
  Z.lxor y (Z.shiftr y 18).

(** The [i]-th value returned by [engine()] after [mt19937 engine(seed)]. *)
Definition output (seed : Z) (i : nat) : Z := temper (twist (init seed) i).

End MT.

Record ChildSeed := mkChildSeed {
  s_left : Z; s_right : Z; f_left : bool; f_right : bool
}.

Record CorrectionWord := mkCW {
  scw : Z; fcw_0 : bool; fcw_1 : bool
}.

Record DPFKey := mkKey {
  s_root : Z;
  f_root : bool;
  cws : list CorrectionWord;
  FCW : Z;
  sign : Z
}.

Definition PRG (seed : Z) : ChildSeed :=
  {| s_left := to_u8 (MT.output seed 0);
     s_right := to_u8 (MT.output seed 1);
     f_left := (MT.output seed 2 mod 2 =? 1);
     f_right := (MT.output seed 3 mod 2 =? 1) |}.

(** ** The distributed point function

    The definitions are parameterised by the stretching function, as the
    correctness of the construction does not depend on which one is used;
    the program instantiates it with [PRG]. *)

Section DPF.

Variable prg : Z -> ChildSeed.

(** [int depth = (domain_size == 0) ? 0 : ceil(log2(domain_size));
    if (depth == 0) depth = 1;]  The logarithm is the exact one for the
    domain sizes the servers use (32-bit counts): the code computes it in
    double precision, which gives the exact depth for every domain size
    below [2^32] and a smaller one from [2^49 + 1] on.  The statements
    about the depth take a domain size below [2^32]. *)
Definition dpf_depth (domain_size : Z) : Z :=
  let depth := if domain_size =? 0 then 0 else Z.log2_up domain_size in
  if depth =? 0 then 1 else depth.

(** [(index >> (depth - 1 - i)) & 1] *)
Definition path_bit (index depth i : Z) : bool :=
  Z.testbit index (depth - 1 - i).

Record gen_state := mkGen {
  g_s0 : Z; g_s1 : Z; g_f0 : bool; g_f1 : bool;
  g_cws : list CorrectionWord
}.

(** The body of the level loop of [generateDPF]. *)
Definition gen_level (index depth i : Z) (st : gen_state) : gen_state :=
  let c0 := prg (g_s0 st) in
  let c1 := prg (g_s1 st) in
  let pb := path_bit index depth i in
  let cw :=
    if negb pb then
      {| scw := Z.lxor (s_right c0) (s_right c1);
         fcw_0 := xorb (xorb (f_left c0) (f_left c1)) true;
         fcw_1 := xorb (f_right c0) (f_right c1) |}
    else
      {| scw := Z.lxor (s_left c0) (s_left c1);
         fcw_0 := xorb (f_left c0) (f_left c1);
         fcw_1 := xorb (xorb (f_right c0) (f_right c1)) true |} in
  let s0 := if negb pb then s_left c0 else s_right c0 in
  let s1 := if negb pb then s_left c1 else s_right c1 in
  let f0_next := if negb pb then f_left c0 else f_right c0 in
  let f1_next := if negb pb then f_left c1 else f_right c1 in
  let fcw_pb := if negb pb then fcw_0 cw else fcw_1 cw in
  let s0 := if g_f0 st then Z.lxor s0 (scw cw) else s0 in
  let f0_next := if g_f0 st then xorb f0_next fcw_pb else f0_next in
  let s1 := if g_f1 st then Z.lxor s1 (scw cw) else s1 in
  let f1_next := if g_f1 st then xorb f1_next fcw_pb else f1_next in
  {| g_s0 := s0; g_s1 := s1; g_f0 := f0_next; g_f1 := f1_next;
     g_cws := g_cws st ++ [cw] |}.

(** [for (int i = 0; i < depth; i++)], with [todo] iterations left. *)
Fixpoint gen_loop (index depth : Z) (todo : nat) (i : Z) (st : gen_state)
  : gen_state :=
  match todo with
  | O => st
  | S todo' => gen_loop index depth todo' (i + 1) (gen_level index depth i st)
  end.

(** [f * 1 + (1 - f) * (-1)] *)
Definition sign_of_flag (f : bool) : Z := b2z f * 1 + (1 - b2z f) * (-1).

(** [generateDPF(index, value, domain_size)].  The three random draws of
    the function ([random_uint8] twice for the root seeds, [random_int8]
    for the mask [R]) are arguments. *)
Definition generateDPF (index value domain_size : Z) (rs0 rs1 rR : Z)
  : DPFKey * DPFKey :=
  let depth := dpf_depth domain_size in
  let st := gen_loop index depth (Z.to_nat depth) 0
              {| g_s0 := rs0; g_s1 := rs1; g_f0 := false; g_f1 := true;
                 g_cws := [] |} in
  let s0_final := to_i64 (g_s0 st) in
  let s1_final := to_i64 (g_s1 st) in
  let sign0 := sign_of_flag (g_f0 st) in
  let sign1 := sign_of_flag (g_f1 st) in
  ({| s_root := rs0; f_root := false; cws := g_cws st;
      FCW := add64 rR (mul64 sign0 s0_final); sign := sign0 |},
   {| s_root := rs1; f_root := true; cws := g_cws st;
      FCW := add64 (sub64 value rR) (mul64 sign1 s1_final); sign := sign1 |}).

(** The body of the level loop of [evalDPF]; [key.cws[i]] outside the
    vector is undefined in C++ and [None] here (the word is only read when
    the flag is set). *)
Definition eval_level (key : DPFKey) (index depth i : Z) (sf : Z * bool)
  : option (Z * bool) :=
  let '(s_curr, f_curr) := sf in
  let ch := prg s_curr in
  let pb := path_bit index depth i in
  let s := if negb pb then s_left ch else s_right ch in
  let f_next := if negb pb then f_left ch else f_right ch in
  if f_curr then
    cw ← cws key !! Z.to_nat i;
    Some (Z.lxor s (scw cw),
          xorb f_next (if negb pb then fcw_0 cw else fcw_1 cw))
  else Some (s, f_next).

Fixpoint eval_loop (key : DPFKey) (index depth : Z) (todo : nat) (i : Z)
    (sf : Z * bool) : option (Z * bool) :=
  match todo with
  | O => Some sf
  | S todo' =>
      sf' ← eval_level key index depth i sf;
      eval_loop key index depth todo' (i + 1) sf'
  end.

(** [evalDPF(key, index, domain_size)] *)
Definition evalDPF (key : DPFKey) (index domain_size : Z) : option Z :=
  let depth := dpf_depth domain_size in
  '(s_curr, f_curr) ← eval_loop key index depth (Z.to_nat depth) 0
                        (s_root key, f_root key);
  let value := to_i64 s_curr in
  let value := if (f_curr : bool) then add64 value (FCW key) else value in
  Some (mul64 value (sign key)).

(** [EvalFull(k, domain_size)] *)
Definition EvalFull (k : DPFKey) (domain_size : Z) : option (list Z) :=
  mapM (λ i : nat, evalDPF k (Z.of_nat i) domain_size)
       (seq 0 (Z.to_nat domain_size)).

(** [modified_key = dpf_key_share; modified_key.FCW = adjusted_fcw;] *)
Definition with_FCW (k : DPFKey) (fcw : Z) : DPFKey :=
  {| s_root := s_root k; f_root := f_root k; cws := cws k;
     FCW := fcw; sign := sign k |}.

End DPF.

(** ** Share vectors ([common.hpp])

    [ShareVec] is [std::vector<int64_t>], [ShareMat] a vector of rows.  The
    loops of the vector helpers run over the first argument and read the
    second at the same index; where the second is shorter the read is
    outside the vector and the result is [None]. *)

Abbreviation ShareVec := (list Z) (only parsing).
Abbreviation ShareMat := (list (list Z)) (only parsing).

Fixpoint vec_add (a b : ShareVec) : option ShareVec :=
  match a, b with
  | [], _ => Some []
  | x :: a', y :: b' => r ← vec_add a' b'; Some (add64 x y :: r)
  | _ :: _, [] => None
  end.

Fixpoint vec_sub (a b : ShareVec) : option ShareVec :=
  match a, b with
  | [], _ => Some []
  | x :: a', y :: b' => r ← vec_sub a' b'; Some (sub64 x y :: r)
  | _ :: _, [] => None
  end.

(** [result += a[i] * b[i]], with the running [result]. *)
Fixpoint vec_dot_product_from (result : Z) (a b : ShareVec) : option Z :=
  match a, b with
  | [], _ => Some result
  | x :: a', y :: b' => vec_dot_product_from (add64 result (mul64 x y)) a' b'
  | _ :: _, [] => None
  end.

Definition vec_dot_product (a b : ShareVec) : option Z :=
  vec_dot_product_from 0 a b.

Definition vec_scalar_mul (a : ShareVec) (scalar : Z) : ShareVec :=
  map (λ x, mul64 x scalar) a.

(** ** Processes

    A party is a process that sends and receives 64-bit words on its links
    and finally returns a value; the awaitable functions of the sources are
    processes.  [Crash] stands for a run that the C++ program does not
    define or that ends in an exception. *)

Inductive proc (L A : Type) : Type :=
| Ret (a : A)
| Send (l : L) (v : Z) (k : proc L A)
| Recv (l : L) (k : Z → proc L A)
| Crash.

Arguments Ret {L A} a.
Arguments Send {L A} l v k.
Arguments Recv {L A} l k.
Arguments Crash {L A}.

Fixpoint proc_bind {L A B} (f : A → proc L B) (p : proc L A) : proc L B :=
  match p with
  | Ret a => f a
  | Send l v k => Send l v (proc_bind f k)
  | Recv l k => Recv l (λ v, proc_bind f (k v))
  | Crash => Crash
  end.

#[export] Instance proc_mret {L} : MRet (proc L) := λ A a, Ret a.
#[export] Instance proc_mbind {L} : MBind (proc L) := λ A B f p, proc_bind f p.

(** A vector read outside its bounds ends the run. *)
Definition lift {L A} (o : option A) : proc L A :=
  match o with Some a => Ret a | None => Crash end.

Section Wire.

Context {L : Type}.

(** [send_value]: one [int64_t] on the socket. *)
Definition send_value (sock : L) (value : Z) : proc L unit :=
  Send sock value (Ret ()).

(** [recv_value] *)
Definition recv_value (sock : L) : proc L Z := Recv sock Ret.

(** The buffer of a vector, word after word. *)
Fixpoint send_words (sock : L) (vec : ShareVec) : proc L unit :=
  match vec with
  | [] => Ret ()
  | x :: vec' => Send sock x (send_words sock vec')
  end.

Fixpoint recv_words (sock : L) (count : nat) : proc L ShareVec :=
  match count with
  | O => Ret []
  | S count' =>
      x ← recv_value sock; r ← recv_words sock count'; mret (x :: r)
  end.

(** [send_vector]: the size, then the elements. *)
Definition send_vector (sock : L) (vec : ShareVec) : proc L unit :=
  send_value sock (Z.of_nat (length vec));; send_words sock vec.

(** [recv_vector]: a negative size makes the vector constructor throw. *)
Definition recv_vector (sock : L) : proc L ShareVec :=
  size ← recv_value sock;
  if size <? 0 then Crash else recv_words sock (Z.to_nat size).

(** [exchange_value] (defined in [common.hpp]; the servers spell their
    exchanges out instead of calling it). *)
Definition exchange_value (peer_sock : L) (value : Z) (ROLE : Z) : proc L Z :=
  if ROLE =? 0 then
    send_value peer_sock value;; other_value ← recv_value peer_sock;
    mret other_value
  else
    other_value ← recv_value peer_sock;
    send_value peer_sock value;; mret other_value.

End Wire.

(** The words that [send_vector] puts on the wire. *)
Definition frames (vec : ShareVec) : list Z := Z.of_nat (length vec) :: vec.

(** ** The compute servers ([pB.cpp]) *)

Inductive link := helper_link | peer_link.

Record Query := mkQuery {
  user_index : Z;
  item_share : Z;
  dpf_key : DPFKey
}.

(** [a % b] on [int64_t]; division by zero is undefined. *)
Definition rem64 (a b : Z) : option Z :=
  if b =? 0 then None else Some (Z.rem a b).

(** [std::rotate(v.begin(), v.begin() + mid, v.end())] *)
Definition rotate_left (mid : nat) (v : ShareVec) : ShareVec :=
  drop mid v ++ take mid v.

(** Column [feat_idx] of the first [num_items] rows. *)
Definition matrix_column (item_matrix : ShareMat) (num_items feat_idx : nat)
  : option ShareVec :=
  mapM (λ item_idx, row ← item_matrix !! item_idx; row !! feat_idx)
       (seq 0 num_items).

(** [item_matrix[item_idx][feat_idx] += dpf_evaluation_result[item_idx]]
    for [item_idx] from the given one, [todo] rows left. *)
Fixpoint add_column_loop (item_matrix : ShareMat) (feat_idx : nat)
    (dpf_evaluation_result : list Z) (item_idx todo : nat) : option ShareMat :=
  match todo with
  | O => Some item_matrix
  | S todo' =>
      row ← item_matrix !! item_idx;
      x ← row !! feat_idx;
      e ← dpf_evaluation_result !! item_idx;
      add_column_loop
        (<[item_idx := <[feat_idx := add64 x e]> row]> item_matrix)
        feat_idx dpf_evaluation_result (S item_idx) todo'
  end.

(** What a server writes to its [_updated.txt] file: the rows
    [0..rows-1], each with the columns [0..cols-1], every share as
    [static_cast<uint32_t>(static_cast<int32_t>(share))]. *)
Definition save_share (share : Z) : Z := to_u32 (to_i32 share).

Definition save_matrix (matrix : ShareMat) (rows cols : nat)
  : option (list (list Z)) :=
  mapM (λ i, row ← matrix !! i;
             mapM (λ f, x ← row !! f; Some (save_share x)) (seq 0 cols))
       (seq 0 rows).

Section Server.

Variable prg : Z → ChildSeed.

(** [ROLE] is 0 for P0 and 1 for P1. *)
Variable ROLE : Z.

Definition compute_secure_inner_product (my_x_share my_y_share : ShareVec)
  : proc link Z :=
  beaver_x_share ← recv_vector helper_link;
  beaver_y_share ← recv_vector helper_link;
  beaver_c_share ← recv_value helper_link;
  masked_x ← lift (vec_add my_x_share beaver_x_share);
  masked_y ← lift (vec_add my_y_share beaver_y_share);
  '(peer_masked_x, peer_masked_y) ←
    (if ROLE =? 1 then
       peer_masked_x ← recv_vector peer_link;
       peer_masked_y ← recv_vector peer_link;
       send_vector peer_link masked_x;;
       send_vector peer_link masked_y;;
       mret (peer_masked_x, peer_masked_y)
     else
       send_vector peer_link masked_x;;
       send_vector peer_link masked_y;;
       peer_masked_x ← recv_vector peer_link;
       peer_masked_y ← recv_vector peer_link;
       mret (peer_masked_x, peer_masked_y));
  y_sum ← lift (vec_add my_y_share peer_masked_y);
  d1 ← lift (vec_dot_product my_x_share y_sum);
  d2 ← lift (vec_dot_product beaver_y_share peer_masked_x);
  mret (add64 (sub64 d1 d2) beaver_c_share).

Definition compute_secure_scalar_vector_product (scalar_share : Z)
    (vector_share : ShareVec) : proc link ShareVec :=
  beaver_scalar_share ← recv_value helper_link;
  beaver_vector_share ← recv_vector helper_link;
  beaver_result_share ← recv_vector helper_link;
  let masked_scalar := add64 scalar_share beaver_scalar_share in
  masked_vector ← lift (vec_add vector_share beaver_vector_share);
  '(peer_masked_scalar, peer_masked_vector) ←
    (if ROLE =? 0 then
       peer_masked_scalar ← recv_value peer_link;
       peer_masked_vector ← recv_vector peer_link;
       send_value peer_link masked_scalar;;
       send_vector peer_link masked_vector;;
       mret (peer_masked_scalar, peer_masked_vector)
     else
       send_value peer_link masked_scalar;;
       send_vector peer_link masked_vector;;
       peer_masked_scalar ← recv_value peer_link;
       peer_masked_vector ← recv_vector peer_link;
       mret (peer_masked_scalar, peer_masked_vector));
  v_sum ← lift (vec_add vector_share peer_masked_vector);
  diff ← lift (vec_sub (vec_scalar_mul v_sum scalar_share)
                       (vec_scalar_mul beaver_vector_share peer_masked_scalar));
  lift (vec_add diff beaver_result_share).

(** The reduction of the reconstructed offset to a rotation amount. *)
Definition total_rotation_of (combined_offset num_items : Z) : option Z :=
  if combined_offset >=? 0 then
    r ← rem64 combined_offset num_items; Some (to_u32 r)
  else
    r ← rem64 combined_offset num_items;
    r' ← rem64 (add64 num_items r) num_items;
    Some (to_u32 r').

(** The feature loop of [retrieve_item_profile_shares]. *)
Fixpoint retrieve_loop (item_matrix : ShareMat) (selector_vector : ShareVec)
    (num_items feat_idx todo : nat) : proc link ShareVec :=
  match todo with
  | O => mret []
  | S todo' =>
      item_matrix_column ← lift (matrix_column item_matrix num_items feat_idx);
      z ← compute_secure_inner_product item_matrix_column selector_vector;
      rest ← retrieve_loop item_matrix selector_vector num_items
               (S feat_idx) todo';
      mret (z :: rest)
  end.

(** The exchange of the masked item index in the lookup. *)
Definition rotation_exchange (rotation_offset : Z) : proc link Z :=
  if ROLE =? 1 then
    peer_rotation_offset ← recv_value peer_link;
    send_value peer_link rotation_offset;;
    mret peer_rotation_offset
  else
    send_value peer_link rotation_offset;;
    peer_rotation_offset ← recv_value peer_link;
    mret peer_rotation_offset.

Definition retrieve_item_profile_shares (item_share : Z)
    (item_matrix : ShareMat) : proc link ShareVec :=
  let num_items := to_u32 (Z.of_nat (length item_matrix)) in
  row0 ← lift (item_matrix !! 0%nat);
  let feature_dim := to_u32 (Z.of_nat (length row0)) in
  rotation_base ← recv_value helper_link;
  rotation_vector ← recv_vector helper_link;
  let rotation_offset := sub64 item_share rotation_base in
  peer_rotation_offset ← rotation_exchange rotation_offset;
  let combined_offset := add64 rotation_offset peer_rotation_offset in
  total_rotation ← lift (total_rotation_of combined_offset num_items);
  let size := Z.of_nat (length rotation_vector) in
  mid ← lift (if size =? 0 then None
              else Some (to_u64 (size - total_rotation) mod size));
  let selector_vector := rotate_left (Z.to_nat mid) rotation_vector in
  retrieve_loop item_matrix selector_vector (Z.to_nat num_items) 0
    (Z.to_nat feature_dim).

(** One round of the feature loop of the item update: the exchange of the
    masked update, the substitution of the common final word into a copy
    of the key, and the evaluation of the copy over the items. *)
Definition repair_exchange (masked_update : Z) : proc link Z :=
  if ROLE =? 0 then
    peer_masked_update ← recv_value peer_link;
    send_value peer_link masked_update;;
    mret peer_masked_update
  else
    send_value peer_link masked_update;;
    peer_masked_update ← recv_value peer_link;
    mret peer_masked_update.

Fixpoint repair_loop (dpf_key_share : DPFKey) (update_vector : ShareVec)
    (num_items : nat) (item_matrix : ShareMat) (feat_idx todo : nat)
  : proc link ShareMat :=
  match todo with
  | O => mret item_matrix
  | S todo' =>
      update_component ← lift (update_vector !! feat_idx);
      let original_fcw := FCW dpf_key_share in
      let masked_update := sub64 update_component original_fcw in
      peer_masked_update ← repair_exchange masked_update;
      let adjusted_fcw := add64 masked_update peer_masked_update in
      let modified_key := with_FCW dpf_key_share adjusted_fcw in
      dpf_evaluation_result ←
        lift (EvalFull prg modified_key (Z.of_nat num_items));
      item_matrix ← lift (add_column_loop item_matrix feat_idx
                            dpf_evaluation_result 0 num_items);
      repair_loop dpf_key_share update_vector num_items item_matrix
        (S feat_idx) todo'
  end.

(** The body of the query loop of [execute_protocol]. *)
Definition process_query (num_items feature_dim : nat)
    (matrices : list (list Z) * list (list Z)) (current_query : Query)
  : proc link (list (list Z) * list (list Z)) :=
  let '(user_matrix, item_matrix) := matrices in
  let user_id := Z.to_nat (user_index current_query) in
  let item_share_value := item_share current_query in
  let dpf_key_share := dpf_key current_query in
  user_profile ← lift (user_matrix !! user_id);
  item_profile ← retrieve_item_profile_shares item_share_value item_matrix;
  inner_product_share ← compute_secure_inner_product user_profile item_profile;
  scaled_item_profile ←
    compute_secure_scalar_vector_product inner_product_share item_profile;
  row ← lift (user_matrix !! user_id);
  sum ← lift (vec_add row item_profile);
  new_row ← lift (vec_sub sum scaled_item_profile);
  let user_matrix := <[user_id := new_row]> user_matrix in
  let complement_share := sub64 ROLE inner_product_share in
  update_vector ←
    compute_secure_scalar_vector_product complement_share user_profile;
  item_matrix ← repair_loop dpf_key_share update_vector num_items
                  item_matrix 0 feature_dim;
  mret (user_matrix, item_matrix).

Fixpoint query_loop (num_items feature_dim : nat)
    (matrices : list (list Z) * list (list Z)) (query_list : list Query)
  : proc link (list (list Z) * list (list Z)) :=
  match query_list with
  | [] => mret matrices
  | current_query :: rest =>
      matrices ← process_query num_items feature_dim matrices current_query;
      query_loop num_items feature_dim matrices rest
  end.

(** [execute_protocol], from the loaded shares and queries to the rows
    written to [U<ROLE>_updated.txt] and [V<ROLE>_updated.txt]. *)
Definition execute_protocol (num_users num_items feature_dim : nat)
    (user_matrix item_matrix : ShareMat) (query_list : list Query)
  : proc link (list (list Z) * list (list Z)) :=
  '(user_matrix, item_matrix) ←
    query_loop num_items feature_dim (user_matrix, item_matrix) query_list;
  updated_user_file ← lift (save_matrix user_matrix num_users feature_dim);
  updated_item_file ← lift (save_matrix item_matrix num_items feature_dim);
  mret (updated_user_file, updated_item_file).

End Server.

(** ** The helper ([p2.cpp])

    The helper writes to its two sockets and draws from the random
    functions of [common.hpp].  Each random function owns an engine; the
    model reads the engine's raw value from an entropy port and converts it
    to the type the function returns. *)

Inductive hport :=
| socket_p0 | socket_p1
| entropy_int8 | entropy_int32 | entropy_uint32.

Definition to_i8 (z : Z) : Z := (z + 2 ^ 7) mod 2 ^ 8 - 2 ^ 7.

Definition random_int8 : proc hport Z :=
  raw ← recv_value entropy_int8; mret (to_i8 raw).
Definition random_int32 : proc hport Z :=
  raw ← recv_value entropy_int32; mret (to_i32 raw).
Definition random_uint32 : proc hport Z :=
  raw ← recv_value entropy_uint32; mret (to_u32 raw).

(** The fill loop of [generate_dot_product_material]. *)
Fixpoint dot_draw_loop (todo : nat)
  : proc hport (list Z * list Z * list Z * list Z) :=
  match todo with
  | O => mret ([], [], [], [])
  | S todo' =>
      x0 ← random_int8; y0 ← random_int8;
      x1 ← random_int8; y1 ← random_int8;
      '(X0, Y0, X1, Y1) ← dot_draw_loop todo';
      mret (x0 :: X0, y0 :: Y0, x1 :: X1, y1 :: Y1)
  end.

Definition generate_dot_product_material (vector_length : nat)
  : proc hport unit :=
  '(X0_shares, Y0_shares, X1_shares, Y1_shares) ← dot_draw_loop vector_length;
  randomness_term ← random_int8;
  send_vector socket_p0 X0_shares;;
  send_vector socket_p0 Y0_shares;;
  d0 ← lift (vec_dot_product X0_shares Y1_shares);
  send_value socket_p0 (add64 d0 randomness_term);;
  send_vector socket_p1 X1_shares;;
  send_vector socket_p1 Y1_shares;;
  d1 ← lift (vec_dot_product X1_shares Y0_shares);
  send_value socket_p1 (sub64 d1 randomness_term).

(** The fill loop of [generate_scalar_vector_material]. *)
Fixpoint scalar_draw_loop (todo : nat)
  : proc hport (list Z * list Z * list Z) :=
  match todo with
  | O => mret ([], [], [])
  | S todo' =>
      y0 ← random_int8; y1 ← random_int8; r ← random_int8;
      '(Y0, Y1, R) ← scalar_draw_loop todo';
      mret (y0 :: Y0, y1 :: Y1, r :: R)
  end.

Definition generate_scalar_vector_material (vector_length : nat)
  : proc hport unit :=
  X0_value ← random_int8;
  X1_value ← random_int8;
  '(Y0_shares, Y1_shares, randomness_vector) ← scalar_draw_loop vector_length;
  send_value socket_p0 X0_value;;
  send_vector socket_p0 Y0_shares;;
  c0 ← lift (vec_add (vec_scalar_mul Y0_shares X1_value) randomness_vector);
  send_vector socket_p0 c0;;
  send_value socket_p1 X1_value;;
  send_vector socket_p1 Y1_shares;;
  c1 ← lift (vec_sub (vec_scalar_mul Y1_shares X0_value) randomness_vector);
  send_vector socket_p1 c1.

Fixpoint draw_int8s (todo : nat) : proc hport (list Z) :=
  match todo with
  | O => mret []
  | S todo' => x ← random_int8; r ← draw_int8s todo'; mret (x :: r)
  end.

Fixpoint repeat_proc {L} (todo : nat) (p : proc L unit) : proc L unit :=
  match todo with
  | O => mret ()
  | S todo' => p;; repeat_proc todo' p
  end.

(** The material of one query, in the order the servers consume it. *)
Definition query_material (num_items feature_dim : nat) : proc hport unit :=
  raw_index ← random_uint32;
  random_index ← lift (rem64 raw_index (Z.of_nat num_items));
  let one_hot_vector := <[Z.to_nat random_index := 1]> (replicate num_items 0) in
  r0_shares ← draw_int8s num_items;
  r1_shares ← lift (vec_sub one_hot_vector r0_shares);
  rotation_offset_share ← random_int32;
  send_value socket_p0 rotation_offset_share;;
  send_vector socket_p0 r0_shares;;
  send_value socket_p1 (sub64 random_index rotation_offset_share);;
  send_vector socket_p1 r1_shares;;
  repeat_proc feature_dim (generate_dot_product_material num_items);;
  generate_dot_product_material feature_dim;;
  generate_scalar_vector_material feature_dim;;
  generate_scalar_vector_material feature_dim.

(** [process_query_session] *)
Definition process_query_session (num_items feature_dim num_queries : nat)
  : proc hport unit :=
  repeat_proc num_queries (query_material num_items feature_dim).

(** The helper never reads from a server, so its run is determined by the
    entropy alone: [helper_run] plays a helper process against the three
    entropy streams and collects what it writes to each socket. *)
Record entropy := mkEntropy {
  e_int8 : nat → Z; e_int32 : nat → Z; e_uint32 : nat → Z
}.

Record hstate := mkHState {
  h_pos8 : nat; h_pos32 : nat; h_posu32 : nat;
  h_out0 : list Z; h_out1 : list Z
}.

Definition hstate_init : hstate :=
  {| h_pos8 := 0; h_pos32 := 0; h_posu32 := 0; h_out0 := []; h_out1 := [] |}.

Fixpoint helper_run {A} (ent : entropy) (p : proc hport A) (st : hstate)
  : option (A * hstate) :=
  match p with
  | Ret a => Some (a, st)
  | Crash => None
  | Send socket_p0 v k =>
      helper_run ent k
        {| h_pos8 := h_pos8 st; h_pos32 := h_pos32 st; h_posu32 := h_posu32 st;
           h_out0 := h_out0 st ++ [v]; h_out1 := h_out1 st |}
  | Send socket_p1 v k =>
      helper_run ent k
        {| h_pos8 := h_pos8 st; h_pos32 := h_pos32 st; h_posu32 := h_posu32 st;
           h_out0 := h_out0 st; h_out1 := h_out1 st ++ [v] |}
  | Send _ v k => helper_run ent k st
  | Recv entropy_int8 k =>
      helper_run ent (k (e_int8 ent (h_pos8 st)))
        {| h_pos8 := S (h_pos8 st); h_pos32 := h_pos32 st;
           h_posu32 := h_posu32 st;
           h_out0 := h_out0 st; h_out1 := h_out1 st |}
  | Recv entropy_int32 k =>
      helper_run ent (k (e_int32 ent (h_pos32 st)))
        {| h_pos8 := h_pos8 st; h_pos32 := S (h_pos32 st);
           h_posu32 := h_posu32 st;
           h_out0 := h_out0 st; h_out1 := h_out1 st |}
  | Recv entropy_uint32 k =>
      helper_run ent (k (e_uint32 ent (h_posu32 st)))
        {| h_pos8 := h_pos8 st; h_pos32 := h_pos32 st;
           h_posu32 := S (h_posu32 st);
           h_out0 := h_out0 st; h_out1 := h_out1 st |}
  | Recv _ k => None
  end.

(** The two streams the helper ships during a session. *)
Definition helper_streams (ent : entropy)
    (num_items feature_dim num_queries : nat) : option (list Z * list Z) :=
  '(_, st) ← helper_run ent
               (process_query_session num_items feature_dim num_queries)
               hstate_init;
  Some (h_out0 st, h_out1 st).

(** ** The client ([gen_queries.cpp])

    One round of the query loop: the item index is split into two shares
    and a key pair for the index, with value 0, is generated.  The draws
    (the share of P0 and the three draws of [generateDPF]) are arguments. *)

Record query_draws := mkDraws {
  d_share : Z; d_s0 : Z; d_s1 : Z; d_R : Z
}.

Section Client.

Variable prg : Z → ChildSeed.

Definition make_query (num_items : Z) (selected_user selected_item : Z)
    (draws : query_draws) : Query * Query :=
  let item_share_p0 := d_share draws in
  let item_share_p1 := sub64 selected_item item_share_p0 in
  let dpf_key_pair :=
    generateDPF prg selected_item 0 num_items
      (d_s0 draws) (d_s1 draws) (d_R draws) in
  ({| user_index := selected_user; item_share := item_share_p0;
      dpf_key := dpf_key_pair.1 |},
   {| user_index := selected_user; item_share := item_share_p1;
      dpf_key := dpf_key_pair.2 |}).

(** The two query files for a cleartext query stream. *)
Fixpoint make_queries (num_items : Z) (cleartext : list (Z * Z))
    (draws : list query_draws) : list Query * list Query :=
  match cleartext, draws with
  | (selected_user, selected_item) :: cleartext', d :: draws' =>
      let '(q0, q1) := make_query num_items selected_user selected_item d in
      let '(l0, l1) := make_queries num_items cleartext' draws' in
      (q0 :: l0, q1 :: l1)
  | _, _ => ([], [])
  end.

End Client.

(** ** Two servers and their links

    P0 reads what P1 has sent and what the helper has sent to it, and
    appends what it sends to the words in flight towards P1; P1 likewise.
    A step of the system is a step of one of the two servers. *)

Definition lstep {A} (p : proc link A) (peer_in helper_in : list Z)
  : option (proc link A * list Z * list Z * list Z) :=
  match p with
  | Ret _ | Crash => None
  | Send peer_link v k => Some (k, peer_in, helper_in, [v])
  | Send helper_link v k => Some (k, peer_in, helper_in, [])
  | Recv peer_link k =>
      match peer_in with
      | v :: rest => Some (k v, rest, helper_in, [])
      | [] => None
      end
  | Recv helper_link k =>
      match helper_in with
      | v :: rest => Some (k v, peer_in, rest, [])
      | [] => None
      end
  end.

Record config (A : Type) := Cfg {
  c_p0 : proc link A;   (** the server with role 0 *)
  c_p1 : proc link A;   (** the server with role 1 *)
  c_q01 : list Z;       (** in flight from P0 to P1 *)
  c_q10 : list Z;       (** in flight from P1 to P0 *)
  c_h0 : list Z;        (** sent by the helper to P0, not yet read *)
  c_h1 : list Z         (** sent by the helper to P1, not yet read *)
}.

Arguments Cfg {A}.
Arguments c_p0 {A}.
Arguments c_p1 {A}.
Arguments c_q01 {A}.
Arguments c_q10 {A}.
Arguments c_h0 {A}.
Arguments c_h1 {A}.

Definition step0 {A} (c : config A) : option (config A) :=
  '(p, peer_in, helper_in, out) ← lstep (c_p0 c) (c_q10 c) (c_h0 c);
  Some (Cfg p (c_p1 c) (c_q01 c ++ out) peer_in helper_in (c_h1 c)).

Definition step1 {A} (c : config A) : option (config A) :=
  '(p, peer_in, helper_in, out) ← lstep (c_p1 c) (c_q01 c) (c_h1 c);
  Some (Cfg (c_p0 c) p peer_in (c_q10 c ++ out) (c_h0 c) helper_in).

Definition step {A} (c c' : config A) : Prop :=
  step0 c = Some c' ∨ step1 c = Some c'.

(** A configuration from which no server can move. *)
Definition terminal {A} (c : config A) : Prop := ∀ c', ¬ step c c'.

(** A configuration whose servers go on with [k0] and [k1] and whose
    helper streams hold more words. *)
Definition cfg_extend {A B} (k0 k1 : A → proc link B) (x y : list Z)
    (c : config A) : config B :=
  Cfg (c_p0 c ≫= k0) (c_p1 c ≫= k1) (c_q01 c) (c_q10 c)
      (c_h0 c ++ x) (c_h1 c ++ y).

(** [runs p0 p1 h0 h1 r0 r1]: started with empty peer links and the helper
    streams [h0] and [h1], the two servers can run to the end; they then
    have returned [r0] and [r1], read all of both streams and left nothing
    in flight. *)
Definition runs {A} (p0 p1 : proc link A) (h0 h1 : list Z) (r0 r1 : A) : Prop :=
  rtc step (Cfg p0 p1 [] [] h0 h1) (Cfg (Ret r0) (Ret r1) [] [] [] []).

(** [completes c r0 r1]: there is a run from [c] in which the servers
    return [r0] and [r1], and every run from [c] can be continued to that
    end; so no run deadlocks, crashes or ends with other results. *)
Definition completes {A} (c : config A) (r0 r1 : A) : Prop :=
  let final := Cfg (Ret r0) (Ret r1) [] [] [] [] in
  rtc step c final ∧ ∀ c', rtc step c c' → rtc step c' final.

(** The order of a server's sends and receives on the peer link, given
    what arrives on its two links. *)
Inductive dir := Snd | Rcv.

Fixpoint peer_events {A} (p : proc link A) (peer_in helper_in : list Z)
  : list dir :=
  match p with
  | Ret _ | Crash => []
  | Send peer_link v k => Snd :: peer_events k peer_in helper_in
  | Send helper_link v k => peer_events k peer_in helper_in
  | Recv peer_link k =>
      match peer_in with
      | v :: rest => Rcv :: peer_events (k v) rest helper_in
      | [] => [Rcv]
      end
  | Recv helper_link k =>
      match helper_in with
      | v :: rest => peer_events (k v) peer_in rest
      | [] => []
      end
  end.

(** Sends first, then receives. *)
Definition sends_then_receives (events : list dir) : Prop :=
  ∃ a b, events = repeat Snd a ++ repeat Rcv b.

(** Receives first, then sends. *)
Definition receives_then_sends (events : list dir) : Prop :=
  ∃ a b, events = repeat Rcv a ++ repeat Snd b.

(** [lsteps p peer_in helper_in p' peer_in' helper_in' out]: one server,
    taken alone, moves from [p] to [p'], reading from the two streams and
    writing [out] on the peer link. *)
Inductive lsteps {A} :
  proc link A → list Z → list Z → proc link A → list Z → list Z → list Z → Prop :=
| lsteps_refl p peer_in helper_in :
    lsteps p peer_in helper_in p peer_in helper_in []
| lsteps_step p peer_in helper_in p1 peer_in1 helper_in1 out1
              p2 peer_in2 helper_in2 out2 :
    lstep p peer_in helper_in = Some (p1, peer_in1, helper_in1, out1) →
    lsteps p1 peer_in1 helper_in1 p2 peer_in2 helper_in2 out2 →
    lsteps p peer_in helper_in p2 peer_in2 helper_in2 (out1 ++ out2).

(** [emits ent p st a st' o0 o1]: from the state [st], the helper process
    [p] returns [a] in the state [st'], having written [o0] to P0 and [o1]
    to P1. *)
Definition emits {A} (ent : entropy) (p : proc hport A) (st : hstate) (a : A)
    (st' : hstate) (o0 o1 : list Z) : Prop :=
  helper_run ent p st = Some (a, st')
  ∧ h_out0 st' = h_out0 st ++ o0 ∧ h_out1 st' = h_out1 st ++ o1.

(** [lrun p peer_in helper_in]: one server run alone to its end, with what
    is left of its two streams; [None] when it blocks or crashes. *)
Fixpoint lrun {A} (p : proc link A) (peer_in helper_in : list Z)
  : option (A * list Z * list Z) :=
  match p with
  | Ret a => Some (a, peer_in, helper_in)
  | Crash => None
  | Send _ v k => lrun k peer_in helper_in
  | Recv peer_link k =>
      match peer_in with
      | v :: rest => lrun (k v) rest helper_in
      | [] => None
      end
  | Recv helper_link k =>
      match helper_in with
      | v :: rest => lrun (k v) peer_in rest
      | [] => None
      end
  end.

(** [traces p peer_in helper_in a peer_in' helper_in' events]: run alone,
    the server returns [a], leaves the streams [peer_in'] and [helper_in'],
    and touches the peer link in the order [events]. *)
Definition traces {A} (p : proc link A) (peer_in helper_in : list Z) (a : A)
    (peer_in' helper_in' : list Z) (events : list dir) : Prop :=
  lrun p peer_in helper_in = Some (a, peer_in', helper_in')
  ∧ peer_events p peer_in helper_in = events.

(** ** Matrix files ([common.hpp], [pB.cpp])

    A share is written as the unsigned decimal numeral of its low 32 bits
    and read back through [uint32_t], [int32_t] and [int64_t]. *)

(** [out << output_val] for a [uint32_t]. *)
Definition print_u32 (output_val : Z) : string :=
  NilZero.string_of_uint (N.to_uint (Z.to_N output_val)).

(** [in >> val] for a [uint32_t], on a numeral; a numeral that does not fit
    sets the fail bit. *)
Definition parse_u32 (s : string) : option Z :=
  d ← NilZero.uint_of_string s;
  let val := Z.of_N (N.of_uint d) in
  if val <? 2 ^ 32 then Some val else None.

(** [M[i][j] = static_cast<int64_t>(static_cast<int32_t>(val))] *)
Definition load_share (val : Z) : Z := to_i64 (to_i32 val).

(** A share written by a server and loaded again. *)
Definition save_then_load (share : Z) : option Z :=
  val ← parse_u32 (print_u32 (save_share share)); Some (load_share val).

(** ** The cleartext simulation and the checker ([check_correctness.cpp]) *)

(** [recombine_shares]; a dimension mismatch throws.  The code holds the
    numbers of rows and columns in [int]; the definition is for sizes
    below [2^31]. *)
Definition recombine_shares (M0 M1 : ShareMat) : option ShareMat :=
  let cols0 := length (default [] (M0 !! 0%nat)) in
  let cols1 := length (default [] (M1 !! 0%nat)) in
  if negb (length M0 =? length M1)%nat
     || ((0 <? length M0)%nat && negb (cols0 =? cols1)%nat)
  then None
  else
    mapM (λ i, r0 ← M0 !! i; r1 ← M1 !! i;
               mapM (λ j, x ← r0 !! j; y ← r1 !! j; Some (add64 x y))
                    (seq 0 cols0))
         (seq 0 (length M0)).

(** [dot_product]; a size mismatch throws. *)
Definition dot_product (u v : ShareVec) : option Z :=
  if negb (length u =? length v)%nat then None else vec_dot_product u v.

(** [M[i][f] += term[f]] for every [f] of the row. *)
Definition add_to_row (M : ShareMat) (i : nat) (term : ShareVec)
  : option ShareMat :=
  row ← M !! i;
  new_row ← vec_add row term;
  Some (<[i := new_row]> M).

(** The body of the loop of [apply_cleartext_updates]. *)
Definition cleartext_update (matrices : list (list Z) * list (list Z))
    (query : Z * Z) : option (list (list Z) * list (list Z)) :=
  let '(U, V) := matrices in
  let '(i_idx, j_idx) := query in
  if (Z.of_nat (length U) <=? i_idx) || (Z.of_nat (length V) <=? j_idx)
  then None
  else
    ui ← U !! Z.to_nat i_idx;
    vj ← V !! Z.to_nat j_idx;
    dot ← dot_product ui vj;
    let delta := sub64 1 dot in
    let user_update_term := map (λ x, mul64 x delta) vj in
    U ← add_to_row U (Z.to_nat i_idx) user_update_term;
    let item_update_term_M := map (λ x, mul64 x delta) ui in
    V ← add_to_row V (Z.to_nat j_idx) item_update_term_M;
    Some (U, V).

Fixpoint apply_cleartext_updates (matrices : list (list Z) * list (list Z))
    (queries : list (Z * Z)) : option (list (list Z) * list (list Z)) :=
  match queries with
  | [] => Some matrices
  | query :: rest =>
      matrices ← cleartext_update matrices query;
      apply_cleartext_updates matrices rest
  end.

(** [convert_to_uint32_matrix] *)
Definition convert_to_uint32_matrix (M : ShareMat) : list (list Z) :=
  map (map save_share) M.

(** The recombination of the two updated files, in [uint32_t]. *)
Definition recombine_updated (M0 M1 : list (list Z)) (rows cols : nat)
  : option (list (list Z)) :=
  mapM (λ i, r0 ← M0 !! i; r1 ← M1 !! i;
             mapM (λ f, x ← r0 !! f; y ← r1 !! f; Some (to_u32 (x + y)))
                  (seq 0 cols))
       (seq 0 rows).

(** A mismatch report on the error stream. *)
Record mismatch := mkMismatch {
  mm_matrix : string; mm_row : nat; mm_col : nat;
  mm_mpc : Z; mm_cleartext : Z
}.

Definition MAX_ERRORS_TO_PRINT : Z := 10.

Record compare_state := mkCompare {
  cs_ok : bool; cs_errors : Z; cs_printed : list mismatch
}.

(** One entry of a comparison loop.  The code counts the mismatches in
    [int]; the definition is for fewer than [2^31] entries. *)
Definition compare_entry (name : string) (mpc cleartext : list (list Z))
    (i f : nat) (st : compare_state) : option compare_state :=
  r ← mpc !! i; x ← r !! f;
  r' ← cleartext !! i; y ← r' !! f;
  if negb (x =? y) then
    Some {| cs_ok := false;
            cs_errors := cs_errors st + 1;
            cs_printed :=
              if cs_errors st <? MAX_ERRORS_TO_PRINT
              then cs_printed st ++ [mkMismatch name i f x y]
              else cs_printed st |}
  else Some st.

Fixpoint compare_cols (name : string) (mpc cleartext : list (list Z))
    (i f todo : nat) (st : compare_state) : option compare_state :=
  match todo with
  | O => Some st
  | S todo' =>
      st ← compare_entry name mpc cleartext i f st;
      compare_cols name mpc cleartext i (S f) todo' st
  end.

Fixpoint compare_rows (name : string) (mpc cleartext : list (list Z))
    (cols i todo : nat) (st : compare_state) : option compare_state :=
  match todo with
  | O => Some st
  | S todo' =>
      st ← compare_cols name mpc cleartext i 0 cols st;
      compare_rows name mpc cleartext cols (S i) todo' st
  end.

Definition compare_matrix (name : string) (mpc cleartext : list (list Z))
    (rows cols : nat) : option compare_state :=
  compare_rows name mpc cleartext cols 0 rows
    {| cs_ok := true; cs_errors := 0; cs_printed := [] |}.

(** Step 5 and 6 of [main]: the two comparison loops and the exit code,
    with the mismatch reports printed on the way. *)
Definition compare_results (m n k : nat)
    (U_mpc V_mpc U_cleartext_uint V_cleartext_uint : list (list Z))
  : option (Z * list mismatch) :=
  u ← compare_matrix "U" U_mpc U_cleartext_uint m k;
  v ← compare_matrix "V" V_mpc V_cleartext_uint n k;
  Some (if cs_ok u && cs_ok v then 0 else 1,
        cs_printed u ++ cs_printed v).

(** [main], from the loaded files to the exit code and the reports; an
    exception on the way ends the run with exit code 1. *)
Definition checker_main (m n k : nat) (U0 U1 V0 V1 : ShareMat)
    (queries : list (Z * Z))
    (U0_updated U1_updated V0_updated V1_updated : list (list Z))
  : Z * list mismatch :=
  default (1, [])
    (U_initial ← recombine_shares U0 U1;
     V_initial ← recombine_shares V0 V1;
     '(U_cleartext, V_cleartext) ←
       apply_cleartext_updates (U_initial, V_initial) queries;
     U_mpc ← recombine_updated U0_updated U1_updated m k;
     V_mpc ← recombine_updated V0_updated V1_updated n k;
     compare_results m n k U_mpc V_mpc
       (convert_to_uint32_matrix U_cleartext)
       (convert_to_uint32_matrix V_cleartext)).

(** ** Vocabulary of the statements *)

(** Element-wise sum of two share vectors and of two share matrices. *)
Definition vec_sum (a b : ShareVec) : ShareVec := zip_with add64 a b.
Definition mat_sum (A B : ShareMat) : ShareMat := zip_with vec_sum A B.

(** Element-wise sum of two saved matrices, in [uint32_t]. *)
Definition mat_sum32 (A B : list (list Z)) : list (list Z) :=
  zip_with (zip_with (λ x y, to_u32 (x + y))) A B.

(** A matrix with [rows] rows of [cols] entries. *)
Definition has_dims (M : ShareMat) (rows cols : nat) : Prop :=
  length M = rows ∧ Forall (λ row, length row = cols) M.

(** The vector of length [n] that holds [v] at index [j] and 0 elsewhere. *)
Definition point_vector (n : nat) (j : Z) (v : Z) : list Z :=
  map (λ t : nat, if Z.of_nat t =? j then v else 0) (seq 0 n).

(** The one-hot vector [e_r]. *)
Definition one_hot (n : nat) (r : nat) : list Z := <[r := 1]> (replicate n 0).

(** The inner product over the integers, before any wrap-around. *)
Definition dotZ (a b : list Z) : Z := foldr Z.add 0 (zip_with Z.mul a b).

(** The inner product in [int64_t] arithmetic. *)
Definition dot64 (a b : list Z) : Z := to_i64 (dotZ a b).

(** The share that a server computes in the secure inner product, from its
    inputs [x], [y], its helper material [Y], [C] and the peer's masked
    vectors. *)
Definition dot_share (x y Y : list Z) (C : Z) (peer_x peer_y : list Z) : Z :=
  add64 (sub64 (dot64 x (vec_sum y peer_y)) (dot64 Y peer_x)) C.

(** The share that a server computes in the secure scalar-vector product. *)
Definition svp_share (alpha : Z) (v B C : list Z) (peer_alpha : Z)
    (peer_v : list Z) : list Z :=
  vec_sum (zip_with sub64 (vec_scalar_mul (vec_sum v peer_v) alpha)
                          (vec_scalar_mul B peer_alpha)) C.

(** *** What the helper ships

    The helper material of an inner product: the four random vectors and
    the random term. *)
Record dot_material := mkDot {
  dm_X0 : list Z; dm_Y0 : list Z; dm_X1 : list Z; dm_Y1 : list Z; dm_R : Z
}.

Definition dm_C0 (m : dot_material) : Z :=
  add64 (dot64 (dm_X0 m) (dm_Y1 m)) (dm_R m).
Definition dm_C1 (m : dot_material) : Z :=
  sub64 (dot64 (dm_X1 m) (dm_Y0 m)) (dm_R m).

Definition dm_wf (L : nat) (m : dot_material) : Prop :=
  length (dm_X0 m) = L ∧ length (dm_Y0 m) = L
  ∧ length (dm_X1 m) = L ∧ length (dm_Y1 m) = L.

Definition dm_frames0 (m : dot_material) : list Z :=
  frames (dm_X0 m) ++ frames (dm_Y0 m) ++ [dm_C0 m].
Definition dm_frames1 (m : dot_material) : list Z :=
  frames (dm_X1 m) ++ frames (dm_Y1 m) ++ [dm_C1 m].

(** The helper material of a scalar-vector product. *)
Record scalar_material := mkScalar {
  sm_A0 : Z; sm_A1 : Z; sm_B0 : list Z; sm_B1 : list Z; sm_R : list Z
}.

Definition sm_C0 (m : scalar_material) : list Z :=
  vec_sum (vec_scalar_mul (sm_B0 m) (sm_A1 m)) (sm_R m).
Definition sm_C1 (m : scalar_material) : list Z :=
  zip_with sub64 (vec_scalar_mul (sm_B1 m) (sm_A0 m)) (sm_R m).

Definition sm_wf (L : nat) (m : scalar_material) : Prop :=
  length (sm_B0 m) = L ∧ length (sm_B1 m) = L ∧ length (sm_R m) = L.

Definition sm_frames0 (m : scalar_material) : list Z :=
  [sm_A0 m] ++ frames (sm_B0 m) ++ frames (sm_C0 m).
Definition sm_frames1 (m : scalar_material) : list Z :=
  [sm_A1 m] ++ frames (sm_B1 m) ++ frames (sm_C1 m).

Definition dot_out0 (x0 y0 x1 y1 : list Z) (m : dot_material) : Z :=
  dot_share x0 y0 (dm_Y0 m) (dm_C0 m)
    (vec_sum x1 (dm_X1 m)) (vec_sum y1 (dm_Y1 m)).
Definition dot_out1 (x0 y0 x1 y1 : list Z) (m : dot_material) : Z :=
  dot_share x1 y1 (dm_Y1 m) (dm_C1 m)
    (vec_sum x0 (dm_X0 m)) (vec_sum y0 (dm_Y0 m)).

Definition svp_out0 (a0 a1 : Z) (v0 v1 : list Z) (m : scalar_material)
  : list Z :=
  svp_share a0 v0 (sm_B0 m) (sm_C0 m)
    (add64 a1 (sm_A1 m)) (vec_sum v1 (sm_B1 m)).
Definition svp_out1 (a0 a1 : Z) (v0 v1 : list Z) (m : scalar_material)
  : list Z :=
  svp_share a1 v1 (sm_B1 m) (sm_C1 m)
    (add64 a0 (sm_A0 m)) (vec_sum v0 (sm_B0 m)).

(** Column [f] of a matrix. *)
Definition column (M : ShareMat) (f : nat) : list Z :=
  map (λ row, default 0 (row !! f)) M.

(** The rotation that the servers apply in the oblivious lookup, for the
    item index [j] and the helper's index [r]: [delta] positions to the
    right, that is [(n - delta) mod n] to the left. *)
Definition rotation_delta (n : nat) (j r : Z) : Z := (j - r) mod Z.of_nat n.
Definition rotation_mid (n : nat) (j r : Z) : nat :=
  Z.to_nat ((Z.of_nat n - rotation_delta n j r) mod Z.of_nat n).

(** The shares of the looked-up row, feature after feature. *)
Fixpoint retrieve_outs0 (V0 V1 : ShareMat) (sel0 sel1 : list Z) (f : nat)
    (mats : list dot_material) : list Z :=
  match mats with
  | [] => []
  | m :: mats' =>
      dot_out0 (column V0 f) sel0 (column V1 f) sel1 m
      :: retrieve_outs0 V0 V1 sel0 sel1 (S f) mats'
  end.

Fixpoint retrieve_outs1 (V0 V1 : ShareMat) (sel0 sel1 : list Z) (f : nat)
    (mats : list dot_material) : list Z :=
  match mats with
  | [] => []
  | m :: mats' =>
      dot_out1 (column V0 f) sel0 (column V1 f) sel1 m
      :: retrieve_outs1 V0 V1 sel0 sel1 (S f) mats'
  end.

(** Entry [(t, c)] of a matrix (0 outside). *)
Definition entry (M : ShareMat) (t c : nat) : Z :=
  default 0 (default [] (M !! t) !! c).

(** [M[t][f] += d[t]] for every row [t]. *)
Definition add_column (M : ShareMat) (f : nat) (d : list Z) : ShareMat :=
  zip_with (λ row e, <[f := add64 (default 0 (row !! f)) e]> row) M d.

(** The helper material of the oblivious lookup: the shares of the
    rotation index and of the one-hot vector. *)
Record lookup_material := mkLookup {
  lm_a0 : Z; lm_a1 : Z; lm_R0 : list Z; lm_R1 : list Z
}.

Definition lm_wf (n : nat) (m : lookup_material) : Prop :=
  ∃ r, 0 <= r < Z.of_nat n ∧ add64 (lm_a0 m) (lm_a1 m) = r
       ∧ length (lm_R0 m) = n ∧ length (lm_R1 m) = n
       ∧ vec_sum (lm_R0 m) (lm_R1 m) = one_hot n (Z.to_nat r).

(** The helper material of one query. *)
Record material := mkMaterial {
  qm_lookup : lookup_material;
  qm_cols : list dot_material;
  qm_dot : dot_material;
  qm_scale : scalar_material;
  qm_update : scalar_material
}.

Definition qm_wf (n k : nat) (q : material) : Prop :=
  lm_wf n (qm_lookup q)
  ∧ length (qm_cols q) = k ∧ Forall (dm_wf n) (qm_cols q)
  ∧ dm_wf k (qm_dot q) ∧ sm_wf k (qm_scale q) ∧ sm_wf k (qm_update q).

Definition qm_frames0 (q : material) : list Z :=
  ([lm_a0 (qm_lookup q)] ++ frames (lm_R0 (qm_lookup q))
     ++ concat (map dm_frames0 (qm_cols q)))
  ++ dm_frames0 (qm_dot q)
  ++ sm_frames0 (qm_scale q) ++ sm_frames0 (qm_update q).

Definition qm_frames1 (q : material) : list Z :=
  ([lm_a1 (qm_lookup q)] ++ frames (lm_R1 (qm_lookup q))
     ++ concat (map dm_frames1 (qm_cols q)))
  ++ dm_frames1 (qm_dot q)
  ++ sm_frames1 (qm_scale q) ++ sm_frames1 (qm_update q).

(** A cleartext query [(i, j)] for [m] users and [n] items. *)
Definition in_range (m n : nat) (query : Z * Z) : Prop :=
  0 <= query.1 < Z.of_nat m ∧ 0 <= query.2 < Z.of_nat n.

(** Two matrices agree on the entries of the first [rows] rows and [cols]
    columns. *)
Definition agree (A B : list (list Z)) (rows cols : nat) : Prop :=
  ∀ i f, (i < rows)%nat → (f < cols)%nat → entry A i f = entry B i f.

(** What the comparison loops maintain: the count of mismatches is not
    negative, the flag is set exactly when it is 0, and the reports are
    those of the first [MAX_ERRORS_TO_PRINT] mismatches. *)
Definition compare_inv (st : compare_state) : Prop :=
  0 <= cs_errors st
  ∧ (cs_ok st = true ↔ cs_errors st = 0)
  ∧ Z.of_nat (length (cs_printed st)) = Z.min (cs_errors st) MAX_ERRORS_TO_PRINT.

(** *** The update rule in the words of the specification

    For a query [(i, j)]: [u_i ← u_i + v_j·(1 − ⟨u_i, v_j⟩)] and
    [v_j ← v_j + u_i·(1 − ⟨u_i, v_j⟩)], both from the rows as they are
    before the query; the other rows stay as they are. *)
Definition spec_update (matrices : list (list Z) * list (list Z))
    (query : Z * Z) : list (list Z) * list (list Z) :=
  let i := Z.to_nat query.1 in
  let j := Z.to_nat query.2 in
  let u_i := default [] (matrices.1 !! i) in
  let v_j := default [] (matrices.2 !! j) in
  let delta := sub64 1 (dot64 u_i v_j) in
  (<[i := vec_sum u_i (vec_scalar_mul v_j delta)]> matrices.1,
   <[j := vec_sum v_j (vec_scalar_mul u_i delta)]> matrices.2).

Definition spec_iteration (matrices : list (list Z) * list (list Z))
    (queries : list (Z * Z)) : list (list Z) * list (list Z) :=
  foldl spec_update matrices queries.

(** A matrix reduced entry by entry modulo [2^32]. *)
Definition mod32 (M : list (list Z)) : list (list Z) := map (map to_u32) M.

(** ** The 128-bit DPF of the query generator ([A2/gen_queries.cpp])

    The keys of this variant hold 128-bit seeds, the outputs are combined
    with XOR, and both children of a node are corrected.  [SHA256] is the
    hash function of the OpenSSL library, on sequences of bytes; the
    definitions take it as given. *)

Module A2.

(** [__int128]: two's complement on 128 bits. *)
Definition to_i128 (z : Z) : Z := (z + 2 ^ 127) mod 2 ^ 128 - 2 ^ 127.

Record CorrectionWord := mkCW {
s_cw_left : Z; s_cw_right : Z; t_cw_left : bool; t_cw_right : bool
}.

Record DPFKey := mkKey {
initial_seed : Z;
initial_flag : bool;
correction_words : list CorrectionWord;
final_correction_word : Z
}.

Record PRGOutput := mkPRG {
s_left : Z; s_right : Z; t_left : bool; t_right : bool
}.

Section WithHash.

Variable SHA256 : list Z → list Z.

(** [out = (out << 8) | hash[i]] over the given bytes. *)
Definition seed_of_bytes (bytes : list Z) : Z :=
foldl (λ out byte, to_i128 (Z.lor (Z.shiftl out 8) byte)) 0 bytes.

(** [prg_expand]: the seed as 16 bytes, most significant first, hashed;
the first and second 16 bytes of the digest are the child seeds, the
low bits of its last two bytes the control bits. *)
Definition prg_expand (seed : Z) : PRGOutput :=
let input :=
map (λ i : nat, to_u8 (Z.shiftr seed (8 * (15 - Z.of_nat i)))) (seq 0 16) in
let hash := SHA256 input in
{| s_left := seed_of_bytes (take 16 hash);
 s_right := seed_of_bytes (take 16 (drop 16 hash));
 t_left := Z.odd (nth 30 hash 0);
 t_right := Z.odd (nth 31 hash 0) |}.

(** [(location >> (domain_bits - 1 - i)) & 1] *)
Definition path_bit (location domain_bits i : Z) : bool :=
Z.testbit location (domain_bits - 1 - i).

Record gen_state := mkGen {
g_s0 : Z; g_s1 : Z; g_t0 : bool; g_t1 : bool;
g_cws : list CorrectionWord
}.

(** The body of the level loop of [generateDPF]. *)
Definition gen_level (location domain_bits i : Z) (st : gen_state)
: gen_state :=
let pb := path_bit location domain_bits i in
let out0 := prg_expand (g_s0 st) in
let out1 := prg_expand (g_s1 st) in
let cw :=
if negb pb then
  {| s_cw_left := 0;
     s_cw_right := Z.lxor (s_right out0) (s_right out1);
     t_cw_left := xorb (xorb (t_left out0) (t_left out1)) true;
     t_cw_right := xorb (t_right out0) (t_right out1) |}
else
  {| s_cw_left := Z.lxor (s_left out0) (s_left out1);
     s_cw_right := 0;
     t_cw_left := xorb (t_left out0) (t_left out1);
     t_cw_right := xorb (xorb (t_right out0) (t_right out1)) true |} in
let s0_path := if pb then s_right out0 else s_left out0 in
let s1_path := if pb then s_right out1 else s_left out1 in
let t0_path := if pb then t_right out0 else t_left out0 in
let t1_path := if pb then t_right out1 else t_left out1 in
let s_cw_keep := if pb then s_cw_right cw else s_cw_left cw in
let t_cw_keep := if pb then t_cw_right cw else t_cw_left cw in
{| g_s0 := Z.lxor s0_path (if g_t0 st then s_cw_keep else 0);
 g_s1 := Z.lxor s1_path (if g_t1 st then s_cw_keep else 0);
 g_t0 := xorb t0_path (if g_t0 st then t_cw_keep else false);
 g_t1 := xorb t1_path (if g_t1 st then t_cw_keep else false);
 g_cws := g_cws st ++ [cw] |}.

(** [for (int i = 0; i < domain_bits; ++i)], with [todo] iterations left. *)
Fixpoint gen_loop (location domain_bits : Z) (todo : nat) (i : Z)
(st : gen_state) : gen_state :=
match todo with
| O => st
| S todo' =>
  gen_loop location domain_bits todo' (i + 1)
           (gen_level location domain_bits i st)
end.

(** [generateDPF(location, value, domain_bits)]; the two initial seeds,
which the function draws from its random engine, are arguments. *)
Definition generateDPF (location value domain_bits : Z) (seed0 seed1 : Z)
: DPFKey * DPFKey :=
let st := gen_loop location domain_bits (Z.to_nat domain_bits) 0
          {| g_s0 := seed0; g_s1 := seed1; g_t0 := true; g_t1 := false;
             g_cws := [] |} in
let final_s0_val := to_u64 (g_s0 st) in
let final_s1_val := to_u64 (g_s1 st) in
let final_cw := Z.lxor (Z.lxor value final_s0_val) final_s1_val in
({| initial_seed := seed0; initial_flag := true;
  correction_words := g_cws st; final_correction_word := final_cw |},
{| initial_seed := seed1; initial_flag := false;
  correction_words := g_cws st; final_correction_word := final_cw |}).

(** [eval_recursive], with [todo] levels between [level] and the leaves;
a write outside [result] is undefined in C++ and [None] here. *)
Fixpoint eval_recursive (key : DPFKey) (todo level : nat)
(current_seed : Z) (current_flag : bool) (result : list Z)
(current_path_val : Z) : option (list Z) :=
match todo with
| O =>
  let final_val := to_u64 current_seed in
  let final_val :=
    if current_flag then Z.lxor final_val (final_correction_word key)
    else final_val in
  if current_path_val <? Z.of_nat (length result)
  then Some (<[Z.to_nat current_path_val := final_val]> result)
  else None
| S todo' =>
  cw ← correction_words key !! level;
  let out := prg_expand current_seed in
  let s_left_mod :=
    Z.lxor (s_left out) (if current_flag then s_cw_left cw else 0) in
  let s_right_mod :=
    Z.lxor (s_right out) (if current_flag then s_cw_right cw else 0) in
  let t_left_mod :=
    xorb (t_left out) (if current_flag then t_cw_left cw else false) in
  let t_right_mod :=
    xorb (t_right out) (if current_flag then t_cw_right cw else false) in
  result ← eval_recursive key todo' (S level) s_left_mod t_left_mod result
             (to_u64 (Z.shiftl current_path_val 1));
  eval_recursive key todo' (S level) s_right_mod t_right_mod result
    (Z.lor (to_u64 (Z.shiftl current_path_val 1)) 1)
end.

(** [EvalFull(key, domain_size)] *)
Definition EvalFull (key : DPFKey) (domain_size : nat) : option (list Z) :=
eval_recursive key (length (correction_words key)) 0
(initial_seed key) (initial_flag key) (replicate domain_size 0) 0.

(** The comparison loop of [main]: it stops at the first index at which
the two evaluations, combined with XOR, differ from [value] at
[location] and 0 elsewhere. *)
Fixpoint test_loop (eval0 eval1 : list Z) (location value : Z)
(j todo : nat) : option bool :=
match todo with
| O => Some true
| S todo' =>
  x ← eval0 !! j; y ← eval1 !! j;
  let reconstructed_value := Z.lxor x y in
  let expected := if Z.of_nat j =? location then value else 0 in
  if negb (reconstructed_value =? expected) then Some false
  else test_loop eval0 eval1 location value (S j) todo'
end.

(** One round of the test loop of [main]: generation, the two full
evaluations and the comparison; [Some true] is "Test Passed". *)
Definition run_test (dpf_size : nat) (domain_bits location value : Z)
(seed0 seed1 : Z) : option bool :=
let '(k0, k1) := generateDPF location value domain_bits seed0 seed1 in
eval0 ← EvalFull k0 dpf_size;
eval1 ← EvalFull k1 dpf_size;
test_loop eval0 eval1 location value 0 dpf_size.

(** The value of a leaf: the walk of [eval_recursive] from a node to the
leaf that the low bits of [index] select, through the correction words
[cws] of the levels below the node. *)
Fixpoint leaf_value (final_cw : Z) (cws : list CorrectionWord)
(seed : Z) (flag : bool) (index : Z) : Z :=
match cws with
| [] =>
  if flag then Z.lxor (to_u64 seed) final_cw else to_u64 seed
| cw :: cws' =>
  let out := prg_expand seed in
  if Z.testbit index (Z.of_nat (length cws')) then
    leaf_value final_cw cws'
      (Z.lxor (s_right out) (if flag then s_cw_right cw else 0))
      (xorb (t_right out) (if flag then t_cw_right cw else false)) index
  else
    leaf_value final_cw cws'
      (Z.lxor (s_left out) (if flag then s_cw_left cw else 0))
      (xorb (t_left out) (if flag then t_cw_left cw else false)) index
end.

End WithHash.

End A2.

(** ** Matrix files as text ([common.hpp], [pB.cpp], [gen_queries.cpp])

    A matrix file holds one line per row, the entries as unsigned decimal
    numerals separated by one space.  It is read with [in >> val], which
    skips white space and takes the longest run of digits.  The read fails
    when no digit follows or when the numeral does not fit 32 bits; what
    it does on a sign character depends on the C++ library and is left
    outside the model. *)

(** [std::isspace] in the C locale. *)
Definition is_space (c : ascii) : bool :=
  let n := nat_of_ascii c in
  (n =? 32)%nat || ((9 <=? n)%nat && (n <=? 13)%nat).

Definition is_digit (c : ascii) : bool :=
  let n := nat_of_ascii c in (48 <=? n)%nat && (n <=? 57)%nat.

Definition is_sign (c : ascii) : bool :=
  let n := nat_of_ascii c in (n =? 43)%nat || (n =? 45)%nat.

Fixpoint skip_space (s : string) : string :=
  match s with
  | String c s' => if is_space c then skip_space s' else s
  | EmptyString => EmptyString
  end.

Fixpoint take_digits (s : string) : string * string :=
  match s with
  | String c s' =>
      if is_digit c then
        let '(numeral, rest) := take_digits s' in (String c numeral, rest)
      else (EmptyString, s)
  | EmptyString => (EmptyString, EmptyString)
  end.

(** The outcome of [in >> val]. *)
Inductive read_result :=
| ReadValue (val : Z) (rest : string)   (** the value, and the stream after it *)
| ReadFailed                            (** the stream is in its fail state *)
| ReadSigned.                           (** a sign character: not modelled *)

(** [in >> val] for a [uint32_t]. *)
Definition read_u32 (s : string) : read_result :=
  match skip_space s with
  | String c s' =>
      if is_sign c then ReadSigned
      else
        let '(numeral, rest) := take_digits (String c s') in
        match parse_u32 numeral with
        | Some val => ReadValue val rest
        | None => ReadFailed
        end
  | EmptyString => ReadFailed
  end.

(** A read whose value the program goes on with.  A read that fails leaves
    the entries from there on outside the model ([None]): at the end of the
    file the variable read into is left uninitialised. *)
Definition read_value (s : string) : option (Z * string) :=
  match read_u32 s with
  | ReadValue val rest => Some (val, rest)
  | ReadFailed | ReadSigned => None
  end.

(** The inner loop and the outer loop of [load_matrix_shares]. *)
Fixpoint load_row (s : string) (cols : nat) : option (ShareVec * string) :=
  match cols with
  | O => Some ([], s)
  | S cols' =>
      '(val, s) ← read_value s;
      '(row, s) ← load_row s cols';
      Some (load_share val :: row, s)
  end.

Fixpoint load_rows (s : string) (rows cols : nat)
  : option (ShareMat * string) :=
  match rows with
  | O => Some ([], s)
  | S rows' =>
      '(row, s) ← load_row s cols;
      '(M, s) ← load_rows s rows' cols;
      Some (row :: M, s)
  end.

(** [load_matrix_shares(filename, rows, cols)], on the text of the file. *)
Definition load_matrix_shares (file : string) (rows cols : nat)
  : option ShareMat :=
  '(M, _) ← load_rows file rows cols; Some M.

(** One line of a matrix file: [out << output_val], and a space after
    every entry but the last. *)
Fixpoint write_row (output_vals : list Z) : string :=
  match output_vals with
  | [] => EmptyString
  | [output_val] => print_u32 output_val
  | output_val :: rest =>
      String.append (print_u32 output_val)
                    (String " "%char (write_row rest))
  end.

(** The text of a matrix file, from the [uint32_t] values of its rows. *)
Fixpoint write_matrix (rows : list (list Z)) : string :=
  match rows with
  | [] => EmptyString
  | row :: rows' =>
      String.append (write_row row)
                    (String "010"%char (write_matrix rows'))
  end.

(** The file that a server writes at the end of [execute_protocol]. *)
Definition updated_file (matrix : ShareMat) (rows cols : nat) : option string :=
  write_matrix <$> save_matrix matrix rows cols.

(** [save_matrix_to_file] of the generator: every row of the matrix. *)
Definition save_matrix_to_file (matrix : ShareMat) : string :=
  write_matrix (map (map save_share) matrix).

(** The checker reads the updated files with [file >> M[i][f]], into
    [uint32_t] entries. *)
Fixpoint read_u32_row (s : string) (cols : nat) : option (list Z * string) :=
  match cols with
  | O => Some ([], s)
  | S cols' =>
      '(val, s) ← read_value s;
      '(row, s) ← read_u32_row s cols';
      Some (val :: row, s)
  end.

Fixpoint read_u32_rows (s : string) (rows cols : nat)
  : option (list (list Z) * string) :=
  match rows with
  | O => Some ([], s)
  | S rows' =>
      '(row, s) ← read_u32_row s cols;
      '(M, s) ← read_u32_rows s rows' cols;
      Some (row :: M, s)
  end.

Definition read_updated (file : string) (rows cols : nat)
  : option (list (list Z)) :=
  '(M, _) ← read_u32_rows file rows cols; Some M.

(** ** The generator of shares and queries ([gen_queries.cpp])

    One entry of an initial matrix: the value and the share of P0 are
    drawn with [random_int8], the share of P1 is their difference. *)
Definition share_entry (draw : Z * Z) : Z * Z :=
  let '(actual_value, share_p0) := draw in
  let share_p1 := sub64 actual_value share_p0 in
  (share_p0, share_p1).

(** The two share matrices for the draws of a matrix. *)
Definition share_matrices (draws : list (list (Z * Z))) : ShareMat * ShareMat :=
  (map (map (λ draw, (share_entry draw).1)) draws,
   map (map (λ draw, (share_entry draw).2)) draws).

(** [cleartext_query_file << selected_user << " " << selected_item << "\n"] *)
Fixpoint write_cleartext_queries (queries : list (Z * Z)) : string :=
  match queries with
  | [] => EmptyString
  | (selected_user, selected_item) :: rest =>
      String.append (print_u32 selected_user)
        (String " "%char
           (String.append (print_u32 selected_item)
              (String "010"%char (write_cleartext_queries rest))))
  end.

(** ** The queries of the checker ([check_correctness.cpp]) *)

(** The loop of [load_cleartext_queries]: pairs are read while fewer than
    [expected_q] have been read and both reads succeed. *)
Fixpoint read_query_pairs (s : string) (todo : nat) : option (list (Z * Z)) :=
  match todo with
  | O => Some []
  | S todo' =>
      match read_u32 s with
      | ReadValue i_idx s =>
          match read_u32 s with
          | ReadValue j_idx s =>
              rest ← read_query_pairs s todo'; Some ((i_idx, j_idx) :: rest)
          | ReadFailed => Some []
          | ReadSigned => None
          end
      | ReadFailed => Some []
      | ReadSigned => None
      end
  end.

(** The outcome of a function that may throw. *)
Inductive thrown (A : Type) := Returned (a : A) | Thrown.
Arguments Returned {A} a.
Arguments Thrown {A}.

(** [load_cleartext_queries] on the text of the file; a count other than
    [expected_q] throws.  [None]: the file is outside the model. *)
Definition load_cleartext_queries (file : string) (expected_q : nat)
  : option (thrown (list (Z * Z))) :=
  queries ← read_query_pairs file expected_q;
  Some (if negb (length queries =? expected_q)%nat then Thrown
        else Returned queries).

(** [extract_queries_from_binary], on the records of the two query files;
    the user index is read from both files into the same variable, and a
    negative reconstructed item index is replaced by 0.  Reading past the
    end of a file leaves unspecified values ([None]). *)
Fixpoint extract_queries_from_binary (p0_file p1_file : list Query)
    (expected_q : nat) : option (list (Z * Z)) :=
  match expected_q with
  | O => Some []
  | S expected_q' =>
      match p0_file, p1_file with
      | q0 :: p0_rest, q1 :: p1_rest =>
          let user_idx := user_index q1 in
          let j_recon := add64 (item_share q0) (item_share q1) in
          let item_idx := if j_recon >=? 0 then to_u32 j_recon else 0 in
          rest ← extract_queries_from_binary p0_rest p1_rest expected_q';
          Some ((user_idx, item_idx) :: rest)
      | _, _ => None
      end
  end.

(** Step 2 of the checker's [main]: the cleartext file when it can be
    opened ([Some]) and holds [q] queries, the binary files otherwise. *)
Definition checker_queries (cleartext_file : option string)
    (p0_file p1_file : list Query) (q : nat) : option (list (Z * Z)) :=
  match cleartext_file with
  | Some file =>
      loaded ← load_cleartext_queries file q;
      match loaded with
      | Returned queries => Some queries
      | Thrown => extract_queries_from_binary p0_file p1_file q
      end
  | None => extract_queries_from_binary p0_file p1_file q
  end.

(** * Proofs *)

(** ** Arithmetic modulo [2^64] and [2^32] *)

Module IntFacts.

#[export] Instance eqm64_equiv : Equivalence eqm64.
Proof.
  split; unfold eqm64; [intros x | intros x y H | intros x y z H1 H2]; congruence.
Qed.

#[export] Instance eqm32_equiv : Equivalence eqm32.
Proof.
  split; unfold eqm32; [intros x | intros x y H | intros x y z H1 H2]; congruence.
Qed.

#[export] Instance add_eqm64 : Proper (eqm64 ==> eqm64 ==> eqm64) Z.add.
Proof.
  intros a a' Ha b b' Hb. unfold eqm64 in *.
  rewrite (Zplus_mod a b), (Zplus_mod a' b'). congruence.
Qed.

#[export] Instance sub_eqm64 : Proper (eqm64 ==> eqm64 ==> eqm64) Z.sub.
Proof.
  intros a a' Ha b b' Hb. unfold eqm64 in *.
  rewrite (Zminus_mod a b), (Zminus_mod a' b'). congruence.
Qed.

#[export] Instance mul_eqm64 : Proper (eqm64 ==> eqm64 ==> eqm64) Z.mul.
Proof.
  intros a a' Ha b b' Hb. unfold eqm64 in *.
  rewrite (Zmult_mod a b), (Zmult_mod a' b'). congruence.
Qed.

#[export] Instance opp_eqm64 : Proper (eqm64 ==> eqm64) Z.opp.
Proof.
  intros a a' Ha. rewrite <- (Z.sub_0_l a), <- (Z.sub_0_l a').
  apply sub_eqm64; [reflexivity | assumption].
Qed.

#[export] Instance add_eqm32 : Proper (eqm32 ==> eqm32 ==> eqm32) Z.add.
Proof.
  intros a a' Ha b b' Hb. unfold eqm32 in *.
  rewrite (Zplus_mod a b), (Zplus_mod a' b'). congruence.
Qed.

#[export] Instance sub_eqm32 : Proper (eqm32 ==> eqm32 ==> eqm32) Z.sub.
Proof.
  intros a a' Ha b b' Hb. unfold eqm32 in *.
  rewrite (Zminus_mod a b), (Zminus_mod a' b'). congruence.
Qed.

#[export] Instance mul_eqm32 : Proper (eqm32 ==> eqm32 ==> eqm32) Z.mul.
Proof.
  intros a a' Ha b b' Hb. unfold eqm32 in *.
  rewrite (Zmult_mod a b), (Zmult_mod a' b'). congruence.
Qed.

Lemma eqm64_eq a b : a = b -> eqm64 a b.
Proof. intros ->. reflexivity. Qed.

Lemma eqm64_eqm32 a b : eqm64 a b -> eqm32 a b.
Proof.
  unfold eqm64, eqm32. intros H.
  assert (E : forall z, z mod 2 ^ 32 = (z mod 2 ^ 64) mod 2 ^ 32).
  { intros z. symmetry. apply Z.mod_mod_divide.
    exists (2 ^ 32). reflexivity. }
  rewrite (E a), (E b). congruence.
Qed.

Lemma to_i64_eqm z : eqm64 (to_i64 z) z.
Proof.
  unfold eqm64, to_i64.
  rewrite Zminus_mod, Z.mod_mod by lia.
  rewrite <- Zminus_mod. f_equal. lia.
Qed.

Lemma to_u64_eqm z : eqm64 (to_u64 z) z.
Proof. unfold eqm64, to_u64. now rewrite Z.mod_mod by lia. Qed.

Lemma to_i32_eqm z : eqm32 (to_i32 z) z.
Proof.
  unfold eqm32, to_i32.
  rewrite Zminus_mod, Z.mod_mod by lia.
  rewrite <- Zminus_mod. f_equal. lia.
Qed.

Lemma to_u32_eqm z : eqm32 (to_u32 z) z.
Proof. unfold eqm32, to_u32. now rewrite Z.mod_mod by lia. Qed.

Lemma to_i64_range z : is_i64 (to_i64 z).
Proof.
  unfold is_i64, to_i64.
  pose proof (Z.mod_pos_bound (z + 2 ^ 63) (2 ^ 64)). lia.
Qed.

Lemma to_i64_id z : is_i64 z -> to_i64 z = z.
Proof.
  unfold is_i64, to_i64. intros H.
  rewrite Z.mod_small; lia.
Qed.

#[export] Instance to_i64_proper : Proper (eqm64 ==> eq) to_i64.
Proof.
  intros a b H. unfold to_i64. f_equal.
  change ((a + 2 ^ 63) mod 2 ^ 64 = (b + 2 ^ 63) mod 2 ^ 64).
  now apply add_eqm64.
Qed.

Lemma to_i64_idem z : to_i64 (to_i64 z) = to_i64 z.
Proof. apply to_i64_proper, to_i64_eqm. Qed.

Lemma eqm64_to_i64 a b : to_i64 a = to_i64 b -> eqm64 a b.
Proof.
  intros H. rewrite <- (to_i64_eqm a), <- (to_i64_eqm b), H. reflexivity.
Qed.

Lemma is_i64_eq a b : is_i64 a -> is_i64 b -> eqm64 a b -> a = b.
Proof.
  intros Ha Hb H. rewrite <- (to_i64_id a), <- (to_i64_id b) by assumption.
  now apply to_i64_proper.
Qed.

Lemma to_u32_range z : 0 <= to_u32 z < 2 ^ 32.
Proof. apply Z.mod_pos_bound. lia. Qed.

Lemma to_i32_range z : - 2 ^ 31 <= to_i32 z < 2 ^ 31.
Proof.
  unfold to_i32. pose proof (Z.mod_pos_bound (z + 2 ^ 31) (2 ^ 32)). lia.
Qed.

#[export] Instance to_u32_proper : Proper (eqm32 ==> eq) to_u32.
Proof. intros a b H. exact H. Qed.

Lemma add64_range a b : is_i64 (add64 a b).
Proof. apply to_i64_range. Qed.
Lemma sub64_range a b : is_i64 (sub64 a b).
Proof. apply to_i64_range. Qed.
Lemma mul64_range a b : is_i64 (mul64 a b).
Proof. apply to_i64_range. Qed.

Lemma add64_eqm a b : eqm64 (add64 a b) (a + b).
Proof. apply to_i64_eqm. Qed.
Lemma sub64_eqm a b : eqm64 (sub64 a b) (a - b).
Proof. apply to_i64_eqm. Qed.
Lemma mul64_eqm a b : eqm64 (mul64 a b) (a * b).
Proof. apply to_i64_eqm. Qed.

End IntFacts.
Export IntFacts.

(** [ring64] proves an equation between 64-bit results, or a congruence
    modulo [2^64], that holds in the ring of integers once every wrap-around
    is erased. *)
Ltac erase_wrap :=
  unfold add64, sub64, mul64;
  repeat (rewrite_strat (topdown to_i64_eqm)).

Ltac erase_wrap_in H :=
  unfold add64, sub64, mul64 in H;
  repeat (rewrite_strat (topdown to_i64_eqm) in H).

Ltac ring64 :=
  lazymatch goal with
  | |- eqm64 _ _ => erase_wrap; apply eqm64_eq; ring
  | |- to_i64 _ = to_i64 _ => apply to_i64_proper; erase_wrap; apply eqm64_eq; ring
  | |- _ = _ =>
      unfold add64, sub64, mul64; apply to_i64_proper; erase_wrap;
      apply eqm64_eq; ring
  end.

Lemma add64_comm a b : add64 a b = add64 b a.
Proof. ring64. Qed.

Lemma add64_assoc a b c : add64 a (add64 b c) = add64 (add64 a b) c.
Proof. ring64. Qed.

Lemma add64_0_r a : is_i64 a -> add64 a 0 = a.
Proof. intros H. unfold add64. rewrite Z.add_0_r. now apply to_i64_id. Qed.

Lemma add64_0_l a : is_i64 a -> add64 0 a = a.
Proof. intros H. unfold add64. now apply to_i64_id. Qed.

(** ** The distributed point function *)

Section DPFFacts.

Variable prg : Z -> ChildSeed.

Lemma dpf_depth_pos n : 1 <= dpf_depth n.
Proof.
  unfold dpf_depth.
  destruct (n =? 0); simpl; [lia|].
  destruct (Z.log2_up n =? 0) eqn:E; [lia|].
  pose proof (Z.log2_up_nonneg n). lia.
Qed.

Lemma dpf_depth_bound n : n <= 2 ^ dpf_depth n.
Proof.
  unfold dpf_depth.
  destruct (n =? 0) eqn:E0; simpl.
  - apply Z.eqb_eq in E0. subst. lia.
  - destruct (Z.log2_up n =? 0) eqn:E.
    + apply Z.eqb_eq in E.
      destruct (Z_le_gt_dec n 1) as [H|H]; [change (2 ^ 1) with 2; lia|].
      pose proof (Z.log2_up_pos n). lia.
    + destruct (Z_le_gt_dec n 1) as [H|H].
      * pose proof (Z.log2_up_nonneg n).
        assert (1 <= 2 ^ Z.log2_up n) by (apply Z.pow_le_mono_r with (b := 0); lia).
        lia.
      * apply Z.log2_up_spec. lia.
Qed.

(** *** Correction words accumulate in level order *)

Lemma gen_level_cws j d i st :
  exists cw, g_cws (gen_level prg j d i st) = g_cws st ++ [cw].
Proof. unfold gen_level. simpl. eauto. Qed.

Lemma gen_loop_cws j d todo : forall i st,
  exists ext, g_cws (gen_loop prg j d todo i st) = g_cws st ++ ext
              /\ length ext = todo.
Proof.
  induction todo as [|todo IH]; intros i st; simpl.
  - exists []. now rewrite app_nil_r.
  - destruct (IH (i + 1) (gen_level prg j d i st)) as (ext & E & L).
    destruct (gen_level_cws j d i st) as (cw & Ecw).
    exists (cw :: ext). split; [|simpl; congruence].
    rewrite E, Ecw, <- app_assoc. reflexivity.
Qed.

(** The two keys of a pair are built from one [gen_loop], so that they
    carry the same correction words. *)
Lemma generateDPF_cws j v n rs0 rs1 rR :
  cws (generateDPF prg j v n rs0 rs1 rR).1
  = cws (generateDPF prg j v n rs0 rs1 rR).2.
Proof. reflexivity. Qed.

(** *** One level *)

Lemma lxor_cancel a b : Z.lxor a (Z.lxor b a) = b.
Proof.
  rewrite (Z.lxor_comm b a), <- Z.lxor_assoc, Z.lxor_nilpotent.
  apply Z.lxor_0_l.
Qed.

Lemma lxor_cancel' a b : Z.lxor a (Z.lxor a b) = b.
Proof. rewrite <- Z.lxor_assoc, Z.lxor_nilpotent. apply Z.lxor_0_l. Qed.

Lemma eval_level_path_bit key t j d i sf :
  path_bit t d i = path_bit j d i ->
  eval_level prg key t d i sf = eval_level prg key j d i sf.
Proof. intros E. unfold eval_level. destruct sf. now rewrite E. Qed.

Lemma cws_lookup_level key j d i st ext :
  0 <= i -> length (g_cws st) = Z.to_nat i ->
  cws key = g_cws (gen_level prg j d i st) ++ ext ->
  exists cw, g_cws (gen_level prg j d i st) = g_cws st ++ [cw]
             /\ cws key !! Z.to_nat i = Some cw.
Proof.
  intros Hi Hlen Hk.
  destruct (gen_level_cws j d i st) as (cw & Ecw).
  exists cw. split; [assumption|].
  rewrite Hk, Ecw, <- app_assoc, <- Hlen.
  rewrite lookup_app_r by lia.
  now rewrite Nat.sub_diag.
Qed.

(** On the path of the generation index both parties' evaluation takes
    the step that the generator took, and their flags stay different. *)
Lemma gen_level_on_path key j d i st ext :
  0 <= i -> length (g_cws st) = Z.to_nat i ->
  cws key = g_cws (gen_level prg j d i st) ++ ext ->
  g_f0 st <> g_f1 st ->
  let st1 := gen_level prg j d i st in
  eval_level prg key j d i (g_s0 st, g_f0 st) = Some (g_s0 st1, g_f0 st1)
  /\ eval_level prg key j d i (g_s1 st, g_f1 st) = Some (g_s1 st1, g_f1 st1)
  /\ g_f0 st1 <> g_f1 st1.
Proof.
  intros Hi Hlen Hk Hf st1.
  destruct (cws_lookup_level key j d i st ext Hi Hlen Hk) as (cw & Ecw & Hcw).
  unfold eval_level. rewrite Hcw.
  subst st1. unfold gen_level in Ecw. simpl in Ecw.
  apply app_inj_tail in Ecw. destruct Ecw as [_ Ecw]. subst cw.
  unfold gen_level. simpl.
  destruct (g_f0 st), (g_f1 st); try congruence; simpl;
    destruct (path_bit j d i); simpl;
    repeat split; try reflexivity;
    destruct (f_left (prg (g_s0 st))), (f_left (prg (g_s1 st))),
             (f_right (prg (g_s0 st))), (f_right (prg (g_s1 st)));
    simpl; congruence.
Qed.

(** Off the path the two parties' states collapse. *)
Lemma gen_level_off_path key t j d i st ext :
  0 <= i -> length (g_cws st) = Z.to_nat i ->
  cws key = g_cws (gen_level prg j d i st) ++ ext ->
  g_f0 st <> g_f1 st ->
  path_bit t d i <> path_bit j d i ->
  exists sf,
    eval_level prg key t d i (g_s0 st, g_f0 st) = Some sf
    /\ eval_level prg key t d i (g_s1 st, g_f1 st) = Some sf.
Proof.
  intros Hi Hlen Hk Hf Hpb.
  destruct (cws_lookup_level key j d i st ext Hi Hlen Hk) as (cw & Ecw & Hcw).
  unfold eval_level. rewrite Hcw.
  unfold gen_level in Ecw. simpl in Ecw.
  apply app_inj_tail in Ecw. destruct Ecw as [_ Ecw]. subst cw.
  destruct (g_f0 st), (g_f1 st); try congruence;
    destruct (path_bit j d i), (path_bit t d i); try congruence; simpl;
    eexists; split; try reflexivity;
    rewrite ?lxor_cancel, ?lxor_cancel'; f_equal; f_equal;
    destruct (f_left (prg (g_s0 st))), (f_left (prg (g_s1 st))),
             (f_right (prg (g_s0 st))), (f_right (prg (g_s1 st)));
    reflexivity.
Qed.

(** *** The level loop *)

Lemma eval_loop_cws_ext key key' t d todo : forall i sf,
  cws key = cws key' ->
  eval_loop prg key t d todo i sf = eval_loop prg key' t d todo i sf.
Proof.
  intros i sf E. revert i sf.
  induction todo as [|todo IH]; intros i sf; cbn [eval_loop]; [reflexivity|].
  assert (eval_level prg key t d i sf = eval_level prg key' t d i sf) as ->.
  { unfold eval_level. now rewrite E. }
  destruct (eval_level prg key' t d i sf); cbn [mbind option_bind];
    [apply IH | reflexivity].
Qed.

Lemma eval_loop_is_Some key t d todo : forall i sf,
  0 <= i -> (Z.to_nat i + todo <= length (cws key))%nat ->
  is_Some (eval_loop prg key t d todo i sf).
Proof.
  induction todo as [|todo IH]; intros i sf Hi Hlen; simpl; [eauto|].
  assert (exists sf', eval_level prg key t d i sf = Some sf') as (sf' & E).
  { unfold eval_level. destruct sf as [s f].
    destruct (lookup_lt_is_Some_2 (cws key) (Z.to_nat i)) as (cw & Hcw); [lia|].
    rewrite Hcw. destruct f; simpl; eauto. }
  rewrite E. simpl. apply IH; [lia|].
  rewrite Z2Nat.inj_add by lia. simpl. lia.
Qed.

Lemma gen_loop_on_path key j d todo : forall i st ext,
  0 <= i -> length (g_cws st) = Z.to_nat i ->
  cws key = g_cws (gen_loop prg j d todo i st) ++ ext ->
  g_f0 st <> g_f1 st ->
  let st' := gen_loop prg j d todo i st in
  eval_loop prg key j d todo i (g_s0 st, g_f0 st) = Some (g_s0 st', g_f0 st')
  /\ eval_loop prg key j d todo i (g_s1 st, g_f1 st) = Some (g_s1 st', g_f1 st')
  /\ g_f0 st' <> g_f1 st'.
Proof.
  induction todo as [|todo IH]; intros i st ext Hi Hlen Hk Hf;
    cbn [eval_loop gen_loop].
  - auto.
  - cbn [gen_loop] in Hk.
    destruct (gen_loop_cws j d todo (i + 1) (gen_level prg j d i st))
      as (e & Ee & _).
    assert (Hk1 : cws key = g_cws (gen_level prg j d i st) ++ (e ++ ext)).
    { rewrite Hk, Ee, <- app_assoc. reflexivity. }
    destruct (gen_level_on_path key j d i st _ Hi Hlen Hk1 Hf) as (E0 & E1 & Hf1).
    rewrite E0, E1. cbn [mbind option_bind].
    apply (IH (i + 1) (gen_level prg j d i st) ext); try assumption; [lia|].
    destruct (gen_level_cws j d i st) as (cw & ->).
    rewrite length_app, Hlen, Z2Nat.inj_add by lia. reflexivity.
Qed.

Lemma gen_loop_off_path key t j d todo : forall i st ext,
  0 <= i -> length (g_cws st) = Z.to_nat i ->
  cws key = g_cws (gen_loop prg j d todo i st) ++ ext ->
  g_f0 st <> g_f1 st ->
  (exists l, i <= l < i + Z.of_nat todo /\ path_bit t d l <> path_bit j d l) ->
  exists sf,
    eval_loop prg key t d todo i (g_s0 st, g_f0 st) = Some sf
    /\ eval_loop prg key t d todo i (g_s1 st, g_f1 st) = Some sf.
Proof.
  induction todo as [|todo IH]; intros i st ext Hi Hlen Hk Hf (l & Hl & Hne).
  - lia.
  - cbn [gen_loop] in Hk. cbn [eval_loop].
    destruct (gen_loop_cws j d todo (i + 1) (gen_level prg j d i st))
      as (e & Ee & Le).
    assert (Hk1 : cws key = g_cws (gen_level prg j d i st) ++ (e ++ ext)).
    { rewrite Hk, Ee, <- app_assoc. reflexivity. }
    assert (Hlen1 : length (g_cws (gen_level prg j d i st)) = Z.to_nat (i + 1)).
    { destruct (gen_level_cws j d i st) as (cw & ->).
      rewrite length_app, Hlen, Z2Nat.inj_add by lia. reflexivity. }
    destruct (bool_decide (path_bit t d i = path_bit j d i)) eqn:Hb.
    + apply bool_decide_eq_true in Hb.
      rewrite !(eval_level_path_bit key t j d i) by assumption.
      destruct (gen_level_on_path key j d i st _ Hi Hlen Hk1 Hf) as (E0 & E1 & Hf1).
      rewrite E0, E1. cbn [mbind option_bind].
      apply (IH (i + 1) (gen_level prg j d i st) ext); try assumption; [lia|].
      exists l. split; [|assumption].
      assert (l <> i) by (intros ->; contradiction). lia.
    + apply bool_decide_eq_false in Hb.
      destruct (gen_level_off_path key t j d i st _ Hi Hlen Hk1 Hf Hb)
        as (sf & E0 & E1).
      rewrite E0, E1. cbn [mbind option_bind].
      destruct (eval_loop_is_Some key t d todo (i + 1) sf) as (sf' & E');
        [lia | | eauto].
      rewrite Hk1, !length_app, Hlen1, Le. lia.
Qed.

(** *** Two different leaves differ at some level *)

Lemma bits_agree_dec t j d todo : forall i,
  (forall l, i <= l < i + Z.of_nat todo -> path_bit t d l = path_bit j d l)
  \/ (exists l, i <= l < i + Z.of_nat todo /\ path_bit t d l <> path_bit j d l).
Proof.
  induction todo as [|todo IH]; intros i.
  - left. intros l Hl. lia.
  - destruct (bool_decide (path_bit t d i = path_bit j d i)) eqn:Hb.
    + apply bool_decide_eq_true in Hb.
      destruct (IH (i + 1)) as [Hall | (l & Hl & Hne)].
      * left. intros l Hl.
        destruct (Z.eq_dec l i) as [->|]; [assumption|]. apply Hall. lia.
      * right. exists l. split; [lia | assumption].
    + apply bool_decide_eq_false in Hb. right. exists i. split; [lia | assumption].
Qed.

Lemma leaves_differ t j d :
  0 <= d -> 0 <= t < 2 ^ d -> 0 <= j < 2 ^ d -> t <> j ->
  exists l, 0 <= l < 0 + Z.of_nat (Z.to_nat d)
            /\ path_bit t d l <> path_bit j d l.
Proof.
  intros Hd Ht Hj Hne.
  destruct (bits_agree_dec t j d (Z.to_nat d) 0) as [Hall | H]; [|assumption].
  exfalso. apply Hne.
  rewrite <- (Z.mod_small t (2 ^ d)), <- (Z.mod_small j (2 ^ d)) by assumption.
  apply Z.bits_inj'. intros b Hb.
  destruct (Z_lt_ge_dec b d) as [Hlt | Hge].
  - rewrite !Z.mod_pow2_bits_low by lia.
    specialize (Hall (d - 1 - b)). unfold path_bit in Hall.
    replace (d - 1 - (d - 1 - b)) with b in Hall by lia.
    apply Hall. lia.
  - rewrite !Z.mod_pow2_bits_high by lia. reflexivity.
Qed.

(** *** Evaluation of a generated pair under a common final word *)

Lemma sign_of_flag_cases f :
  sign_of_flag f = if f then 1 else -1.
Proof. destruct f; reflexivity. Qed.

Lemma evalDPF_with_FCW key F t n :
  evalDPF prg (with_FCW key F) t n
  = '(s, f) ← eval_loop prg key t (dpf_depth n) (Z.to_nat (dpf_depth n)) 0
                (s_root key, f_root key);
    Some (mul64 (if (f : bool) then add64 (to_i64 s) F else to_i64 s) (sign key)).
Proof.
  unfold evalDPF.
  rewrite (eval_loop_cws_ext (with_FCW key F) key) by reflexivity.
  reflexivity.
Qed.

(** At the generation index the two evaluations add up to the common word
    plus the two key shares, minus the generation value; everywhere else
    they cancel. *)
Lemma evalDPF_pair j v n rs0 rs1 rR F t :
  0 <= j < n -> 0 <= t < n ->
  exists a b,
    evalDPF prg (with_FCW (generateDPF prg j v n rs0 rs1 rR).1 F) t n = Some a
    /\ evalDPF prg (with_FCW (generateDPF prg j v n rs0 rs1 rR).2 F) t n = Some b
    /\ add64 a b =
         if t =? j
         then to_i64 (F + FCW (generateDPF prg j v n rs0 rs1 rR).1
                        + FCW (generateDPF prg j v n rs0 rs1 rR).2 - v)
         else 0.
Proof.
  intros Hj Ht.
  rewrite !evalDPF_with_FCW.
  pose proof (dpf_depth_pos n) as Hd.
  pose proof (dpf_depth_bound n) as Hb.
  set (d := dpf_depth n) in *.
  set (st0 := {| g_s0 := rs0; g_s1 := rs1; g_f0 := false; g_f1 := true;
                 g_cws := [] |}).
  set (st := gen_loop prg j d (Z.to_nat d) 0 st0).
  set (k0 := {| s_root := rs0; f_root := false; cws := g_cws st;
        FCW := add64 rR (mul64 (sign_of_flag (g_f0 st)) (to_i64 (g_s0 st)));
        sign := sign_of_flag (g_f0 st) |}).
  set (k1 := {| s_root := rs1; f_root := true; cws := g_cws st;
        FCW := add64 (sub64 v rR) (mul64 (sign_of_flag (g_f1 st)) (to_i64 (g_s1 st)));
        sign := sign_of_flag (g_f1 st) |}).
  change (generateDPF prg j v n rs0 rs1 rR) with (k0, k1).
  cbn [fst snd].
  change (s_root k0) with rs0. change (s_root k1) with rs1.
  change (f_root k0) with false. change (f_root k1) with true.
  destruct (Z.eqb_spec t j) as [-> | Hne].
  - destruct (gen_loop_on_path k0 j d (Z.to_nat d) 0 st0 [])
      as (E0 & _ & Hf); [lia | reflexivity | simpl; now rewrite app_nil_r | simpl; congruence |].
    destruct (gen_loop_on_path k1 j d (Z.to_nat d) 0 st0 [])
      as (_ & E1 & _); [lia | reflexivity | simpl; now rewrite app_nil_r | simpl; congruence |].
    cbn [g_s0 g_s1 g_f0 g_f1 st0] in E0, E1. fold st in E0, E1, Hf.
    rewrite E0, E1. cbn [mbind option_bind].
    do 2 eexists. split; [reflexivity|]. split; [reflexivity|].
    subst k0 k1. cbn [FCW sign]. rewrite !sign_of_flag_cases.
    destruct (g_f0 st), (g_f1 st); try congruence; ring64.
  - destruct (leaves_differ t j d) as (l & Hl & Hbit); [lia | lia | lia | assumption |].
    destruct (gen_loop_off_path k0 t j d (Z.to_nat d) 0 st0 [])
      as (sf & E0 & E1'); [lia | reflexivity | simpl; now rewrite app_nil_r | simpl; congruence | eauto |].
    destruct (gen_loop_on_path k0 j d (Z.to_nat d) 0 st0 [])
      as (_ & _ & Hf); [lia | reflexivity | simpl; now rewrite app_nil_r | simpl; congruence |].
    fold st in Hf.
    assert (E1 : eval_loop prg k1 t d (Z.to_nat d) 0 (rs1, true) = Some sf).
    { rewrite <- E1'. now apply eval_loop_cws_ext. }
    cbn [g_s0 g_s1 g_f0 g_f1 st0] in E0. rewrite E0, E1.
    destruct sf as [s f]. cbn [mbind option_bind].
    do 2 eexists. split; [reflexivity|]. split; [reflexivity|].
    subst k0 k1. cbn [FCW sign]. rewrite !sign_of_flag_cases.
    destruct f, (g_f0 st), (g_f1 st); try congruence;
      apply (to_i64_proper _ 0); erase_wrap; apply eqm64_eq; ring.
Qed.

End DPFFacts.

(** ** Share vectors *)

Section VectorFacts.

Implicit Types a b c : list Z.

Lemma vec_add_Some a : forall b,
  (length a <= length b)%nat -> vec_add a b = Some (vec_sum a b).
Proof.
  induction a as [|x a IH]; intros [|y b] H; simpl in *; try reflexivity; [lia|].
  rewrite IH by lia. reflexivity.
Qed.

Lemma vec_sub_Some a : forall b,
  (length a <= length b)%nat -> vec_sub a b = Some (zip_with sub64 a b).
Proof.
  induction a as [|x a IH]; intros [|y b] H; simpl in *; try reflexivity; [lia|].
  rewrite IH by lia. reflexivity.
Qed.

Lemma vec_sum_length a b :
  length a = length b -> length (vec_sum a b) = length a.
Proof. intros H. unfold vec_sum. rewrite length_zip_with. lia. Qed.

Lemma vec_scalar_mul_length a s : length (vec_scalar_mul a s) = length a.
Proof. apply length_map. Qed.

Lemma dotZ_nil_l b : dotZ [] b = 0.
Proof. reflexivity. Qed.

Lemma dotZ_cons x a y b : dotZ (x :: a) (y :: b) = x * y + dotZ a b.
Proof. reflexivity. Qed.

Lemma dotZ_comm a : forall b, dotZ a b = dotZ b a.
Proof.
  induction a as [|x a IH]; intros [|y b]; try reflexivity.
  rewrite !dotZ_cons, IH. lia.
Qed.

Lemma vec_dot_product_from_spec a : forall b acc,
  (length a <= length b)%nat ->
  exists r, vec_dot_product_from acc a b = Some r
            /\ eqm64 r (acc + dotZ a b)
            /\ (is_i64 acc -> is_i64 r).
Proof.
  induction a as [|x a IH]; intros [|y b] acc H; simpl in *; try lia.
  - exists acc. rewrite dotZ_nil_l, Z.add_0_r.
    split; [reflexivity|]. split; [reflexivity | auto].
  - exists acc. rewrite dotZ_nil_l, Z.add_0_r.
    split; [reflexivity|]. split; [reflexivity | auto].
  - destruct (IH b (add64 acc (mul64 x y))) as (r & E & C & R); [lia|].
    exists r. split; [assumption|]. split.
    + rewrite C, dotZ_cons. ring64.
    + intros _. apply R, add64_range.
Qed.

Lemma vec_dot_product_Some a b :
  (length a <= length b)%nat ->
  vec_dot_product a b = Some (to_i64 (dotZ a b)).
Proof.
  intros H. unfold vec_dot_product.
  destruct (vec_dot_product_from_spec a b 0 H) as (r & E & C & R).
  rewrite E. f_equal. apply is_i64_eq.
  - apply R. unfold is_i64. lia.
  - apply to_i64_range.
  - rewrite C, to_i64_eqm. reflexivity.
Qed.

(** Congruent vectors have congruent inner products. *)
Lemma dotZ_eqm64 a : forall a' b b',
  Forall2 eqm64 a a' -> Forall2 eqm64 b b' ->
  eqm64 (dotZ a b) (dotZ a' b').
Proof.
  induction a as [|x a IH]; intros a' b b' Ha Hb.
  - inversion Ha; subst. reflexivity.
  - inversion Ha as [|? x' ? a'' Hx Ha']; subst.
    inversion Hb as [|y y' b0 b0' Hy Hb']; subst.
    + reflexivity.
    + rewrite !dotZ_cons. rewrite Hx, Hy, (IH a'' b0 b0'); auto. reflexivity.
Qed.

Lemma dotZ_add_l a : forall b c,
  length a = length b ->
  dotZ (zip_with Z.add a b) c = dotZ a c + dotZ b c.
Proof.
  induction a as [|x a IH]; intros [|y b] [|z c] H; simpl in *; try lia;
    try reflexivity.
  rewrite !dotZ_cons, IH by lia. lia.
Qed.

Lemma vec_sum_eqm a : forall b,
  Forall2 eqm64 (vec_sum a b) (zip_with Z.add a b).
Proof.
  induction a as [|x a IH]; intros [|y b]; simpl; constructor; auto.
  apply add64_eqm.
Qed.

Lemma Forall2_eqm64_refl a : Forall2 eqm64 a a.
Proof. induction a; constructor; auto. reflexivity. Qed.

Lemma dotZ_vec_sum_l a b c :
  length a = length b ->
  eqm64 (dotZ (vec_sum a b) c) (dotZ a c + dotZ b c).
Proof.
  intros H. rewrite <- dotZ_add_l by assumption.
  apply dotZ_eqm64; [apply vec_sum_eqm | apply Forall2_eqm64_refl].
Qed.

Lemma dotZ_vec_sum_r a b c :
  length b = length c ->
  eqm64 (dotZ a (vec_sum b c)) (dotZ a b + dotZ a c).
Proof.
  intros H. rewrite (dotZ_comm a), dotZ_vec_sum_l by assumption.
  rewrite (dotZ_comm b), (dotZ_comm c). reflexivity.
Qed.

(** The inner product with a one-hot vector reads one entry. *)
Lemma dotZ_one_hot a : forall n r x,
  length a = n -> a !! r = Some x -> dotZ a (one_hot n r) = x.
Proof.
  unfold one_hot.
  induction a as [|y a IH]; intros n r x Hn Hr; [discriminate|].
  destruct n as [|n]; [discriminate|]. simpl in Hn.
  injection Hn as Hn. subst n.
  destruct r as [|r]; simpl in *.
  - inversion Hr; subst. rewrite dotZ_cons.
    assert (forall l : list Z, dotZ l (replicate (length l) 0) = 0) as ->; [|lia].
    clear. induction l; simpl; [reflexivity|]. rewrite dotZ_cons. lia.
  - rewrite dotZ_cons, (IH (length a) r x) by (assumption || lia). lia.
Qed.

End VectorFacts.

(** ** Processes and their runs *)

Section ProcFacts.

Lemma bind_ret {L A B} (a : A) (k : A → proc L B) : (Ret a ≫= k) = k a.
Proof. reflexivity. Qed.

Lemma bind_lift_Some {L A B} (a : A) (k : A → proc L B) :
  (lift (Some a) ≫= k) = k a.
Proof. reflexivity. Qed.

(** *** One server alone *)

Lemma lstep_bind {A B} (p : proc link A) (k : A → proc link B)
    pin hin p' pin' hin' out :
  lstep p pin hin = Some (p', pin', hin', out) →
  lstep (p ≫= k) pin hin = Some (p' ≫= k, pin', hin', out).
Proof.
  destruct p as [a | l v p1 | l p1 |]; simpl; try discriminate.
  - destruct l; intros [= <- <- <- <-]; reflexivity.
  - destruct l.
    + destruct hin; [discriminate|]. intros [= <- <- <- <-]. reflexivity.
    + destruct pin; [discriminate|]. intros [= <- <- <- <-]. reflexivity.
Qed.

Lemma lsteps_trans {A} (p : proc link A) pin hin p1 pin1 hin1 o1
    p2 pin2 hin2 o2 :
  lsteps p pin hin p1 pin1 hin1 o1 →
  lsteps p1 pin1 hin1 p2 pin2 hin2 o2 →
  lsteps p pin hin p2 pin2 hin2 (o1 ++ o2).
Proof.
  induction 1 as [| ? ? ? ? ? ? ? ? ? ? ? Hs _ IH]; intros H2; [exact H2|].
  rewrite <- app_assoc. eapply lsteps_step; [exact Hs|]. now apply IH.
Qed.

Lemma lsteps_bind {A B} (p : proc link A) (k : A → proc link B)
    pin hin p' pin' hin' out :
  lsteps p pin hin p' pin' hin' out →
  lsteps (p ≫= k) pin hin (p' ≫= k) pin' hin' out.
Proof.
  induction 1 as [| ? ? ? ? ? ? ? ? ? ? ? Hs _ IH]; [constructor|].
  eapply lsteps_step; [|exact IH]. now apply lstep_bind.
Qed.

(** Sequencing: run the first process as far as it goes, then go on with
    what is left of it under the continuation. *)
Lemma lsteps_seq {A B} (p : proc link A) (k : A → proc link B)
    pin hin p1 pin1 hin1 o1 p2 pin2 hin2 o2 :
  lsteps p pin hin p1 pin1 hin1 o1 →
  lsteps (p1 ≫= k) pin1 hin1 p2 pin2 hin2 o2 →
  lsteps (p ≫= k) pin hin p2 pin2 hin2 (o1 ++ o2).
Proof.
  intros H1 H2. eapply lsteps_trans; [|exact H2]. now apply lsteps_bind.
Qed.

Lemma lsteps_out_eq {A} (p : proc link A) pin hin p' pin' hin' o o' :
  lsteps p pin hin p' pin' hin' o → o = o' →
  lsteps p pin hin p' pin' hin' o'.
Proof. now intros H <-. Qed.

Lemma lsteps_send_value {A} (k : proc link A) v pin hin :
  lsteps (Send peer_link v k) pin hin k pin hin [v].
Proof.
  eapply lsteps_out_eq; [eapply lsteps_step; [reflexivity | constructor]|].
  reflexivity.
Qed.

Lemma lsteps_send_value' v pin hin :
  lsteps (send_value peer_link v) pin hin (Ret ()) pin hin [v].
Proof. apply lsteps_send_value. Qed.

Lemma lsteps_recv_value_peer v pin hin :
  lsteps (recv_value peer_link) (v :: pin) hin (Ret v) pin hin [].
Proof.
  eapply lsteps_out_eq; [eapply lsteps_step; [reflexivity | constructor]|].
  reflexivity.
Qed.

Lemma lsteps_recv_value_helper v pin hin :
  lsteps (recv_value helper_link) pin (v :: hin) (Ret v) pin hin [].
Proof.
  eapply lsteps_out_eq; [eapply lsteps_step; [reflexivity | constructor]|].
  reflexivity.
Qed.

Lemma lsteps_send_words vec pin hin :
  lsteps (send_words peer_link vec) pin hin (Ret ()) pin hin vec.
Proof.
  induction vec as [|x vec IH]; simpl; [constructor|].
  eapply lsteps_out_eq; [eapply lsteps_step; [reflexivity | exact IH]|].
  reflexivity.
Qed.

Lemma lsteps_send_vector vec pin hin :
  lsteps (send_vector peer_link vec) pin hin (Ret ()) pin hin (frames vec).
Proof.
  unfold send_vector, frames.
  eapply lsteps_out_eq.
  - eapply lsteps_seq; [apply lsteps_send_value'|].
    rewrite bind_ret. apply lsteps_send_words.
  - reflexivity.
Qed.

Lemma lsteps_recv_words_peer vec pin hin :
  lsteps (recv_words peer_link (length vec)) (vec ++ pin) hin
         (Ret vec) pin hin [].
Proof.
  induction vec as [|x vec IH]; cbn [recv_words length app]; [constructor|].
  eapply lsteps_out_eq.
  - eapply lsteps_seq; [apply lsteps_recv_value_peer|]. rewrite bind_ret.
    eapply lsteps_seq; [apply IH|]. rewrite bind_ret. constructor.
  - reflexivity.
Qed.

Lemma lsteps_recv_words_helper vec pin hin :
  lsteps (recv_words helper_link (length vec)) pin (vec ++ hin)
         (Ret vec) pin hin [].
Proof.
  induction vec as [|x vec IH]; cbn [recv_words length app]; [constructor|].
  eapply lsteps_out_eq.
  - eapply lsteps_seq; [apply lsteps_recv_value_helper|]. rewrite bind_ret.
    eapply lsteps_seq; [apply IH|]. rewrite bind_ret. constructor.
  - reflexivity.
Qed.

Lemma recv_vector_size (vec : list Z) :
  (Z.of_nat (length vec) <? 0) = false
  ∧ Z.to_nat (Z.of_nat (length vec)) = length vec.
Proof. split; [apply Z.ltb_ge; lia | apply Nat2Z.id]. Qed.

Lemma lsteps_recv_vector_peer vec pin hin :
  lsteps (recv_vector peer_link) (frames vec ++ pin) hin (Ret vec) pin hin [].
Proof.
  unfold recv_vector, frames. simpl app.
  eapply lsteps_out_eq.
  - eapply lsteps_seq; [apply lsteps_recv_value_peer|]. rewrite bind_ret.
    destruct (recv_vector_size vec) as [-> ->].
    apply lsteps_recv_words_peer.
  - reflexivity.
Qed.

Lemma lsteps_recv_vector_helper vec pin hin :
  lsteps (recv_vector helper_link) pin (frames vec ++ hin) (Ret vec) pin hin [].
Proof.
  unfold recv_vector, frames. simpl app.
  eapply lsteps_out_eq.
  - eapply lsteps_seq; [apply lsteps_recv_value_helper|]. rewrite bind_ret.
    destruct (recv_vector_size vec) as [-> ->].
    apply lsteps_recv_words_helper.
  - reflexivity.
Qed.

(** *** From one server to the system *)

Lemma lsteps_step0 {A} (p : proc link A) pin hin p' pin' hin' out :
  lsteps p pin hin p' pin' hin' out →
  ∀ p1 q01 h1,
    rtc step (Cfg p p1 q01 pin hin h1) (Cfg p' p1 (q01 ++ out) pin' hin' h1).
Proof.
  induction 1 as [| ? ? ? ? ? ? ? ? ? ? ? Hs _ IH]; intros p1' q01 h1.
  - rewrite app_nil_r. constructor.
  - eapply rtc_l.
    + left. unfold step0. simpl. rewrite Hs. reflexivity.
    + rewrite app_assoc. apply IH.
Qed.

Lemma lsteps_step1 {A} (p : proc link A) pin hin p' pin' hin' out :
  lsteps p pin hin p' pin' hin' out →
  ∀ p0 q10 h0,
    rtc step (Cfg p0 p pin q10 h0 hin) (Cfg p0 p' pin' (q10 ++ out) h0 hin').
Proof.
  induction 1 as [| ? ? ? ? ? ? ? ? ? ? ? Hs _ IH]; intros p0' q10 h0.
  - rewrite app_nil_r. constructor.
  - eapply rtc_l.
    + right. unfold step1. simpl. rewrite Hs. reflexivity.
    + rewrite app_assoc. apply IH.
Qed.

(** *** Steps under a continuation and with more helper words pending *)

Lemma lstep_frame {A} (p : proc link A) pin hin p' pin' hin' out x :
  lstep p pin hin = Some (p', pin', hin', out) →
  lstep p pin (hin ++ x) = Some (p', pin', hin' ++ x, out).
Proof.
  destruct p as [a | l v p1 | l p1 |]; simpl; try discriminate.
  - destruct l; intros [= <- <- <- <-]; reflexivity.
  - destruct l.
    + destruct hin; [discriminate|]. intros [= <- <- <- <-]. reflexivity.
    + destruct pin; [discriminate|]. intros [= <- <- <- <-]. reflexivity.
Qed.

Lemma step_extend {A B} (k0 k1 : A → proc link B) x y (c c' : config A) :
  step c c' → step (cfg_extend k0 k1 x y c) (cfg_extend k0 k1 x y c').
Proof.
  destruct c as [p0 p1 q01 q10 h0 h1].
  intros [H | H]; [left | right]; unfold step0, step1 in *; simpl in *.
  - destruct (lstep p0 q10 h0) as [[[[p pin] hin] out]|] eqn:E; [|discriminate].
    simpl in H. injection H as <-.
    rewrite (lstep_bind _ k0 _ _ _ _ _ _ (lstep_frame _ _ _ _ _ _ _ x E)).
    reflexivity.
  - destruct (lstep p1 q01 h1) as [[[[p pin] hin] out]|] eqn:E; [|discriminate].
    simpl in H. injection H as <-.
    rewrite (lstep_bind _ k1 _ _ _ _ _ _ (lstep_frame _ _ _ _ _ _ _ y E)).
    reflexivity.
Qed.

Lemma runs_bind {A B} (p0 p1 : proc link A) (k0 k1 : A → proc link B)
    a0 a1 r0 r1 b0 b1 s0 s1 :
  runs p0 p1 a0 a1 r0 r1 →
  runs (k0 r0) (k1 r1) b0 b1 s0 s1 →
  runs (p0 ≫= k0) (p1 ≫= k1) (a0 ++ b0) (a1 ++ b1) s0 s1.
Proof.
  unfold runs. intros H1 H2.
  etrans; [|exact H2].
  apply (rtc_congruence (cfg_extend k0 k1 b0 b1) step) in H1;
    [exact H1 | apply step_extend].
Qed.

Lemma runs_ret {A} (r0 r1 : A) : runs (Ret r0) (Ret r1) [] [] r0 r1.
Proof. constructor. Qed.

End ProcFacts.

(** *** Every run ends in the same way *)

Section Confluence.

Context {A : Type}.
Implicit Types c : config A.

Lemma step0_step1_commute c c1 c2 :
  step0 c = Some c1 → step1 c = Some c2 →
  ∃ c3, step1 c1 = Some c3 ∧ step0 c2 = Some c3.
Proof.
  destruct c as [p0 p1 q01 q10 h0 h1]. unfold step0, step1. simpl.
  destruct p0 as [a0 | [] v0 k0 | [] k0 |], p1 as [a1 | [] v1 k1 | [] k1 |];
    simpl; try discriminate;
    destruct q01 as [|x01 q01], q10 as [|x10 q10],
             h0 as [|y0 h0], h1 as [|y1 h1];
    simpl; try discriminate;
    intros [= <-] [= <-]; simpl; rewrite ?app_nil_r;
    eexists; split; reflexivity.
Qed.

Lemma step_diamond c y c1 :
  step c y → step c c1 → y = c1 ∨ ∃ y3, step y y3 ∧ step c1 y3.
Proof.
  intros [H0 | H1] [H0' | H1'].
  - left. congruence.
  - right. destruct (step0_step1_commute _ _ _ H0 H1') as (c3 & E1 & E0).
    exists c3. split; [right | left]; assumption.
  - right. destruct (step0_step1_commute _ _ _ H0' H1) as (c3 & E1 & E0).
    exists c3. split; [left | right]; assumption.
  - left. congruence.
Qed.

Lemma nsteps_strip n : ∀ c t,
  nsteps step n c t → terminal t →
  ∀ c1, step c c1 → ∃ m, n = S m ∧ nsteps step m c1 t.
Proof.
  induction n as [|n IH]; intros c t Hn Ht c1 Hs.
  - inversion Hn; subst. exfalso. exact (Ht _ Hs).
  - inversion Hn as [|? ? y ? Hy Hrest]; subst.
    exists n. split; [reflexivity|].
    destruct (step_diamond _ _ _ Hy Hs) as [-> | (y3 & Hy3 & Hc3)];
      [assumption|].
    destruct (IH _ _ Hrest Ht _ Hy3) as (m & -> & Hm).
    econstructor; eassumption.
Qed.

Lemma terminal_reached c t :
  rtc step c t → terminal t → ∀ c', rtc step c c' → rtc step c' t.
Proof.
  intros Hct Ht c' Hcc'.
  apply rtc_nsteps in Hct. destruct Hct as (n & Hn).
  revert n Hn. induction Hcc' as [c | c y c' Hs _ IH]; intros n Hn.
  - apply rtc_nsteps. eauto.
  - destruct (nsteps_strip _ _ _ Hn Ht _ Hs) as (m & -> & Hm).
    eapply IH. exact Hm.
Qed.

Lemma final_terminal (r0 r1 : A) q01 q10 h0 h1 :
  terminal (Cfg (Ret r0) (Ret r1) q01 q10 h0 h1).
Proof. intros c' [H | H]; discriminate. Qed.

Lemma runs_completes (p0 p1 : proc link A) h0 h1 r0 r1 :
  runs p0 p1 h0 h1 r0 r1 → completes (Cfg p0 p1 [] [] h0 h1) r0 r1.
Proof.
  intros H. split; [exact H|].
  apply terminal_reached; [exact H | apply final_terminal].
Qed.

End Confluence.

(** ** The gadgets, run by both servers *)

Lemma lsteps_seq_ret {A B} (p : proc link A) (k : A → proc link B)
    pin hin a pin1 hin1 o1 p2 pin2 hin2 o2 :
  lsteps p pin hin (Ret a) pin1 hin1 o1 →
  lsteps (k a) pin1 hin1 p2 pin2 hin2 o2 →
  lsteps (p ≫= k) pin hin p2 pin2 hin2 (o1 ++ o2).
Proof. intros H1 H2. exact (lsteps_seq p k _ _ _ _ _ _ _ _ _ _ H1 H2). Qed.

Lemma lsteps_bind' {A B} (p : proc link A) (k : A → proc link B)
    pin hin p' pin' hin' out :
  lsteps p pin hin p' pin' hin' out →
  lsteps (p ≫= k) pin hin (p' ≫= k) pin' hin' out.
Proof. apply (lsteps_bind p k). Qed.

Lemma lsteps_lift {A B} (o : option A) (a : A) (k : A → proc link B)
    pin hin p2 pin2 hin2 o2 :
  o = Some a →
  lsteps (k a) pin hin p2 pin2 hin2 o2 →
  lsteps (lift o ≫= k) pin hin p2 pin2 hin2 o2.
Proof. intros ->. exact id. Qed.

Lemma lsteps_recv_vector_peer_all vec hin :
  lsteps (recv_vector peer_link) (frames vec) hin (Ret vec) [] hin [].
Proof.
  rewrite <- (app_nil_r (frames vec)). apply lsteps_recv_vector_peer.
Qed.

Lemma lsteps_recv_vector_helper_all vec pin :
  lsteps (recv_vector helper_link) pin (frames vec) (Ret vec) pin [] [].
Proof.
  rewrite <- (app_nil_r (frames vec)). apply lsteps_recv_vector_helper.
Qed.

Lemma vec_dot_product_dot64 a b :
  (length a <= length b)%nat -> vec_dot_product a b = Some (dot64 a b).
Proof. apply vec_dot_product_Some. Qed.

Lemma lsteps_lift_last {A} (o : option A) (a : A) pin hin :
  o = Some a → lsteps (lift o) pin hin (Ret a) pin hin [].
Proof. intros ->. constructor. Qed.

(** Lengths of the vectors that the gadgets build. *)
Ltac len :=
  unfold vec_sum, vec_scalar_mul, frames in *;
  repeat (rewrite ?length_zip_with, ?length_map, ?length_app, ?length_cons,
            ?length_insert, ?length_replicate, ?length_take, ?length_drop
          in *);
  lia.

(** The vector reads of a process succeed when the lengths agree. *)
Ltac lift_ok :=
  first
    [ eassumption
    | apply vec_add_Some; len
    | apply vec_sub_Some; len
    | apply vec_dot_product_dot64; len
    | reflexivity ].

Ltac proc_norm :=
  change (0 =? 1) with false; change (1 =? 1) with true;
  change (0 =? 0) with true; change (1 =? 0) with false;
  cbn [mbind proc_mbind mret proc_mret proc_bind app].

(** [run] moves one server as far as its streams allow. *)
Ltac run :=
  proc_norm;
  lazymatch goal with
  | |- lsteps (Ret _) _ _ _ _ _ _ => apply lsteps_refl
  | |- lsteps (recv_vector helper_link) _ (frames _ ++ _) _ _ _ _ =>
      apply lsteps_recv_vector_helper
  | |- lsteps (recv_vector peer_link) (frames _ ++ _) _ _ _ _ _ =>
      apply lsteps_recv_vector_peer
  | |- lsteps (recv_vector helper_link) _ (frames _) _ _ _ _ =>
      apply lsteps_recv_vector_helper_all
  | |- lsteps (recv_vector peer_link) (frames _) _ _ _ _ _ =>
      apply lsteps_recv_vector_peer_all
  | |- lsteps (recv_value helper_link) _ (_ :: _) _ _ _ _ =>
      apply lsteps_recv_value_helper
  | |- lsteps (recv_value peer_link) (_ :: _) _ _ _ _ _ =>
      apply lsteps_recv_value_peer
  | |- lsteps (send_vector peer_link _) _ _ _ _ _ _ => apply lsteps_send_vector
  | |- lsteps (send_value peer_link _) _ _ _ _ _ _ => apply lsteps_send_value'
  | |- lsteps (lift _) _ _ _ _ _ _ => eapply lsteps_lift_last; try lift_ok
  | |- lsteps (lift _ ≫= _) _ _ _ _ _ _ =>
      eapply lsteps_lift; [try lift_ok | run]
  | |- lsteps (_ ≫= _) _ _ _ _ _ _ =>
      first [ eapply lsteps_seq_ret; [run | run]
            | eapply lsteps_bind'; run ]
  | |- _ => apply lsteps_refl
  end.

Ltac stream_norm :=
  proc_norm; rewrite ?app_nil_r, <- ?app_assoc; proc_norm.

Ltac run0 := etrans; [apply lsteps_step0; run | stream_norm].
Ltac run1 := etrans; [apply lsteps_step1; run | stream_norm].

Section InnerProduct.

Variables (L : nat) (x0 y0 x1 y1 : list Z) (m : dot_material).
Hypothesis Hx0 : length x0 = L.
Hypothesis Hy0 : length y0 = L.
Hypothesis Hx1 : length x1 = L.
Hypothesis Hy1 : length y1 = L.
Hypothesis Hm : dm_wf L m.

Lemma inner_product_runs :
  runs (compute_secure_inner_product 0 x0 y0)
       (compute_secure_inner_product 1 x1 y1)
       (dm_frames0 m) (dm_frames1 m)
       (dot_out0 x0 y0 x1 y1 m) (dot_out1 x0 y0 x1 y1 m).
Proof.
  destruct Hm as (HX0 & HY0 & HX1 & HY1).
  unfold runs, compute_secure_inner_product, dm_frames0, dm_frames1.
  run0. run1. run0.
  unfold dot_out0, dot_out1, dot_share. apply rtc_refl.
Qed.

Lemma inner_product_sum :
  add64 (dot_out0 x0 y0 x1 y1 m) (dot_out1 x0 y0 x1 y1 m)
  = dot64 (vec_sum x0 x1) (vec_sum y0 y1).
Proof.
  destruct Hm as (HX0 & HY0 & HX1 & HY1).
  unfold dot_out0, dot_out1, dot_share, dm_C0, dm_C1, dot64.
  apply to_i64_proper. erase_wrap.
  rewrite ?dotZ_vec_sum_r by len.
  rewrite ?dotZ_vec_sum_l by len.
  rewrite ?dotZ_vec_sum_r by len.
  rewrite (dotZ_comm (dm_Y0 m) x1), (dotZ_comm (dm_Y1 m) x0),
    (dotZ_comm (dm_Y0 m) (dm_X1 m)), (dotZ_comm (dm_Y1 m) (dm_X0 m)).
  apply eqm64_eq. ring.
Qed.

End InnerProduct.

(** Two lists of the same length are equal when they agree at every index
    below the length. *)
Ltac lookup_all i :=
  repeat match goal with
  | H : length ?l = _ |- context [?l !! i] =>
      let x := fresh "x" in
      let Hx := fresh "Hx" in
      destruct (lookup_lt_is_Some_2 l i) as [x Hx]; [lia|];
      rewrite Hx
  end.

Ltac pointwise L :=
  let i := fresh "i" in
  apply list_eq; intros i;
  unfold vec_sum, vec_scalar_mul;
  repeat (rewrite ?lookup_zip_with, ?list_lookup_fmap);
  destruct (decide (i < L)%nat);
  [ lookup_all i; cbn [mbind option_bind fmap option_fmap option_map]; f_equal
  | rewrite ?lookup_ge_None_2 by lia; reflexivity ].

Section ScalarVector.

Variables (L : nat) (a0 a1 : Z) (v0 v1 : list Z) (m : scalar_material).
Hypothesis Hv0 : length v0 = L.
Hypothesis Hv1 : length v1 = L.
Hypothesis Hm : sm_wf L m.

Lemma scalar_vector_runs :
  runs (compute_secure_scalar_vector_product 0 a0 v0)
       (compute_secure_scalar_vector_product 1 a1 v1)
       (sm_frames0 m) (sm_frames1 m)
       (svp_out0 a0 a1 v0 v1 m) (svp_out1 a0 a1 v0 v1 m).
Proof.
  destruct Hm as (HB0 & HB1 & HR).
  unfold runs, compute_secure_scalar_vector_product, sm_frames0, sm_frames1,
    sm_C0, sm_C1.
  run0. run1. run0. run1.
  apply rtc_refl.
Qed.

Lemma scalar_vector_length0 : length (svp_out0 a0 a1 v0 v1 m) = L.
Proof. destruct Hm as (HB0 & HB1 & HR). unfold svp_out0, svp_share, sm_C0. len. Qed.

Lemma scalar_vector_length1 : length (svp_out1 a0 a1 v0 v1 m) = L.
Proof. destruct Hm as (HB0 & HB1 & HR). unfold svp_out1, svp_share, sm_C1. len. Qed.

Lemma scalar_vector_sum :
  vec_sum (svp_out0 a0 a1 v0 v1 m) (svp_out1 a0 a1 v0 v1 m)
  = vec_scalar_mul (vec_sum v0 v1) (add64 a0 a1).
Proof.
  destruct Hm as (HB0 & HB1 & HR).
  unfold svp_out0, svp_out1, svp_share, sm_C0, sm_C1.
  pointwise L. ring64.
Qed.

End ScalarVector.

(** ** Matrices *)

Lemma mapM_seq_Some {A} (f : nat → option A) (l : list A) :
  (∀ i x, l !! i = Some x → f i = Some x) →
  mapM f (seq 0 (length l)) = Some l.
Proof.
  intros H. apply mapM_Some_2.
  apply Forall2_same_length_lookup_2.
  - now rewrite length_seq.
  - intros i x y Hx Hy. apply lookup_seq in Hx as [-> _]. now apply H.
Qed.

Lemma has_dims_lookup M rows cols i row :
  has_dims M rows cols → M !! i = Some row → length row = cols.
Proof.
  intros [_ H] Hi. rewrite Forall_lookup in H. exact (H i row Hi).
Qed.

Lemma column_length M f : length (column M f) = length M.
Proof. apply length_map. Qed.

Lemma column_lookup M rows cols f i row :
  has_dims M rows cols → (f < cols)%nat → M !! i = Some row →
  ∃ x, row !! f = Some x ∧ column M f !! i = Some x.
Proof.
  intros HM Hf Hi.
  destruct (lookup_lt_is_Some_2 row f) as [x Hx].
  { rewrite (has_dims_lookup _ _ _ _ _ HM Hi). exact Hf. }
  exists x. split; [exact Hx|].
  unfold column. rewrite list_lookup_fmap, Hi. simpl. now rewrite Hx.
Qed.

Lemma matrix_column_Some M rows cols f :
  has_dims M rows cols → (f < cols)%nat →
  matrix_column M rows f = Some (column M f).
Proof.
  intros HM Hf. unfold matrix_column.
  replace rows with (length (column M f))
    by (rewrite column_length; apply HM).
  apply mapM_seq_Some. intros i x Hx.
  unfold column in Hx. rewrite list_lookup_fmap in Hx.
  destruct (M !! i) as [row|] eqn:Hi; [|discriminate].
  simpl in *. injection Hx as <-.
  destruct (column_lookup _ _ _ _ _ _ HM Hf Hi) as (x & Hx & _).
  now rewrite Hx.
Qed.

Lemma mat_sum_dims A B rows cols :
  has_dims A rows cols → has_dims B rows cols →
  has_dims (mat_sum A B) rows cols.
Proof.
  intros [HA1 HA2] [HB1 HB2]. split.
  - unfold mat_sum. rewrite length_zip_with. lia.
  - apply Forall_lookup. intros i row Hi.
    unfold mat_sum in Hi. apply lookup_zip_with_Some in Hi
      as (a & b & -> & Ha & Hb).
    rewrite Forall_lookup in HA2, HB2.
    unfold vec_sum. rewrite length_zip_with, (HA2 _ _ Ha), (HB2 _ _ Hb). lia.
Qed.

Lemma mat_sum_lookup A B i a b :
  A !! i = Some a → B !! i = Some b → mat_sum A B !! i = Some (vec_sum a b).
Proof.
  intros Ha Hb. unfold mat_sum. rewrite lookup_zip_with, Ha, Hb. reflexivity.
Qed.

Lemma column_mat_sum A B rows cols f :
  has_dims A rows cols → has_dims B rows cols → (f < cols)%nat →
  column (mat_sum A B) f = vec_sum (column A f) (column B f).
Proof.
  intros HA HB Hf. apply list_eq. intros i.
  unfold column, vec_sum, mat_sum.
  rewrite list_lookup_fmap, !lookup_zip_with, !list_lookup_fmap.
  destruct (A !! i) as [a|] eqn:Ha, (B !! i) as [b|] eqn:Hb; simpl;
    try reflexivity.
  destruct (lookup_lt_is_Some_2 a f) as [x Hx].
  { rewrite (has_dims_lookup _ _ _ _ _ HA Ha). exact Hf. }
  destruct (lookup_lt_is_Some_2 b f) as [y Hy].
  { rewrite (has_dims_lookup _ _ _ _ _ HB Hb). exact Hf. }
  unfold vec_sum. rewrite lookup_zip_with, Hx, Hy. reflexivity.
Qed.

(** ** The rotation of the oblivious lookup *)

Lemma to_u32_small z : 0 <= z < 2 ^ 32 → to_u32 z = z.
Proof. intros H. unfold to_u32. now apply Z.mod_small. Qed.

Lemma to_u64_small z : 0 <= z < 2 ^ 64 → to_u64 z = z.
Proof. intros H. unfold to_u64. now apply Z.mod_small. Qed.

Lemma mod_neg_small c n : - n <= c < 0 → c mod n = c + n.
Proof.
  intros H. rewrite <- (Z.mod_add c 1 n) by lia.
  rewrite Z.mul_1_l. apply Z.mod_small. lia.
Qed.

(** The signed offset is reduced to its residue in [0..n-1]. *)
Lemma total_rotation_of_spec c n :
  0 < n < 2 ^ 32 → - n < c < n →
  total_rotation_of c n = Some (c mod n).
Proof.
  intros Hn Hc. unfold total_rotation_of, rem64.
  assert ((n =? 0) = false) as -> by (apply Z.eqb_neq; lia).
  destruct (c >=? 0) eqn:E; simpl.
  - apply Z.geb_le in E. rewrite Z.rem_mod_nonneg by lia.
    pose proof (Z.mod_pos_bound c n). rewrite to_u32_small by lia. reflexivity.
  - assert (c < 0) by (destruct (Z.geb_spec c 0); [discriminate | lia]).
    assert (Z.rem c n = c) as -> by (apply Z.rem_small_iff; lia).
    unfold add64. rewrite (to_i64_id (n + c)) by (unfold is_i64; lia).
    rewrite Z.rem_small by lia.
    rewrite to_u32_small by lia.
    rewrite mod_neg_small by lia. f_equal. lia.
Qed.

(** The offset that both servers reconstruct. *)
Lemma combined_offset_spec j0 j1 a0 a1 j r n :
  add64 j0 j1 = j → add64 a0 a1 = r →
  0 <= j < n → 0 <= r < n → n < 2 ^ 32 →
  add64 (sub64 j0 a0) (sub64 j1 a1) = j - r.
Proof.
  intros Hj Hr Hjn Hrn Hn.
  rewrite <- (to_i64_id (j - r)) by (unfold is_i64; lia).
  subst j r. ring64.
Qed.

Lemma rotate_left_vec_sum mid a b :
  length a = length b →
  vec_sum (rotate_left mid a) (rotate_left mid b) = rotate_left mid (vec_sum a b).
Proof.
  intros H. unfold rotate_left, vec_sum.
  rewrite zip_with_app by (rewrite !length_drop; lia).
  now rewrite zip_with_drop, zip_with_take.
Qed.

Lemma rotate_left_length mid a : length (rotate_left mid a) = length a.
Proof.
  unfold rotate_left. rewrite length_app, length_drop, length_take. lia.
Qed.

Lemma one_hot_lookup n r i :
  (i < n)%nat → one_hot n r !! i = Some (if decide (i = r) then 1 else 0).
Proof.
  intros Hi. unfold one_hot.
  destruct (decide (i = r)) as [->|Hne].
  - apply list_lookup_insert_eq. now rewrite length_replicate.
  - rewrite list_lookup_insert_ne by congruence.
    now apply lookup_replicate_2.
Qed.

Lemma one_hot_length n r : length (one_hot n r) = n.
Proof. unfold one_hot. now rewrite length_insert, length_replicate. Qed.

Lemma rotation_mid_cases n j r :
  (0 < n)%nat → 0 <= j < Z.of_nat n → 0 <= r < Z.of_nat n →
  (j = r ∧ rotation_mid n j r = 0%nat)
  ∨ (r < j ∧ rotation_mid n j r = (n - Z.to_nat (j - r))%nat)
  ∨ (j < r ∧ rotation_mid n j r = Z.to_nat (r - j)).
Proof.
  intros Hn Hj Hr. unfold rotation_mid, rotation_delta.
  destruct (Z.lt_trichotomy j r) as [H | [-> | H]].
  - right. right. split; [assumption|].
    rewrite (mod_neg_small (j - r)) by lia.
    rewrite Z.mod_small by lia. f_equal. lia.
  - left. split; [reflexivity|].
    rewrite Z.sub_diag, Z.mod_0_l, Z.sub_0_r, Z.mod_same by lia. reflexivity.
  - right. left. split; [assumption|].
    rewrite (Z.mod_small (j - r)) by lia.
    rewrite Z.mod_small by lia. lia.
Qed.

(** Rotating [e_r] by [delta = (j - r) mod n] to the right gives [e_j]. *)
Lemma rotate_one_hot n (j r : nat) :
  (j < n)%nat → (r < n)%nat →
  rotate_left (rotation_mid n (Z.of_nat j) (Z.of_nat r)) (one_hot n r)
  = one_hot n j.
Proof.
  intros Hj Hr.
  assert (Hmid : (rotation_mid n (Z.of_nat j) (Z.of_nat r) < n)%nat
                 ∧ ((rotation_mid n (Z.of_nat j) (Z.of_nat r) + j) mod n = r)%nat).
  { destruct (rotation_mid_cases n (Z.of_nat j) (Z.of_nat r))
      as [[E ->] | [[E ->] | [E ->]]]; try lia.
    - split; [lia|]. rewrite Nat.add_0_l, Nat.mod_small by lia. lia.
    - split; [lia|].
      replace (n - Z.to_nat (Z.of_nat j - Z.of_nat r) + j)%nat
        with (r + 1 * n)%nat by lia.
      rewrite Nat.Div0.mod_add. apply Nat.mod_small. lia.
    - split; [lia|].
      replace (Z.to_nat (Z.of_nat r - Z.of_nat j) + j)%nat with r by lia.
      apply Nat.mod_small. lia. }
  destruct Hmid as [Hlt Hmod].
  set (mid := rotation_mid n (Z.of_nat j) (Z.of_nat r)) in *.
  assert (Hsum : (mid + j = r ∨ mid + j = r + n)%nat).
  { destruct (decide (mid + j < n)%nat).
    - left. rewrite Nat.mod_small in Hmod by lia. lia.
    - right.
      assert ((mid + j) mod n = mid + j - n)%nat.
      { replace (mid + j)%nat with ((mid + j - n) + 1 * n)%nat at 1 by lia.
        rewrite Nat.Div0.mod_add. apply Nat.mod_small. lia. }
      lia. }
  clear Hmod.
  apply list_eq. intros i.
  destruct (decide (i < n)%nat) as [Hi|Hi].
  - rewrite (one_hot_lookup n j i Hi). unfold rotate_left.
    destruct (decide (i < n - mid)%nat) as [Hlo|Hhi].
    + rewrite lookup_app_l by (rewrite length_drop, one_hot_length; lia).
      rewrite lookup_drop, one_hot_lookup by lia. f_equal.
      destruct (decide ((mid + i)%nat = r)), (decide (i = j));
        try reflexivity; exfalso; lia.
    + rewrite lookup_app_r by (rewrite length_drop, one_hot_length; lia).
      rewrite length_drop, one_hot_length.
      rewrite lookup_take_lt by lia.
      rewrite one_hot_lookup by lia. f_equal.
      destruct (decide ((i - (n - mid))%nat = r)), (decide (i = j));
        try reflexivity; exfalso; lia.
  - rewrite !lookup_ge_None_2; [reflexivity | |].
    + rewrite one_hot_length. lia.
    + rewrite rotate_left_length, one_hot_length. lia.
Qed.

(** ** The oblivious lookup *)

Lemma runs_bind_mret {A B} (p0 p1 : proc link A) (f0 f1 : A → B)
    a0 a1 r0 r1 :
  runs p0 p1 a0 a1 r0 r1 →
  runs (x ← p0; mret (f0 x)) (x ← p1; mret (f1 x)) a0 a1 (f0 r0) (f1 r1).
Proof.
  intros H. rewrite <- (app_nil_r a0), <- (app_nil_r a1).
  eapply runs_bind; [exact H | apply runs_ret].
Qed.

Lemma runs_bind_lift {A B} (o0 o1 : option A) (x0 x1 : A)
    (k0 k1 : A → proc link B) h0 h1 r0 r1 :
  o0 = Some x0 → o1 = Some x1 →
  runs (k0 x0) (k1 x1) h0 h1 r0 r1 →
  runs (lift o0 ≫= k0) (lift o1 ≫= k1) h0 h1 r0 r1.
Proof. intros -> ->. exact id. Qed.

Section Lookup.

Variables (n k : nat) (V0 V1 : list (list Z)).
Hypothesis HV0 : has_dims V0 n k.
Hypothesis HV1 : has_dims V1 n k.

Lemma retrieve_loop_runs sel0 sel1 mats :
  length sel0 = n → length sel1 = n →
  ∀ f, (f + length mats <= k)%nat → Forall (dm_wf n) mats →
  runs (retrieve_loop 0 V0 sel0 n f (length mats))
       (retrieve_loop 1 V1 sel1 n f (length mats))
       (concat (map dm_frames0 mats)) (concat (map dm_frames1 mats))
       (retrieve_outs0 V0 V1 sel0 sel1 f mats)
       (retrieve_outs1 V0 V1 sel0 sel1 f mats).
Proof.
  intros Hs0 Hs1.
  induction mats as [|m mats IH]; intros f Hf Hwf;
    cbn [retrieve_loop length map concat retrieve_outs0 retrieve_outs1].
  - apply runs_ret.
  - apply Forall_cons in Hwf as [Hm Hwf']. cbn [length] in Hf.
    eapply runs_bind_lift;
      [eapply matrix_column_Some; [exact HV0 | lia]
      |eapply matrix_column_Some; [exact HV1 | lia] |].
    eapply runs_bind.
    + apply (inner_product_runs n); try assumption;
        rewrite column_length; (apply HV0 || apply HV1).
    + apply (runs_bind_mret _ _ (λ rest, _ :: rest) (λ rest, _ :: rest)).
      apply IH; [lia | assumption].
Qed.

Variables (j0 j1 a0 a1 j r : Z) (R0 R1 : list Z) (mats : list dot_material).
Hypothesis Hn : Z.of_nat n < 2 ^ 32.
Hypothesis Hk : Z.of_nat k < 2 ^ 32.
Hypothesis Hj : 0 <= j < Z.of_nat n.
Hypothesis Hr : 0 <= r < Z.of_nat n.
Hypothesis Hj01 : add64 j0 j1 = j.
Hypothesis Ha01 : add64 a0 a1 = r.
Hypothesis HR0 : length R0 = n.
Hypothesis HR1 : length R1 = n.
Hypothesis Hmats : length mats = k.
Hypothesis Hwf : Forall (dm_wf n) mats.

Lemma rotation_delta_bound : 0 <= rotation_delta n j r < Z.of_nat n.
Proof. unfold rotation_delta. apply Z.mod_pos_bound. lia. Qed.

Lemma retrieve_rotation :
  total_rotation_of (j - r) (Z.of_nat n) = Some (rotation_delta n j r).
Proof. apply total_rotation_of_spec; lia. Qed.

Lemma retrieve_mid :
  (if Z.of_nat n =? 0 then None
   else Some (to_u64 (Z.of_nat n - rotation_delta n j r) mod Z.of_nat n))
  = Some (Z.of_nat (rotation_mid n j r)).
Proof.
  pose proof rotation_delta_bound as Hd.
  assert ((Z.of_nat n =? 0) = false) as -> by (apply Z.eqb_neq; lia).
  rewrite to_u64_small by lia.
  unfold rotation_mid. rewrite Z2Nat.id; [reflexivity|].
  apply Z.mod_pos_bound. lia.
Qed.

Lemma retrieve_runs :
  let sel0 := rotate_left (rotation_mid n j r) R0 in
  let sel1 := rotate_left (rotation_mid n j r) R1 in
  runs (retrieve_item_profile_shares 0 j0 V0)
       (retrieve_item_profile_shares 1 j1 V1)
       ([a0] ++ frames R0 ++ concat (map dm_frames0 mats))
       ([a1] ++ frames R1 ++ concat (map dm_frames1 mats))
       (retrieve_outs0 V0 V1 sel0 sel1 0 mats)
       (retrieve_outs1 V0 V1 sel0 sel1 0 mats).
Proof.
  intros sel0 sel1.
  destruct HV0 as [HV0l HV0r], HV1 as [HV1l HV1r].
  destruct (lookup_lt_is_Some_2 V0 0) as [row0 Hrow0]; [lia|].
  destruct (lookup_lt_is_Some_2 V1 0) as [row1 Hrow1]; [lia|].
  pose proof (has_dims_lookup _ _ _ _ _ HV0 Hrow0) as Hl0.
  pose proof (has_dims_lookup _ _ _ _ _ HV1 Hrow1) as Hl1.
  pose proof (combined_offset_spec j0 j1 a0 a1 j r (Z.of_nat n)
                Hj01 Ha01 Hj Hr Hn) as Hc0.
  assert (Hc1 : add64 (sub64 j1 a1) (sub64 j0 a0) = j - r)
    by (rewrite add64_comm; exact Hc0).
  pose proof retrieve_rotation as Hrot.
  pose proof retrieve_mid as Hmid.
  unfold runs, retrieve_item_profile_shares, rotation_exchange.
  rewrite HV0l, HV1l, (to_u32_small (Z.of_nat n)) by lia.
  run0. run1.
  { rewrite Hc1. exact Hrot. }
  { rewrite HR1. exact Hmid. }
  run0.
  { rewrite Hc0. exact Hrot. }
  { rewrite HR0. exact Hmid. }
  rewrite Hl0, Hl1, (to_u32_small (Z.of_nat k)), !Nat2Z.id by lia.
  rewrite <- Hmats.
  apply retrieve_loop_runs;
    [unfold sel0; now rewrite rotate_left_length
    |unfold sel1; now rewrite rotate_left_length
    |lia | assumption].
Qed.

End Lookup.

Section LookupSum.

Variables (n k : nat) (V0 V1 : list (list Z)).
Hypothesis HV0 : has_dims V0 n k.
Hypothesis HV1 : has_dims V1 n k.
Variables (sel0 sel1 : list Z) (jn : nat) (row : list Z).
Hypothesis Hs0 : length sel0 = n.
Hypothesis Hs1 : length sel1 = n.
Hypothesis Hsel : vec_sum sel0 sel1 = one_hot n jn.
Hypothesis Hrow : mat_sum V0 V1 !! jn = Some row.

Lemma row_entry_wrapped f x : row !! f = Some x → to_i64 x = x.
Proof.
  intros Hx. unfold mat_sum in Hrow.
  apply lookup_zip_with_Some in Hrow as (a & b & -> & _ & _).
  unfold vec_sum in Hx.
  apply lookup_zip_with_Some in Hx as (u & v & -> & _ & _).
  apply to_i64_idem.
Qed.

Lemma retrieve_entry_sum f m x :
  (f < k)%nat → dm_wf n m → row !! f = Some x →
  add64 (dot_out0 (column V0 f) sel0 (column V1 f) sel1 m)
        (dot_out1 (column V0 f) sel0 (column V1 f) sel1 m) = x.
Proof.
  intros Hf Hm Hx.
  rewrite (inner_product_sum n); try assumption;
    try (rewrite column_length; (apply HV0 || apply HV1)).
  rewrite Hsel, <- (column_mat_sum V0 V1 n k) by assumption.
  unfold dot64.
  rewrite (dotZ_one_hot _ n jn x).
  - exact (row_entry_wrapped f x Hx).
  - rewrite column_length. apply (mat_sum_dims _ _ n k); assumption.
  - unfold column. rewrite list_lookup_fmap, Hrow. simpl. now rewrite Hx.
Qed.

Lemma retrieve_outs_sum mats : ∀ f,
  (f + length mats <= k)%nat → Forall (dm_wf n) mats →
  vec_sum (retrieve_outs0 V0 V1 sel0 sel1 f mats)
          (retrieve_outs1 V0 V1 sel0 sel1 f mats)
  = take (length mats) (drop f row).
Proof.
  assert (Hlen : length row = k).
  { apply (has_dims_lookup (mat_sum V0 V1) n k jn); [|exact Hrow].
    apply mat_sum_dims; assumption. }
  induction mats as [|m mats IH]; intros f Hf Hwf;
    cbn [retrieve_outs0 retrieve_outs1 length take] in *; [reflexivity|].
  apply Forall_cons in Hwf as [Hm Hwf'].
  destruct (lookup_lt_is_Some_2 row f) as [x Hx]; [lia|].
  rewrite (drop_S _ _ _ Hx). cbn [take].
  unfold vec_sum at 1. cbn [zip_with].
  rewrite (retrieve_entry_sum f m x) by (assumption || lia).
  f_equal. apply IH; [lia | assumption].
Qed.

Lemma retrieve_outs_length0 mats f :
  length (retrieve_outs0 V0 V1 sel0 sel1 f mats) = length mats.
Proof. revert f. induction mats; intros f; simpl; auto. Qed.

Lemma retrieve_outs_length1 mats f :
  length (retrieve_outs1 V0 V1 sel0 sel1 f mats) = length mats.
Proof. revert f. induction mats; intros f; simpl; auto. Qed.

End LookupSum.

(** The shares of the two servers hold [e_j] after the rotation. *)
Lemma selector_sum n j r R0 R1 :
  0 <= j < Z.of_nat n → 0 <= r < Z.of_nat n →
  length R0 = n → length R1 = n →
  vec_sum R0 R1 = one_hot n (Z.to_nat r) →
  vec_sum (rotate_left (rotation_mid n j r) R0)
          (rotate_left (rotation_mid n j r) R1) = one_hot n (Z.to_nat j).
Proof.
  intros Hj Hr HR0 HR1 Hsum.
  rewrite rotate_left_vec_sum by congruence. rewrite Hsum.
  rewrite <- (Z2Nat.id j), <- (Z2Nat.id r) at 1 by lia.
  apply rotate_one_hot; lia.
Qed.

(** ** Matrices, entry by entry *)

Lemma entry_lookup M t c row x :
  M !! t = Some row → row !! c = Some x → entry M t c = x.
Proof. intros H1 H2. unfold entry. rewrite H1. simpl. now rewrite H2. Qed.

Lemma has_dims_entry M rows cols t c :
  has_dims M rows cols → (t < rows)%nat → (c < cols)%nat →
  ∃ row, M !! t = Some row ∧ length row = cols
         ∧ row !! c = Some (entry M t c).
Proof.
  intros HM Ht Hc.
  destruct (lookup_lt_is_Some_2 M t) as [row Hrow]; [destruct HM; lia|].
  pose proof (has_dims_lookup _ _ _ _ _ HM Hrow) as Hl.
  destruct (lookup_lt_is_Some_2 row c) as [x Hx]; [lia|].
  exists row. split; [assumption|]. split; [assumption|].
  now rewrite (entry_lookup _ _ _ _ _ Hrow Hx).
Qed.

Lemma mat_eq A B rows cols :
  has_dims A rows cols → has_dims B rows cols →
  (∀ t c, (t < rows)%nat → (c < cols)%nat → entry A t c = entry B t c) →
  A = B.
Proof.
  intros HA HB H. apply list_eq. intros t.
  destruct (decide (t < rows)%nat) as [Ht|Ht].
  - destruct (lookup_lt_is_Some_2 A t) as [a Ha]; [destruct HA; lia|].
    destruct (lookup_lt_is_Some_2 B t) as [b Hb]; [destruct HB; lia|].
    rewrite Ha, Hb. f_equal. apply list_eq. intros c.
    pose proof (has_dims_lookup _ _ _ _ _ HA Ha) as Hla.
    pose proof (has_dims_lookup _ _ _ _ _ HB Hb) as Hlb.
    destruct (decide (c < cols)%nat) as [Hc|Hc].
    + destruct (lookup_lt_is_Some_2 a c) as [x Hx]; [lia|].
      destruct (lookup_lt_is_Some_2 b c) as [y Hy]; [lia|].
      rewrite Hx, Hy. f_equal.
      rewrite <- (entry_lookup _ _ _ _ _ Ha Hx), <- (entry_lookup _ _ _ _ _ Hb Hy).
      now apply H.
    + rewrite !lookup_ge_None_2 by lia. reflexivity.
  - destruct HA, HB. rewrite !lookup_ge_None_2 by lia. reflexivity.
Qed.

Lemma entry_mat_sum A B rows cols t c :
  has_dims A rows cols → has_dims B rows cols →
  (t < rows)%nat → (c < cols)%nat →
  entry (mat_sum A B) t c = add64 (entry A t c) (entry B t c).
Proof.
  intros HA HB Ht Hc.
  destruct (has_dims_entry _ _ _ t c HA Ht Hc) as (a & Ha & _ & Hac).
  destruct (has_dims_entry _ _ _ t c HB Ht Hc) as (b & Hb & _ & Hbc).
  apply (entry_lookup _ _ _ (vec_sum a b)).
  - now apply mat_sum_lookup.
  - unfold vec_sum. rewrite lookup_zip_with, Hac, Hbc. reflexivity.
Qed.

Lemma add_column_dims M rows cols f d :
  has_dims M rows cols → length d = rows →
  has_dims (add_column M f d) rows cols.
Proof.
  intros [H1 H2] Hd. split.
  - unfold add_column. rewrite length_zip_with. lia.
  - apply Forall_lookup. intros t row Ht.
    unfold add_column in Ht.
    apply lookup_zip_with_Some in Ht as (a & e & -> & Ha & _).
    rewrite length_insert. rewrite Forall_lookup in H2. eauto.
Qed.

Lemma entry_add_column M rows cols f d t c :
  has_dims M rows cols → length d = rows →
  (t < rows)%nat → (c < cols)%nat → (f < cols)%nat →
  entry (add_column M f d) t c
  = if decide (c = f) then add64 (entry M t f) (default 0 (d !! t))
    else entry M t c.
Proof.
  intros HM Hd Ht Hc Hf.
  destruct (has_dims_entry _ _ _ t c HM Ht Hc) as (row & Hrow & Hl & Hrc).
  destruct (lookup_lt_is_Some_2 d t) as [e He]; [lia|].
  assert (Hnew : add_column M f d !! t
                 = Some (<[f := add64 (default 0 (row !! f)) e]> row)).
  { unfold add_column. rewrite lookup_zip_with, Hrow, He. reflexivity. }
  destruct (decide (c = f)) as [->|Hne].
  - assert (Hins : <[f := add64 (default 0 (row !! f)) e]> row !! f
                   = Some (add64 (default 0 (row !! f)) e))
      by (apply list_lookup_insert_eq; lia).
    rewrite (entry_lookup _ _ _ _ _ Hnew Hins).
    rewrite He, Hrc. reflexivity.
  - apply (entry_lookup _ _ _ _ _ Hnew).
    rewrite list_lookup_insert_ne by congruence. exact Hrc.
Qed.

(** The row loop of the item update adds the evaluated column. *)
Lemma add_column_loop_spec f d rows cols todo : ∀ M i,
  has_dims M rows cols → length d = rows → (f < cols)%nat →
  (i + todo <= rows)%nat →
  ∃ M', add_column_loop M f d i todo = Some M'
        ∧ has_dims M' rows cols
        ∧ ∀ t, M' !! t =
               if decide (i <= t < i + todo)%nat
               then add_column M f d !! t
               else M !! t.
Proof.
  induction todo as [|todo IH]; intros M i HM Hd Hf Hi; cbn [add_column_loop].
  - exists M. split; [reflexivity|]. split; [assumption|].
    intros t. destruct (decide _); [lia | reflexivity].
  - destruct (has_dims_entry _ _ _ i f HM ltac:(lia) Hf) as (row & Hrow & Hl & Hx).
    destruct (lookup_lt_is_Some_2 d i) as [e He]; [lia|].
    rewrite Hrow. cbn [mbind option_bind]. rewrite Hx. cbn [mbind option_bind].
    rewrite He. cbn [mbind option_bind].
    set (M1 := <[i := <[f := add64 (entry M i f) e]> row]> M).
    assert (HM1 : has_dims M1 rows cols).
    { destruct HM as [H1 H2]. split.
      - unfold M1. now rewrite length_insert.
      - unfold M1. apply Forall_insert; [assumption|].
        now rewrite length_insert. }
    destruct (IH M1 (S i) HM1 Hd Hf ltac:(lia)) as (M' & E & HM' & Hlook).
    exists M'. split; [exact E|]. split; [exact HM'|].
    intros t. rewrite Hlook.
    assert (Hcol : ∀ u, u ≠ i → add_column M1 f d !! u = add_column M f d !! u).
    { intros u Hu. unfold add_column, M1.
      rewrite !lookup_zip_with, list_lookup_insert_ne by congruence.
      reflexivity. }
    destruct (decide (S i <= t < S i + todo)%nat),
             (decide (i <= t < i + S todo)%nat); try lia.
    + apply Hcol. lia.
    + assert (t = i) as -> by lia.
      unfold M1. rewrite list_lookup_insert_eq by (destruct HM; lia).
      unfold add_column. rewrite lookup_zip_with, Hrow, He. cbn.
      now rewrite Hx.
    + unfold M1. rewrite list_lookup_insert_ne by lia. reflexivity.
Qed.

Lemma add_column_loop_Some M rows cols f d :
  has_dims M rows cols → length d = rows → (f < cols)%nat →
  add_column_loop M f d 0 rows = Some (add_column M f d).
Proof.
  intros HM Hd Hf.
  destruct (add_column_loop_spec f d rows cols rows M 0 HM Hd Hf ltac:(lia))
    as (M' & E & HM' & Hlook).
  rewrite E. f_equal. apply list_eq. intros t. rewrite Hlook.
  destruct (decide _) as [|Hout]; [reflexivity|].
  destruct HM as [H1 _].
  rewrite !lookup_ge_None_2; [reflexivity | | lia].
  unfold add_column. rewrite length_zip_with. lia.
Qed.

(** ** The item update *)

Lemma point_vector_lookup (nn : nat) j v t :
  (t < nn)%nat →
  point_vector nn j v !! t = Some (if Z.of_nat t =? j then v else 0).
Proof.
  intros Ht. unfold point_vector.
  rewrite list_lookup_fmap, lookup_seq_lt by lia. reflexivity.
Qed.

Section Repair.

Variable prg : Z → ChildSeed.

Lemma EvalFull_Some key (n : nat) :
  (∀ t, (t < n)%nat → is_Some (evalDPF prg key (Z.of_nat t) (Z.of_nat n))) →
  EvalFull prg key (Z.of_nat n)
  = Some (map (λ t : nat, default 0 (evalDPF prg key (Z.of_nat t) (Z.of_nat n)))
              (seq 0 n)).
Proof.
  intros H. unfold EvalFull. rewrite Nat2Z.id.
  set (l := map _ (seq 0 n)).
  replace n with (length l) at 1 by (unfold l; now rewrite length_map, length_seq).
  apply mapM_seq_Some. intros i x Hx. unfold l in Hx.
  rewrite list_lookup_fmap in Hx.
  destruct (seq 0 n !! i) as [t|] eqn:Ht; [|discriminate].
  apply lookup_seq in Ht as [-> Hlt]. simpl in Hx. injection Hx as <-.
  destruct (H i Hlt) as [a Ha]. now rewrite Ha.
Qed.

(** Full-domain evaluation of a generated pair whose keys carry the same
    final word [F]: the sum is a point vector at the generation index. *)
Lemma EvalFull_pair j v (n : nat) rs0 rs1 rR F :
  0 <= j < Z.of_nat n →
  ∃ l0 l1,
    EvalFull prg (with_FCW (generateDPF prg j v (Z.of_nat n) rs0 rs1 rR).1 F)
             (Z.of_nat n) = Some l0
    ∧ EvalFull prg (with_FCW (generateDPF prg j v (Z.of_nat n) rs0 rs1 rR).2 F)
               (Z.of_nat n) = Some l1
    ∧ length l0 = n ∧ length l1 = n
    ∧ vec_sum l0 l1
      = point_vector n j
          (to_i64 (F + FCW (generateDPF prg j v (Z.of_nat n) rs0 rs1 rR).1
                     + FCW (generateDPF prg j v (Z.of_nat n) rs0 rs1 rR).2 - v)).
Proof.
  intros Hj.
  set (keys := generateDPF prg j v (Z.of_nat n) rs0 rs1 rR).
  assert (Hpair : ∀ t, (t < n)%nat → ∃ a b,
    evalDPF prg (with_FCW keys.1 F) (Z.of_nat t) (Z.of_nat n) = Some a
    ∧ evalDPF prg (with_FCW keys.2 F) (Z.of_nat t) (Z.of_nat n) = Some b
    ∧ add64 a b = if Z.of_nat t =? j
                  then to_i64 (F + FCW keys.1 + FCW keys.2 - v) else 0).
  { intros t Ht. apply evalDPF_pair; lia. }
  eexists. eexists.
  split; [apply EvalFull_Some; intros t Ht;
          destruct (Hpair t Ht) as (a & b & Ea & Eb & _); rewrite Ea; eauto|].
  split; [apply EvalFull_Some; intros t Ht;
          destruct (Hpair t Ht) as (a & b & Ea & Eb & _); rewrite Eb; eauto|].
  split; [now rewrite length_map, length_seq|].
  split; [now rewrite length_map, length_seq|].
  unfold vec_sum, point_vector. apply list_eq. intros i.
  rewrite lookup_zip_with, !list_lookup_fmap.
  destruct (seq 0 n !! i) as [t|] eqn:Hi; [|reflexivity].
  apply lookup_seq in Hi as [-> Hlt].
  cbn [mbind option_bind fmap option_fmap option_map Nat.add].
  destruct (Hpair i Hlt) as (a & b & Ea & Eb & Hab).
  rewrite Ea, Eb. cbn [default]. unfold id. now rewrite Hab.
Qed.

Variables (n k : nat) (jn : nat) (key0 key1 : DPFKey) (M0 M1 : list Z).
Hypothesis HM0 : length M0 = k.
Hypothesis HM1 : length M1 = k.

(** What the item update needs from the key pair. *)
Hypothesis Hkeys : ∀ F,
  ∃ l0 l1,
    EvalFull prg (with_FCW key0 F) (Z.of_nat n) = Some l0
    ∧ EvalFull prg (with_FCW key1 F) (Z.of_nat n) = Some l1
    ∧ length l0 = n ∧ length l1 = n
    ∧ vec_sum l0 l1
      = point_vector n (Z.of_nat jn) (to_i64 (F + FCW key0 + FCW key1)).

Lemma repair_loop_runs todo : ∀ f V0 V1,
  has_dims V0 n k → has_dims V1 n k → (f + todo <= k)%nat →
  ∃ V0' V1',
    runs (repair_loop prg 0 key0 M0 n V0 f todo)
         (repair_loop prg 1 key1 M1 n V1 f todo) [] [] V0' V1'
    ∧ has_dims V0' n k ∧ has_dims V1' n k
    ∧ ∀ t c, (t < n)%nat → (c < k)%nat →
        add64 (entry V0' t c) (entry V1' t c)
        = if decide (t = jn ∧ f <= c < f + todo)%nat
          then add64 (add64 (entry V0 t c) (entry V1 t c))
                     (add64 (default 0 (M0 !! c)) (default 0 (M1 !! c)))
          else add64 (entry V0 t c) (entry V1 t c).
Proof.
  induction todo as [|todo IH]; intros f V0 V1 HV0 HV1 Hf.
  - exists V0, V1. split; [apply runs_ret|]. split; [assumption|].
    split; [assumption|]. intros t c Ht Hc.
    destruct (decide _); [lia | reflexivity].
  - destruct (lookup_lt_is_Some_2 M0 f) as [x0 Hx0]; [lia|].
    destruct (lookup_lt_is_Some_2 M1 f) as [x1 Hx1]; [lia|].
    set (F := add64 (sub64 x0 (FCW key0)) (sub64 x1 (FCW key1))).
    destruct (Hkeys F) as (l0 & l1 & E0 & E1 & Hl0 & Hl1 & Hsum).
    assert (E1' : EvalFull prg
              (with_FCW key1 (add64 (sub64 x1 (FCW key1)) (sub64 x0 (FCW key0))))
              (Z.of_nat n) = Some l1)
      by (rewrite add64_comm; exact E1).
    pose proof (add_column_loop_Some V0 n k f l0 HV0 Hl0 ltac:(lia)) as A0.
    pose proof (add_column_loop_Some V1 n k f l1 HV1 Hl1 ltac:(lia)) as A1.
    pose proof (add_column_dims V0 n k f l0 HV0 Hl0) as D0.
    pose proof (add_column_dims V1 n k f l1 HV1 Hl1) as D1.
    destruct (IH (S f) _ _ D0 D1 ltac:(lia))
      as (V0' & V1' & Hruns & HD0 & HD1 & Hent).
    exists V0', V1'. split; [|split; [assumption|split; [assumption|]]].
    + unfold runs in *. cbn [repair_loop]. unfold repair_exchange.
      run0. run1. run0. run1.
      exact Hruns.
    + intros t c Ht Hc. rewrite (Hent t c Ht Hc).
      rewrite !(entry_add_column _ n k) by (assumption || lia).
      destruct (lookup_lt_is_Some_2 l0 t) as [e0 He0]; [lia|].
      destruct (lookup_lt_is_Some_2 l1 t) as [e1 He1]; [lia|].
      rewrite He0, He1. cbn [default].
      assert (Hee : add64 e0 e1
                    = if Z.of_nat t =? Z.of_nat jn
                      then to_i64 (F + FCW key0 + FCW key1) else 0).
      { pose proof (point_vector_lookup n (Z.of_nat jn)
                      (to_i64 (F + FCW key0 + FCW key1)) t Ht) as Hp.
        rewrite <- Hsum in Hp. unfold vec_sum in Hp.
        rewrite lookup_zip_with, He0, He1 in Hp. simpl in Hp.
        now injection Hp. }
      destruct (decide (c = f)) as [->|Hcf].
      * rewrite Hx0, Hx1. cbn [default].
        destruct (decide (t = jn ∧ S f <= f < S f + todo)%nat); [lia|].
        destruct (decide (t = jn ∧ f <= f < f + S todo)%nat) as [[-> _]|Hno].
        -- rewrite Z.eqb_refl in Hee. apply eqm64_to_i64 in Hee.
           unfold F in Hee. erase_wrap_in Hee.
           unfold id. apply to_i64_proper. erase_wrap.
           transitivity (entry V0 jn f + entry V1 jn f + (e0 + e1));
             [apply eqm64_eq; ring|].
           rewrite Hee. apply eqm64_eq. ring.
        -- assert (Hne : (Z.of_nat t =? Z.of_nat jn) = false)
             by (apply Z.eqb_neq; lia).
           rewrite Hne in Hee. change 0 with (to_i64 0) in Hee.
           apply eqm64_to_i64 in Hee.
           unfold id. apply to_i64_proper. erase_wrap.
           transitivity (entry V0 t f + entry V1 t f + (e0 + e1));
             [apply eqm64_eq; ring|].
           rewrite Hee. apply eqm64_eq. ring.
      * destruct (decide (t = jn ∧ S f <= c < S f + todo)%nat),
                 (decide (t = jn ∧ f <= c < f + S todo)%nat);
          try lia; reflexivity.
Qed.

End Repair.

(** ** The helper *)

Section Helper.

Variable ent : entropy.

Lemma helper_run_bind {A B} (p : proc hport A) (k : A → proc hport B) :
  ∀ st, helper_run ent (p ≫= k) st
        = '(a, st') ← helper_run ent p st; helper_run ent (k a) st'.
Proof.
  induction p as [a | l v p IH | l p IH |]; intros st.
  - reflexivity.
  - destruct l; cbn; apply IH.
  - destruct l; cbn; try reflexivity; apply IH.
  - reflexivity.
Qed.

Lemma emits_ret {A} (a : A) st : emits ent (Ret a) st a st [] [].
Proof. unfold emits. cbn. now rewrite !app_nil_r. Qed.

Lemma emits_bind {A B} (p : proc hport A) (k : A → proc hport B)
    st a st1 o0 o1 b st2 o0' o1' :
  emits ent p st a st1 o0 o1 →
  emits ent (k a) st1 b st2 o0' o1' →
  emits ent (p ≫= k) st b st2 (o0 ++ o0') (o1 ++ o1').
Proof.
  intros (E1 & A0 & A1) (E2 & B0 & B1). unfold emits.
  rewrite helper_run_bind, E1. cbn. rewrite E2.
  split; [reflexivity|]. rewrite B0, B1, A0, A1, !app_assoc. auto.
Qed.

Lemma emits_lift {A B} (o : option A) (a : A) (k : A → proc hport B)
    st b st' o0 o1 :
  o = Some a → emits ent (k a) st b st' o0 o1 →
  emits ent (lift o ≫= k) st b st' o0 o1.
Proof. intros ->. exact id. Qed.

Lemma emits_out {A} (p : proc hport A) st a st' o0 o1 o0' o1' :
  emits ent p st a st' o0 o1 → o0 = o0' → o1 = o1' →
  emits ent p st a st' o0' o1'.
Proof. now intros H <- <-. Qed.

Lemma emits_send_value0 v st :
  ∃ st', emits ent (send_value socket_p0 v) st () st' [v] [].
Proof. eexists. unfold emits. cbn. split; [reflexivity|]. now rewrite app_nil_r. Qed.

Lemma emits_send_value1 v st :
  ∃ st', emits ent (send_value socket_p1 v) st () st' [] [v].
Proof. eexists. unfold emits. cbn. split; [reflexivity|]. now rewrite app_nil_r. Qed.

Lemma emits_send_words0 vec : ∀ st,
  ∃ st', emits ent (send_words socket_p0 vec) st () st' vec [].
Proof.
  induction vec as [|x vec IH]; intros st.
  - exists st. apply emits_ret.
  - destruct (IH {| h_pos8 := h_pos8 st; h_pos32 := h_pos32 st;
                    h_posu32 := h_posu32 st;
                    h_out0 := h_out0 st ++ [x]; h_out1 := h_out1 st |})
      as (st' & E & A0 & A1).
    exists st'. unfold emits. cbn. rewrite E. cbn in A0, A1.
    split; [reflexivity|]. rewrite A0, A1, <- app_assoc. auto.
Qed.

Lemma emits_send_words1 vec : ∀ st,
  ∃ st', emits ent (send_words socket_p1 vec) st () st' [] vec.
Proof.
  induction vec as [|x vec IH]; intros st.
  - exists st. apply emits_ret.
  - destruct (IH {| h_pos8 := h_pos8 st; h_pos32 := h_pos32 st;
                    h_posu32 := h_posu32 st;
                    h_out0 := h_out0 st; h_out1 := h_out1 st ++ [x] |})
      as (st' & E & A0 & A1).
    exists st'. unfold emits. cbn. rewrite E. cbn in A0, A1.
    split; [reflexivity|]. rewrite A0, A1, <- app_assoc. auto.
Qed.

Lemma emits_send_vector0 vec st :
  ∃ st', emits ent (send_vector socket_p0 vec) st () st' (frames vec) [].
Proof.
  destruct (emits_send_value0 (Z.of_nat (length vec)) st) as (st1 & H1).
  destruct (emits_send_words0 vec st1) as (st2 & H2).
  exists st2. unfold send_vector.
  eapply emits_out; [eapply emits_bind; [exact H1 | exact H2]| |]; reflexivity.
Qed.

Lemma emits_send_vector1 vec st :
  ∃ st', emits ent (send_vector socket_p1 vec) st () st' [] (frames vec).
Proof.
  destruct (emits_send_value1 (Z.of_nat (length vec)) st) as (st1 & H1).
  destruct (emits_send_words1 vec st1) as (st2 & H2).
  exists st2. unfold send_vector.
  eapply emits_out; [eapply emits_bind; [exact H1 | exact H2]| |]; reflexivity.
Qed.

Lemma emits_random_int8 st :
  ∃ x st', emits ent random_int8 st x st' [] [].
Proof.
  do 2 eexists. unfold emits, random_int8. cbn.
  split; [reflexivity|]. now rewrite !app_nil_r.
Qed.

Lemma emits_random_int32 st :
  ∃ x st', emits ent random_int32 st x st' [] [].
Proof.
  do 2 eexists. unfold emits, random_int32. cbn.
  split; [reflexivity|]. now rewrite !app_nil_r.
Qed.

Lemma emits_random_uint32 st :
  ∃ x st', emits ent random_uint32 st x st' [] [] ∧ 0 <= x < 2 ^ 32.
Proof.
  do 2 eexists. unfold emits, random_uint32. cbn.
  split; [split; [reflexivity|]; now rewrite !app_nil_r|].
  apply to_u32_range.
Qed.


(** [step H] uses the run [H] of the first process of a sequence. *)
Ltac step H := eapply emits_bind; [exact H | cbn beta iota].
Ltac step_lift := eapply emits_lift; [lift_ok | cbn beta iota].
Ltac done_emits :=
  first [ exact (emits_ret _ _ _) | eassumption ].
Ltac out_eq := cbn [app]; rewrite ?app_nil_r, <- ?app_assoc; reflexivity.

Lemma emits_dot_draw_loop L : ∀ st,
  ∃ X0 Y0 X1 Y1 st',
    emits ent (dot_draw_loop L) st (X0, Y0, X1, Y1) st' [] []
    ∧ length X0 = L ∧ length Y0 = L ∧ length X1 = L ∧ length Y1 = L.
Proof.
  induction L as [|L IH]; intros st.
  - exists [], [], [], [], st. split; [apply emits_ret | auto].
  - destruct (emits_random_int8 st) as (x0 & st1 & H1).
    destruct (emits_random_int8 st1) as (y0 & st2 & H2).
    destruct (emits_random_int8 st2) as (x1 & st3 & H3).
    destruct (emits_random_int8 st3) as (y1 & st4 & H4).
    destruct (IH st4) as (X0 & Y0 & X1 & Y1 & st5 & H5 & L1 & L2 & L3 & L4).
    exists (x0 :: X0), (y0 :: Y0), (x1 :: X1), (y1 :: Y1), st5.
    split; [|cbn [length]; auto].
    cbn [dot_draw_loop].
    eapply emits_out.
    + step H1. step H2. step H3. step H4. step H5. apply emits_ret.
    + reflexivity.
    + reflexivity.
Qed.

Lemma emits_dot_material L st :
  ∃ m st',
    emits ent (generate_dot_product_material L) st () st'
          (dm_frames0 m) (dm_frames1 m)
    ∧ dm_wf L m.
Proof.
  destruct (emits_dot_draw_loop L st)
    as (X0 & Y0 & X1 & Y1 & st1 & H1 & L1 & L2 & L3 & L4).
  destruct (emits_random_int8 st1) as (R & st2 & H2).
  destruct (emits_send_vector0 X0 st2) as (st3 & H3).
  destruct (emits_send_vector0 Y0 st3) as (st4 & H4).
  destruct (emits_send_value0 (add64 (dot64 X0 Y1) R) st4) as (st5 & H5).
  destruct (emits_send_vector1 X1 st5) as (st6 & H6).
  destruct (emits_send_vector1 Y1 st6) as (st7 & H7).
  destruct (emits_send_value1 (sub64 (dot64 X1 Y0) R) st7) as (st8 & H8).
  exists (mkDot X0 Y0 X1 Y1 R), st8.
  split; [|repeat split; assumption].
  unfold generate_dot_product_material.
  eapply emits_out.
  - step H1. step H2. step H3. step H4. step_lift. step H5.
    step H6. step H7. step_lift.
    rewrite <- (app_nil_r [sub64 _ _]) in H8.
    rewrite <- (app_nil_r []) in H8 at 1. exact H8.
  - unfold dm_frames0, dm_C0. cbn [dm_X0 dm_Y0 dm_X1 dm_Y1 dm_R]. out_eq.
  - unfold dm_frames1, dm_C1. cbn [dm_X0 dm_Y0 dm_X1 dm_Y1 dm_R]. out_eq.
Qed.


Lemma emits_scalar_draw_loop L : ∀ st,
  ∃ Y0 Y1 R st',
    emits ent (scalar_draw_loop L) st (Y0, Y1, R) st' [] []
    ∧ length Y0 = L ∧ length Y1 = L ∧ length R = L.
Proof.
  induction L as [|L IH]; intros st.
  - exists [], [], [], st. split; [apply emits_ret | auto].
  - destruct (emits_random_int8 st) as (y0 & st1 & H1).
    destruct (emits_random_int8 st1) as (y1 & st2 & H2).
    destruct (emits_random_int8 st2) as (r & st3 & H3).
    destruct (IH st3) as (Y0 & Y1 & R & st4 & H4 & L1 & L2 & L3).
    exists (y0 :: Y0), (y1 :: Y1), (r :: R), st4.
    split; [|cbn [length]; auto].
    cbn [scalar_draw_loop].
    eapply emits_out.
    + step H1. step H2. step H3. step H4. apply emits_ret.
    + reflexivity.
    + reflexivity.
Qed.

Lemma emits_scalar_material L st :
  ∃ m st',
    emits ent (generate_scalar_vector_material L) st () st'
          (sm_frames0 m) (sm_frames1 m)
    ∧ sm_wf L m.
Proof.
  destruct (emits_random_int8 st) as (A0 & st1 & H1).
  destruct (emits_random_int8 st1) as (A1 & st2 & H2).
  destruct (emits_scalar_draw_loop L st2)
    as (B0 & B1 & R & st3 & H3 & L1 & L2 & L3).
  set (m := mkScalar A0 A1 B0 B1 R).
  destruct (emits_send_value0 A0 st3) as (st4 & H4).
  destruct (emits_send_vector0 B0 st4) as (st5 & H5).
  destruct (emits_send_vector0 (sm_C0 m) st5) as (st6 & H6).
  destruct (emits_send_value1 A1 st6) as (st7 & H7).
  destruct (emits_send_vector1 B1 st7) as (st8 & H8).
  destruct (emits_send_vector1 (sm_C1 m) st8) as (st9 & H9).
  exists m, st9.
  split; [|repeat split; assumption].
  unfold generate_scalar_vector_material.
  eapply emits_out.
  - step H1. step H2. step H3. step H4. step H5. step_lift. step H6.
    step H7. step H8. step_lift.
    rewrite <- (app_nil_r (frames _)) in H9.
    rewrite <- (app_nil_r []) in H9 at 1. exact H9.
  - unfold sm_frames0. cbn [sm_A0 sm_A1 sm_B0 sm_B1 sm_R m]. out_eq.
  - unfold sm_frames1. cbn [sm_A0 sm_A1 sm_B0 sm_B1 sm_R m]. out_eq.
Qed.

Lemma emits_draw_int8s L : ∀ st,
  ∃ R st', emits ent (draw_int8s L) st R st' [] [] ∧ length R = L.
Proof.
  induction L as [|L IH]; intros st.
  - exists [], st. split; [apply emits_ret | auto].
  - destruct (emits_random_int8 st) as (x & st1 & H1).
    destruct (IH st1) as (R & st2 & H2 & L1).
    exists (x :: R), st2. split; [|cbn [length]; auto].
    cbn [draw_int8s].
    eapply emits_out.
    + step H1. step H2. apply emits_ret.
    + reflexivity.
    + reflexivity.
Qed.

(** The material of the column products of the lookup. *)
Lemma emits_cols n k : ∀ st,
  ∃ mats st',
    emits ent (repeat_proc k (generate_dot_product_material n)) st () st'
          (concat (map dm_frames0 mats)) (concat (map dm_frames1 mats))
    ∧ length mats = k ∧ Forall (dm_wf n) mats.
Proof.
  induction k as [|k IH]; intros st.
  - exists [], st. split; [apply emits_ret | auto].
  - destruct (emits_dot_material n st) as (m & st1 & H1 & Hm).
    destruct (IH st1) as (mats & st2 & H2 & L1 & Hwf).
    exists (m :: mats), st2.
    split; [|split; [cbn [length]; auto | constructor; assumption]].
    cbn [repeat_proc map concat].
    step H1. exact H2.
Qed.


Lemma one_hot_split n r R :
  length R = n →
  vec_sum R (zip_with sub64 (one_hot n r) R) = one_hot n r.
Proof.
  intros HR. apply list_eq. intros i.
  unfold vec_sum. rewrite !lookup_zip_with.
  destruct (decide (i < n)%nat) as [Hi|Hi].
  - destruct (lookup_lt_is_Some_2 R i) as [x Hx]; [lia|].
    rewrite Hx, (one_hot_lookup n r i Hi). cbn. f_equal.
    destruct (decide (i = r)).
    + change 1 with (to_i64 1) at 2. ring64.
    + change 0 with (to_i64 0) at 2. ring64.
  - rewrite (lookup_ge_None_2 R) by lia.
    rewrite (lookup_ge_None_2 (one_hot n r)) by (rewrite one_hot_length; lia).
    reflexivity.
Qed.

Lemma emits_query_material n k st :
  (0 < n)%nat → Z.of_nat n < 2 ^ 32 →
  ∃ q st',
    emits ent (query_material n k) st () st' (qm_frames0 q) (qm_frames1 q)
    ∧ qm_wf n k q.
Proof.
  intros Hn Hn32.
  destruct (emits_random_uint32 st) as (raw & st1 & H1 & Hraw).
  set (idx := Z.rem raw (Z.of_nat n)).
  assert (Hidx : 0 <= idx < Z.of_nat n).
  { unfold idx. rewrite Z.rem_mod_nonneg by lia. apply Z.mod_pos_bound. lia. }
  assert (Hrem : rem64 raw (Z.of_nat n) = Some idx).
  { unfold rem64. assert ((Z.of_nat n =? 0) = false) as ->
      by (apply Z.eqb_neq; lia). reflexivity. }
  destruct (emits_draw_int8s n st1) as (R0 & st2 & H2 & HR0).
  destruct (emits_random_int32 st2) as (a0 & st3 & H3).
  set (R1 := zip_with sub64 (one_hot n (Z.to_nat idx)) R0).
  set (lm := mkLookup a0 (sub64 idx a0) R0 R1).
  destruct (emits_send_value0 a0 st3) as (st4 & H4).
  destruct (emits_send_vector0 R0 st4) as (st5 & H5).
  destruct (emits_send_value1 (sub64 idx a0) st5) as (st6 & H6).
  destruct (emits_send_vector1 R1 st6) as (st7 & H7).
  destruct (emits_cols n k st7) as (cols & st8 & H8 & Hcols & Hwf).
  destruct (emits_dot_material k st8) as (dm & st9 & H9 & Hdm).
  destruct (emits_scalar_material k st9) as (s1 & st10 & H10 & Hs1).
  destruct (emits_scalar_material k st10) as (s2 & st11 & H11 & Hs2).
  exists (mkMaterial lm cols dm s1 s2), st11.
  split.
  - unfold query_material.
    pose proof (one_hot_length n (Z.to_nat idx)) as Hoh.
    eapply emits_out.
    + step H1. eapply emits_lift; [exact Hrem | cbn beta iota].
      step H2.
      eapply emits_lift;
        [apply vec_sub_Some; unfold one_hot in *; lia | cbn beta iota].
      step H3. step H4. step H5. step H6. step H7. step H8. step H9.
      step H10. exact H11.
    + unfold qm_frames0. cbn [qm_lookup qm_cols qm_dot qm_scale qm_update
                              lm_a0 lm_a1 lm_R0 lm_R1 lm]. out_eq.
    + unfold qm_frames1. cbn [qm_lookup qm_cols qm_dot qm_scale qm_update
                              lm_a0 lm_a1 lm_R0 lm_R1 lm]. out_eq.
  - split; [|split; [assumption | split; [assumption | split;
              [assumption | split; assumption]]]].
    exists idx. cbn [qm_lookup lm_a0 lm_a1 lm_R0 lm_R1 lm].
    split; [assumption|]. split.
    { rewrite <- (to_i64_id idx) at 2 by (unfold is_i64; lia). ring64. }
    split; [assumption|]. split.
    { unfold R1. rewrite length_zip_with, one_hot_length. lia. }
    apply one_hot_split. assumption.
Qed.

(** The streams of a session: the material of the queries, one after
    the other. *)
Lemma emits_session n k q : ∀ st,
  (0 < n)%nat → Z.of_nat n < 2 ^ 32 →
  ∃ mats st',
    emits ent (process_query_session n k q) st () st'
          (concat (map qm_frames0 mats)) (concat (map qm_frames1 mats))
    ∧ length mats = q ∧ Forall (qm_wf n k) mats.
Proof.
  unfold process_query_session.
  induction q as [|q IH]; intros st Hn Hn32.
  - exists [], st. split; [apply emits_ret | auto].
  - destruct (emits_query_material n k st Hn Hn32) as (m & st1 & H1 & Hm).
    destruct (IH st1 Hn Hn32) as (mats & st2 & H2 & L1 & Hwf).
    exists (m :: mats), st2.
    split; [|split; [cbn [length]; auto | constructor; assumption]].
    cbn [repeat_proc map concat].
    step H1. exact H2.
Qed.

End Helper.

Lemma helper_streams_spec ent n k q :
  (0 < n)%nat → Z.of_nat n < 2 ^ 32 →
  ∃ mats,
    helper_streams ent n k q
    = Some (concat (map qm_frames0 mats), concat (map qm_frames1 mats))
    ∧ length mats = q ∧ Forall (qm_wf n k) mats.
Proof.
  intros Hn Hn32.
  destruct (emits_session ent n k q hstate_init Hn Hn32)
    as (mats & st' & (E & A0 & A1) & L & Hwf).
  exists mats. split; [|auto].
  unfold helper_streams. rewrite E. cbn. now rewrite A0, A1.
Qed.

(** ** One query *)

Lemma vec_sum_lookup a b l c x y :
  vec_sum a b = l → a !! c = Some x → b !! c = Some y →
  l !! c = Some (add64 x y).
Proof.
  intros <- Ha Hb. unfold vec_sum. rewrite lookup_zip_with, Ha, Hb. reflexivity.
Qed.

(** The new user row: the two servers' rows add up to the cleartext row. *)
Lemma user_row_sum k u0 u1 ip0 ip1 s0 s1 d :
  length u0 = k → length u1 = k → length ip0 = k → length ip1 = k →
  length s0 = k → length s1 = k →
  vec_sum s0 s1 = vec_scalar_mul (vec_sum ip0 ip1) d →
  vec_sum (zip_with sub64 (vec_sum u0 ip0) s0)
          (zip_with sub64 (vec_sum u1 ip1) s1)
  = vec_sum (vec_sum u0 u1)
            (map (λ x, mul64 x (sub64 1 d)) (vec_sum ip0 ip1)).
Proof.
  intros Hu0 Hu1 Hi0 Hi1 Hs0 Hs1 Hs.
  apply list_eq. intros c.
  destruct (decide (c < k)%nat) as [Hc|Hc].
  - destruct (lookup_lt_is_Some_2 u0 c) as [a0 Ha0]; [lia|].
    destruct (lookup_lt_is_Some_2 u1 c) as [a1 Ha1]; [lia|].
    destruct (lookup_lt_is_Some_2 ip0 c) as [b0 Hb0]; [lia|].
    destruct (lookup_lt_is_Some_2 ip1 c) as [b1 Hb1]; [lia|].
    destruct (lookup_lt_is_Some_2 s0 c) as [c0 Hc0]; [lia|].
    destruct (lookup_lt_is_Some_2 s1 c) as [c1 Hc1]; [lia|].
    pose proof (vec_sum_lookup _ _ _ c _ _ Hs Hc0 Hc1) as Hsc.
    unfold vec_scalar_mul, vec_sum in Hsc.
    rewrite list_lookup_fmap, lookup_zip_with, Hb0, Hb1 in Hsc.
    cbn in Hsc. injection Hsc as Hsc.
    unfold vec_sum.
    rewrite !lookup_zip_with, list_lookup_fmap, !lookup_zip_with.
    rewrite Ha0, Ha1, Hb0, Hb1, Hc0, Hc1. cbn. f_equal.
    apply eqm64_to_i64 in Hsc. erase_wrap_in Hsc.
    apply to_i64_proper. erase_wrap.
    transitivity (a0 + a1 + (b0 + b1) - (c0 + c1)); [apply eqm64_eq; ring|].
    rewrite <- Hsc. apply eqm64_eq. ring.
  - unfold vec_sum.
    rewrite !lookup_zip_with, list_lookup_fmap, !lookup_zip_with.
    rewrite (lookup_ge_None_2 u0), (lookup_ge_None_2 u1) by lia. reflexivity.
Qed.

Lemma mat_sum_insert A B i a b :
  mat_sum (<[i := a]> A) (<[i := b]> B) = <[i := vec_sum a b]> (mat_sum A B).
Proof. unfold mat_sum. now rewrite insert_zip_with. Qed.

Lemma has_dims_insert M rows cols i row :
  has_dims M rows cols → length row = cols →
  has_dims (<[i := row]> M) rows cols.
Proof.
  intros [H1 H2] Hl. split.
  - now rewrite length_insert.
  - apply Forall_insert; assumption.
Qed.

Lemma entry_insert M rows cols i row t c :
  has_dims M rows cols → (i < rows)%nat →
  entry (<[i := row]> M) t c
  = if decide (t = i) then default 0 (row !! c) else entry M t c.
Proof.
  intros [H1 _] Hi. unfold entry.
  destruct (decide (t = i)) as [->|Hne].
  - rewrite list_lookup_insert_eq by lia. reflexivity.
  - rewrite list_lookup_insert_ne by congruence. reflexivity.
Qed.

(** The factor of the item update: the two complement shares sum to
    [1 - d]. *)
Lemma complement_sum (u v d0 d1 d : Z) :
  add64 d0 d1 = d →
  add64 v (mul64 u (add64 (sub64 0 d0) (sub64 1 d1)))
  = add64 v (mul64 u (sub64 1 d)).
Proof. intros <-. ring64. Qed.

Section Query.

Variable prg : Z → ChildSeed.
Variables (m n k : nat) (U0 U1 V0 V1 : list (list Z)).
Variables (i j : Z) (q0 q1 : Query) (mat : material).
Hypothesis HU0 : has_dims U0 m k.
Hypothesis HU1 : has_dims U1 m k.
Hypothesis HV0 : has_dims V0 n k.
Hypothesis HV1 : has_dims V1 n k.
Hypothesis Hn : Z.of_nat n < 2 ^ 32.
Hypothesis Hk : Z.of_nat k < 2 ^ 32.
Hypothesis Hi : 0 <= i < Z.of_nat m.
Hypothesis Hj : 0 <= j < Z.of_nat n.
Hypothesis Hq0 : user_index q0 = i.
Hypothesis Hq1 : user_index q1 = i.
Hypothesis Hshares : add64 (item_share q0) (item_share q1) = j.
Hypothesis Hkeys : ∀ F,
  ∃ l0 l1,
    EvalFull prg (with_FCW (dpf_key q0) F) (Z.of_nat n) = Some l0
    ∧ EvalFull prg (with_FCW (dpf_key q1) F) (Z.of_nat n) = Some l1
    ∧ length l0 = n ∧ length l1 = n
    ∧ vec_sum l0 l1
      = point_vector n j (to_i64 (F + FCW (dpf_key q0) + FCW (dpf_key q1))).
Hypothesis Hmat : qm_wf n k mat.

Lemma process_query_runs :
  ∃ U0' V0' U1' V1',
    runs (process_query prg 0 n k (U0, V0) q0)
         (process_query prg 1 n k (U1, V1) q1)
         (qm_frames0 mat) (qm_frames1 mat) (U0', V0') (U1', V1')
    ∧ has_dims U0' m k ∧ has_dims U1' m k
    ∧ has_dims V0' n k ∧ has_dims V1' n k
    ∧ cleartext_update (mat_sum U0 U1, mat_sum V0 V1) (i, j)
      = Some (mat_sum U0' U1', mat_sum V0' V1').
Proof.
  destruct Hmat as ((r & Hr & Ha & HR0 & HR1 & Hoh) & Hcols & Hwf
                    & Hdm & Hsc & Hup).
  set (lm := qm_lookup mat) in *.
  set (inn := Z.to_nat i). set (jn := Z.to_nat j).
  assert (Hin : (inn < m)%nat) by (unfold inn; lia).
  assert (Hjn : (jn < n)%nat) by (unfold jn; lia).
  (* the rows of the query *)
  destruct (lookup_lt_is_Some_2 U0 inn) as [ui0 Hui0]; [destruct HU0; lia|].
  destruct (lookup_lt_is_Some_2 U1 inn) as [ui1 Hui1]; [destruct HU1; lia|].
  pose proof (has_dims_lookup _ _ _ _ _ HU0 Hui0) as Lui0.
  pose proof (has_dims_lookup _ _ _ _ _ HU1 Hui1) as Lui1.
  destruct (lookup_lt_is_Some_2 V0 jn) as [vj0 Hvj0]; [destruct HV0; lia|].
  destruct (lookup_lt_is_Some_2 V1 jn) as [vj1 Hvj1]; [destruct HV1; lia|].
  pose proof (has_dims_lookup _ _ _ _ _ HV0 Hvj0) as Lvj0.
  pose proof (has_dims_lookup _ _ _ _ _ HV1 Hvj1) as Lvj1.
  pose proof (mat_sum_lookup _ _ _ _ _ Hui0 Hui1) as Hui.
  pose proof (mat_sum_lookup _ _ _ _ _ Hvj0 Hvj1) as Hvj.
  set (ui := vec_sum ui0 ui1) in *. set (vj := vec_sum vj0 vj1) in *.
  assert (Lui : length ui = k) by (unfold ui; len).
  assert (Lvj : length vj = k) by (unfold vj; len).
  (* the lookup *)
  set (sel0 := rotate_left (rotation_mid n j r) (lm_R0 lm)).
  set (sel1 := rotate_left (rotation_mid n j r) (lm_R1 lm)).
  set (ip0 := retrieve_outs0 V0 V1 sel0 sel1 0 (qm_cols mat)).
  set (ip1 := retrieve_outs1 V0 V1 sel0 sel1 0 (qm_cols mat)).
  pose proof (retrieve_runs n k V0 V1 HV0 HV1 (item_share q0) (item_share q1)
                (lm_a0 lm) (lm_a1 lm) j r (lm_R0 lm) (lm_R1 lm) (qm_cols mat)
                Hn Hk Hj Hr Hshares Ha HR0 HR1 Hcols Hwf) as Hret.
  cbv zeta in Hret. fold sel0 sel1 ip0 ip1 in Hret.
  assert (Ls0 : length sel0 = n) by (unfold sel0; now rewrite rotate_left_length).
  assert (Ls1 : length sel1 = n) by (unfold sel1; now rewrite rotate_left_length).
  assert (Hsel : vec_sum sel0 sel1 = one_hot n jn)
    by (apply selector_sum; assumption).
  assert (Lip0 : length ip0 = k)
    by (unfold ip0; now rewrite retrieve_outs_length0).
  assert (Lip1 : length ip1 = k)
    by (unfold ip1; now rewrite retrieve_outs_length1).
  assert (Hip : vec_sum ip0 ip1 = vj).
  { unfold ip0, ip1.
    rewrite (retrieve_outs_sum n k V0 V1 HV0 HV1 sel0 sel1 jn vj Ls0 Ls1
               Hsel Hvj) by (assumption || lia).
    rewrite drop_0, take_ge by lia. reflexivity. }
  (* the inner product *)
  set (d0 := dot_out0 ui0 ip0 ui1 ip1 (qm_dot mat)).
  set (d1 := dot_out1 ui0 ip0 ui1 ip1 (qm_dot mat)).
  pose proof (inner_product_runs k ui0 ip0 ui1 ip1 (qm_dot mat)
                Lui0 Lip0 Lui1 Lip1 Hdm) as Hdot.
  pose proof (inner_product_sum k ui0 ip0 ui1 ip1 (qm_dot mat)
                Lui0 Lip0 Lui1 Lip1 Hdm) as Hd.
  fold d0 d1 ui in Hdot, Hd. rewrite Hip in Hd.
  (* the scaled item profile and the new user row *)
  set (s0 := svp_out0 d0 d1 ip0 ip1 (qm_scale mat)).
  set (s1 := svp_out1 d0 d1 ip0 ip1 (qm_scale mat)).
  pose proof (scalar_vector_runs k d0 d1 ip0 ip1 (qm_scale mat)
                Lip0 Lip1 Hsc) as Hsv.
  pose proof (scalar_vector_sum k d0 d1 ip0 ip1 (qm_scale mat)
                Lip0 Lip1 Hsc) as Hs.
  pose proof (scalar_vector_length0 k d0 d1 ip0 ip1 (qm_scale mat)
                Lip0 Lip1 Hsc) as Ls0'.
  pose proof (scalar_vector_length1 k d0 d1 ip0 ip1 (qm_scale mat)
                Lip0 Lip1 Hsc) as Ls1'.
  fold s0 s1 in Hsv, Hs, Ls0', Ls1'.
  set (new0 := zip_with sub64 (vec_sum ui0 ip0) s0).
  set (new1 := zip_with sub64 (vec_sum ui1 ip1) s1).
  assert (Lnew0 : length new0 = k) by (unfold new0; len).
  assert (Lnew1 : length new1 = k) by (unfold new1; len).
  (* the update vector *)
  set (M0 := svp_out0 (sub64 0 d0) (sub64 1 d1) ui0 ui1 (qm_update mat)).
  set (M1 := svp_out1 (sub64 0 d0) (sub64 1 d1) ui0 ui1 (qm_update mat)).
  pose proof (scalar_vector_runs k (sub64 0 d0) (sub64 1 d1) ui0 ui1
                (qm_update mat) Lui0 Lui1 Hup) as Hupd.
  pose proof (scalar_vector_sum k (sub64 0 d0) (sub64 1 d1) ui0 ui1
                (qm_update mat) Lui0 Lui1 Hup) as HM.
  pose proof (scalar_vector_length0 k (sub64 0 d0) (sub64 1 d1) ui0 ui1
                (qm_update mat) Lui0 Lui1 Hup) as LM0.
  pose proof (scalar_vector_length1 k (sub64 0 d0) (sub64 1 d1) ui0 ui1
                (qm_update mat) Lui0 Lui1 Hup) as LM1.
  fold M0 M1 ui in Hupd, HM, LM0, LM1.
  (* the item update *)
  assert (Hkeys' : ∀ F, ∃ l0 l1,
    EvalFull prg (with_FCW (dpf_key q0) F) (Z.of_nat n) = Some l0
    ∧ EvalFull prg (with_FCW (dpf_key q1) F) (Z.of_nat n) = Some l1
    ∧ length l0 = n ∧ length l1 = n
    ∧ vec_sum l0 l1
      = point_vector n (Z.of_nat jn)
          (to_i64 (F + FCW (dpf_key q0) + FCW (dpf_key q1)))).
  { intros F. unfold jn. rewrite Z2Nat.id by lia. apply Hkeys. }
  destruct (repair_loop_runs prg n k jn (dpf_key q0) (dpf_key q1) M0 M1
              LM0 LM1 Hkeys' k 0%nat V0 V1 HV0 HV1 ltac:(lia))
    as (V0' & V1' & Hrep & HV0' & HV1' & Hent).
  exists (<[inn := new0]> U0), V0', (<[inn := new1]> U1), V1'.
  split; [|split; [now apply has_dims_insert|split;
            [now apply has_dims_insert|split;
              [assumption|split; [assumption|]]]]].
  - (* the run *)
    unfold process_query. rewrite Hq0, Hq1. fold inn.
    unfold qm_frames0, qm_frames1. fold lm.
    eapply runs_bind_lift; [exact Hui0 | exact Hui1 |].
    eapply runs_bind; [exact Hret|]. cbn beta.
    eapply runs_bind; [exact Hdot|]. cbn beta.
    eapply runs_bind; [exact Hsv|]. cbn beta.
    eapply runs_bind_lift; [exact Hui0 | exact Hui1 |].
    eapply runs_bind_lift;
      [apply vec_add_Some; lia | apply vec_add_Some; lia |].
    eapply runs_bind_lift;
      [apply vec_sub_Some; len | apply vec_sub_Some; len |].
    fold new0 new1.
    rewrite <- (app_nil_r (sm_frames0 (qm_update mat))),
            <- (app_nil_r (sm_frames1 (qm_update mat))).
    eapply runs_bind; [exact Hupd|]. cbn beta.
    apply (runs_bind_mret _ _ (λ V, (<[inn := new0]> U0, V))
                              (λ V, (<[inn := new1]> U1, V))).
    exact Hrep.
  - (* the cleartext step *)
    pose proof (mat_sum_dims _ _ _ _ HU0 HU1) as HU.
    pose proof (mat_sum_dims _ _ _ _ HV0 HV1) as HV.
    unfold cleartext_update.
    destruct HU as [HUl HUr], HV as [HVl HVr].
    rewrite HUl, HVl.
    assert ((Z.of_nat m <=? i) || (Z.of_nat n <=? j) = false) as ->.
    { apply orb_false_iff. split; apply Z.leb_gt; lia. }
    fold inn jn. rewrite Hui, Hvj. cbn [mbind option_bind].
    unfold dot_product. rewrite Lui, Lvj, Nat.eqb_refl. cbn [negb].
    rewrite vec_dot_product_dot64 by lia. cbn [mbind option_bind].
    unfold add_to_row. rewrite Hui. cbn [mbind option_bind].
    rewrite vec_add_Some by (rewrite length_map; lia).
    cbn [mbind option_bind].
    rewrite Hvj. cbn [mbind option_bind].
    rewrite vec_add_Some by (rewrite length_map; lia).
    cbn [mbind option_bind].
    f_equal. f_equal.
    + (* the user matrix *)
      rewrite mat_sum_insert. f_equal. unfold new0, new1.
      rewrite (user_row_sum k ui0 ui1 ip0 ip1 s0 s1 (add64 d0 d1))
        by assumption.
      fold ui. rewrite Hip, Hd. reflexivity.
    + (* the item matrix *)
      pose proof (mat_sum_dims _ _ _ _ HV0 HV1) as HV.
      pose proof (mat_sum_dims _ _ _ _ HV0' HV1') as HV'.
      symmetry. apply (mat_eq _ _ n k); [exact HV'| |].
      { apply has_dims_insert; [exact HV|]. unfold vec_sum.
        rewrite length_zip_with, length_map. lia. }
      intros t c Ht Hc.
      rewrite (entry_mat_sum _ _ n k) by assumption.
      rewrite (Hent t c Ht Hc).
      rewrite (entry_insert _ n k) by assumption.
      rewrite <- (entry_mat_sum _ _ n k) by assumption.
      destruct (decide (t = jn)) as [->|Hne];
        destruct (decide _) as [Hyes|Hno]; try lia; try reflexivity.
      destruct (lookup_lt_is_Some_2 M0 c) as [x0 Hx0]; [lia|].
      destruct (lookup_lt_is_Some_2 M1 c) as [x1 Hx1]; [lia|].
      destruct (lookup_lt_is_Some_2 ui c) as [u Hu]; [lia|].
      destruct (lookup_lt_is_Some_2 vj c) as [v Hv]; [lia|].
      pose proof (vec_sum_lookup _ _ _ c _ _ HM Hx0 Hx1) as HMc.
      unfold vec_scalar_mul in HMc.
      rewrite list_lookup_fmap, Hu in HMc. cbn in HMc.
      injection HMc as HMc.
      rewrite Hx0, Hx1. cbn [default].
      rewrite (entry_lookup _ _ _ _ _ Hvj Hv).
      unfold vec_sum at 1.
      rewrite lookup_zip_with, Hv, list_lookup_fmap, Hu. cbn.
      unfold id. rewrite <- HMc.
      apply complement_sum, Hd.
Qed.

End Query.

(** ** The session *)

Section Session.

Variable prg : Z → ChildSeed.
Variables (m n k : nat).
Hypothesis Hn : Z.of_nat n < 2 ^ 32.
Hypothesis Hk : Z.of_nat k < 2 ^ 32.

Lemma make_query_keys i j d F :
  0 <= j < Z.of_nat n →
  ∃ l0 l1,
    EvalFull prg (with_FCW (dpf_key (make_query prg (Z.of_nat n) i j d).1) F)
             (Z.of_nat n) = Some l0
    ∧ EvalFull prg (with_FCW (dpf_key (make_query prg (Z.of_nat n) i j d).2) F)
               (Z.of_nat n) = Some l1
    ∧ length l0 = n ∧ length l1 = n
    ∧ vec_sum l0 l1
      = point_vector n j
          (to_i64 (F + FCW (dpf_key (make_query prg (Z.of_nat n) i j d).1)
                     + FCW (dpf_key (make_query prg (Z.of_nat n) i j d).2))).
Proof.
  intros Hj. unfold make_query. cbn [fst snd dpf_key].
  destruct (EvalFull_pair prg j 0 n (d_s0 d) (d_s1 d) (d_R d) F Hj)
    as (l0 & l1 & E0 & E1 & L0 & L1 & Hsum).
  exists l0, l1. rewrite Z.sub_0_r in Hsum. auto.
Qed.

Lemma make_query_shares i j d :
  0 <= j < Z.of_nat n →
  add64 (item_share (make_query prg (Z.of_nat n) i j d).1)
        (item_share (make_query prg (Z.of_nat n) i j d).2) = j.
Proof.
  intros Hj. unfold make_query. cbn [fst snd item_share].
  rewrite <- (to_i64_id j) at 2 by (unfold is_i64; lia). ring64.
Qed.

Lemma query_loop_runs cleartext : ∀ draws mats U0 U1 V0 V1,
  has_dims U0 m k → has_dims U1 m k →
  has_dims V0 n k → has_dims V1 n k →
  Forall (in_range m n) cleartext →
  length draws = length cleartext →
  length mats = length cleartext →
  Forall (qm_wf n k) mats →
  ∃ U0' V0' U1' V1',
    runs (query_loop prg 0 n k (U0, V0)
            (make_queries prg (Z.of_nat n) cleartext draws).1)
         (query_loop prg 1 n k (U1, V1)
            (make_queries prg (Z.of_nat n) cleartext draws).2)
         (concat (map qm_frames0 mats)) (concat (map qm_frames1 mats))
         (U0', V0') (U1', V1')
    ∧ has_dims U0' m k ∧ has_dims U1' m k
    ∧ has_dims V0' n k ∧ has_dims V1' n k
    ∧ apply_cleartext_updates (mat_sum U0 U1, mat_sum V0 V1) cleartext
      = Some (mat_sum U0' U1', mat_sum V0' V1').
Proof.
  induction cleartext as [|[i j] cleartext IH];
    intros draws mats U0 U1 V0 V1 HU0 HU1 HV0 HV1 Hrange Hd Hm Hwf.
  - destruct mats; [|discriminate].
    exists U0, V0, U1, V1. cbn.
    split; [apply runs_ret | auto 10].
  - destruct draws as [|d draws]; [discriminate|].
    destruct mats as [|mat mats]; [discriminate|].
    apply Forall_cons in Hrange as [[Hi Hj] Hrange].
    apply Forall_cons in Hwf as [Hmat Hwf].
    cbn [fst snd] in Hi, Hj.
    cbn [length] in Hd, Hm.
    destruct (process_query_runs prg m n k U0 U1 V0 V1 i j
                (make_query prg (Z.of_nat n) i j d).1
                (make_query prg (Z.of_nat n) i j d).2 mat
                HU0 HU1 HV0 HV1 Hn Hk Hi Hj eq_refl eq_refl
                (make_query_shares i j d Hj)
                (λ F, make_query_keys i j d F Hj) Hmat)
      as (U0a & V0a & U1a & V1a & Hq & HU0a & HU1a & HV0a & HV1a & Hclear).
    destruct (IH draws mats U0a U1a V0a V1a HU0a HU1a HV0a HV1a Hrange
                ltac:(lia) ltac:(lia) Hwf)
      as (U0' & V0' & U1' & V1' & Hloop & HU0' & HU1' & HV0' & HV1' & Hrest).
    exists U0', V0', U1', V1'.
    split; [|split; [assumption|split; [assumption|split;
              [assumption|split; [assumption|]]]]].
    + cbn [make_queries].
      destruct (make_query prg (Z.of_nat n) i j d) as [qa qb] eqn:Eq.
      destruct (make_queries prg (Z.of_nat n) cleartext draws) as [la lb] eqn:El.
      cbn [fst snd query_loop map concat] in *.
      eapply runs_bind; [exact Hq | exact Hloop].
    + cbn [apply_cleartext_updates]. rewrite Hclear. exact Hrest.
Qed.

End Session.

(** ** Saving the shares *)

Lemma save_matrix_Some M rows cols :
  has_dims M rows cols →
  save_matrix M rows cols = Some (map (map save_share) M).
Proof.
  intros HM. unfold save_matrix.
  replace rows with (length (map (map save_share) M))
    by (rewrite length_map; apply HM).
  apply mapM_seq_Some. intros i x Hx.
  rewrite list_lookup_fmap in Hx.
  destruct (M !! i) as [row|] eqn:Hrow; [|discriminate].
  cbn in Hx. injection Hx as <-. cbn.
  replace cols with (length (map save_share row))
    by (rewrite length_map; exact (has_dims_lookup _ _ _ _ _ HM Hrow)).
  apply mapM_seq_Some. intros f y Hy.
  rewrite list_lookup_fmap in Hy.
  destruct (row !! f) as [v|] eqn:Hv; [|discriminate].
  cbn in Hy. injection Hy as <-. reflexivity.
Qed.

Lemma to_u32_eq a b : eqm32 a b → to_u32 a = to_u32 b.
Proof. exact id. Qed.

Lemma save_share_eqm x : eqm32 (save_share x) x.
Proof. unfold save_share. rewrite to_u32_eqm. apply to_i32_eqm. Qed.

Lemma save_share_proper a b : eqm32 a b → save_share a = save_share b.
Proof.
  intros H. unfold save_share. apply to_u32_eq.
  rewrite !to_i32_eqm. exact H.
Qed.

(** The sum of two saved shares, in [uint32_t], is the saved sum. *)
Lemma save_share_sum x y :
  to_u32 (save_share x + save_share y) = save_share (add64 x y).
Proof.
  unfold save_share at 3. apply to_u32_eq.
  rewrite to_i32_eqm, !save_share_eqm.
  symmetry. apply eqm64_eqm32, add64_eqm.
Qed.

Lemma saved_row_sum a : ∀ b,
  zip_with (λ x y, to_u32 (x + y)) (map save_share a) (map save_share b)
  = map save_share (vec_sum a b).
Proof.
  induction a as [|x a IH]; intros [|y b]; cbn; try reflexivity.
  now rewrite save_share_sum, IH.
Qed.

Lemma saved_sum A : ∀ B,
  mat_sum32 (map (map save_share) A) (map (map save_share) B)
  = convert_to_uint32_matrix (mat_sum A B).
Proof.
  unfold mat_sum32, convert_to_uint32_matrix, mat_sum.
  induction A as [|a A IH]; intros [|b B]; cbn; try reflexivity.
  now rewrite saved_row_sum, IH.
Qed.

(** ** The protocol, end to end *)

Lemma has_dims_saved M rows cols :
  has_dims M rows cols → has_dims (map (map save_share) M) rows cols.
Proof.
  intros [Hl Hr]. split; [now rewrite length_map|].
  apply Forall_fmap. eapply Forall_impl; [exact Hr|].
  intros row Hrow. cbn. now rewrite length_map.
Qed.

Section Protocol.

Variable prg : Z → ChildSeed.
Variables (m n k : nat) (U0 U1 V0 V1 : list (list Z)).
Hypothesis HU0 : has_dims U0 m k.
Hypothesis HU1 : has_dims U1 m k.
Hypothesis HV0 : has_dims V0 n k.
Hypothesis HV1 : has_dims V1 n k.
Hypothesis Hn : Z.of_nat n < 2 ^ 32.
Hypothesis Hk : Z.of_nat k < 2 ^ 32.

Lemma execute_protocol_runs cleartext draws mats :
  Forall (in_range m n) cleartext →
  length draws = length cleartext →
  length mats = length cleartext →
  Forall (qm_wf n k) mats →
  ∃ Uc Vc Us0 Vs0 Us1 Vs1,
    apply_cleartext_updates (mat_sum U0 U1, mat_sum V0 V1) cleartext
    = Some (Uc, Vc)
    ∧ runs (execute_protocol prg 0 m n k U0 V0
              (make_queries prg (Z.of_nat n) cleartext draws).1)
           (execute_protocol prg 1 m n k U1 V1
              (make_queries prg (Z.of_nat n) cleartext draws).2)
           (concat (map qm_frames0 mats)) (concat (map qm_frames1 mats))
           (Us0, Vs0) (Us1, Vs1)
    ∧ mat_sum32 Us0 Us1 = convert_to_uint32_matrix Uc
    ∧ mat_sum32 Vs0 Vs1 = convert_to_uint32_matrix Vc
    ∧ (has_dims Us0 m k ∧ has_dims Us1 m k)
    ∧ (has_dims Vs0 n k ∧ has_dims Vs1 n k).
Proof.
  intros Hrange Hd Hm Hwf.
  destruct (query_loop_runs prg m n k Hn Hk cleartext draws mats
              U0 U1 V0 V1 HU0 HU1 HV0 HV1 Hrange Hd Hm Hwf)
    as (U0' & V0' & U1' & V1' & Hloop & HU0' & HU1' & HV0' & HV1' & Hclear).
  exists (mat_sum U0' U1'), (mat_sum V0' V1').
  exists (map (map save_share) U0'), (map (map save_share) V0').
  exists (map (map save_share) U1'), (map (map save_share) V1').
  split; [exact Hclear|].
  split; [|split; [apply saved_sum | split; [apply saved_sum|]];
           split; split; now apply has_dims_saved].
  unfold execute_protocol.
  rewrite <- (app_nil_r (concat (map qm_frames0 mats))),
          <- (app_nil_r (concat (map qm_frames1 mats))).
  eapply runs_bind; [exact Hloop|]. cbn beta iota.
  eapply runs_bind_lift;
    [apply save_matrix_Some; assumption
    |apply save_matrix_Some; assumption|].
  eapply runs_bind_lift;
    [apply save_matrix_Some; assumption
    |apply save_matrix_Some; assumption|].
  apply runs_ret.
Qed.

End Protocol.

(** ** The order of sends and receives on the peer link *)

Section Traces.

Lemma traces_ret {A} (a : A) pin hin : traces (Ret a) pin hin a pin hin [].
Proof. split; reflexivity. Qed.

Lemma traces_bind {A B} (p : proc link A) (k : A → proc link B) :
  ∀ pin hin a pin1 hin1 e1 b pin2 hin2 e2,
    traces p pin hin a pin1 hin1 e1 →
    traces (k a) pin1 hin1 b pin2 hin2 e2 →
    traces (p ≫= k) pin hin b pin2 hin2 (e1 ++ e2).
Proof.
  unfold traces.
  induction p as [a' | l v p IH | l p IH |];
    intros pin hin a pin1 hin1 e1 b pin2 hin2 e2 [R1 E1] H2.
  - cbn in R1, E1. injection R1 as -> -> ->. subst e1. exact H2.
  - change (Send l v p ≫= k) with (Send l v (p ≫= k)).
    destruct l; cbn [lrun peer_events] in *.
    + exact (IH _ _ _ _ _ _ _ _ _ _ (conj R1 E1) H2).
    + destruct (IH _ _ _ _ _ _ _ _ _ _ (conj R1 eq_refl) H2) as [R E].
      split; [exact R|]. rewrite E, <- E1. reflexivity.
  - change (Recv l p ≫= k) with (Recv l (λ v, p v ≫= k)).
    destruct l; cbn [lrun peer_events] in *.
    + destruct hin as [|v hin]; [discriminate|].
      exact (IH v _ _ _ _ _ _ _ _ _ _ (conj R1 E1) H2).
    + destruct pin as [|v pin]; [discriminate|].
      destruct (IH v _ _ _ _ _ _ _ _ _ _ (conj R1 eq_refl) H2) as [R E].
      split; [exact R|]. rewrite E, <- E1. reflexivity.
  - discriminate.
Qed.

Lemma traces_lift {A B} (o : option A) (a : A) (k : A → proc link B)
    pin hin b pin2 hin2 e2 :
  o = Some a → traces (k a) pin hin b pin2 hin2 e2 →
  traces (lift o ≫= k) pin hin b pin2 hin2 e2.
Proof. intros ->. exact id. Qed.

Lemma traces_lift_last {A} (o : option A) (a : A) pin hin :
  o = Some a → traces (lift o) pin hin a pin hin [].
Proof. intros ->. apply traces_ret. Qed.

Lemma traces_events_eq {A} (p : proc link A) pin hin a pin' hin' e e' :
  traces p pin hin a pin' hin' e → e = e' → traces p pin hin a pin' hin' e'.
Proof. now intros H <-. Qed.

Lemma traces_send_value v pin hin :
  traces (send_value peer_link v) pin hin () pin hin [Snd].
Proof. split; reflexivity. Qed.

Lemma traces_recv_value_peer v pin hin :
  traces (recv_value peer_link) (v :: pin) hin v pin hin [Rcv].
Proof. split; reflexivity. Qed.

Lemma traces_recv_value_helper v pin hin :
  traces (recv_value helper_link) pin (v :: hin) v pin hin [].
Proof. split; reflexivity. Qed.

Lemma traces_send_words vec pin hin :
  traces (send_words peer_link vec) pin hin () pin hin
         (repeat Snd (length vec)).
Proof.
  induction vec as [|x vec [R E]]; [apply traces_ret|].
  split; cbn; [exact R | now rewrite E].
Qed.

Lemma traces_send_vector vec pin hin :
  traces (send_vector peer_link vec) pin hin () pin hin
         (repeat Snd (S (length vec))).
Proof.
  unfold send_vector.
  eapply traces_events_eq.
  - eapply traces_bind; [apply traces_send_value | apply traces_send_words].
  - reflexivity.
Qed.

Lemma traces_recv_words_peer vec pin hin :
  traces (recv_words peer_link (length vec)) (vec ++ pin) hin vec pin hin
         (repeat Rcv (length vec)).
Proof.
  induction vec as [|x vec IH]; [apply traces_ret|].
  cbn [recv_words length app].
  eapply traces_events_eq.
  - eapply traces_bind; [apply traces_recv_value_peer|].
    eapply traces_bind; [exact IH | apply traces_ret].
  - cbn. now rewrite app_nil_r.
Qed.

Lemma traces_recv_words_helper vec pin hin :
  traces (recv_words helper_link (length vec)) pin (vec ++ hin) vec pin hin [].
Proof.
  induction vec as [|x vec IH]; [apply traces_ret|].
  cbn [recv_words length app].
  eapply traces_events_eq.
  - eapply traces_bind; [apply traces_recv_value_helper|].
    eapply traces_bind; [exact IH | apply traces_ret].
  - reflexivity.
Qed.

Lemma traces_recv_vector_peer vec pin hin :
  traces (recv_vector peer_link) (frames vec ++ pin) hin vec pin hin
         (repeat Rcv (S (length vec))).
Proof.
  unfold recv_vector, frames. cbn [app].
  eapply traces_events_eq.
  - eapply traces_bind; [apply traces_recv_value_peer|].
    destruct (recv_vector_size vec) as [-> ->].
    apply traces_recv_words_peer.
  - reflexivity.
Qed.

Lemma traces_recv_vector_helper vec pin hin :
  traces (recv_vector helper_link) pin (frames vec ++ hin) vec pin hin [].
Proof.
  unfold recv_vector, frames. cbn [app].
  eapply traces_events_eq.
  - eapply traces_bind; [apply traces_recv_value_helper|].
    destruct (recv_vector_size vec) as [-> ->].
    apply traces_recv_words_helper.
  - reflexivity.
Qed.

Lemma traces_recv_vector_peer_all vec hin :
  traces (recv_vector peer_link) (frames vec) hin vec [] hin
         (repeat Rcv (S (length vec))).
Proof.
  rewrite <- (app_nil_r (frames vec)). apply traces_recv_vector_peer.
Qed.

Lemma traces_recv_vector_helper_all vec pin :
  traces (recv_vector helper_link) pin (frames vec) vec pin [] [].
Proof.
  rewrite <- (app_nil_r (frames vec)). apply traces_recv_vector_helper.
Qed.

End Traces.

(** [trace] follows one server to its end. *)
Ltac trace :=
  proc_norm;
  lazymatch goal with
  | |- traces (Ret _) _ _ _ _ _ _ => apply traces_ret
  | |- traces (mret _) _ _ _ _ _ _ => apply traces_ret
  | |- traces (recv_vector helper_link) _ (frames _ ++ _) _ _ _ _ =>
      apply traces_recv_vector_helper
  | |- traces (recv_vector helper_link) _ (frames _) _ _ _ _ =>
      apply traces_recv_vector_helper_all
  | |- traces (recv_vector peer_link) (frames _ ++ _) _ _ _ _ _ =>
      apply traces_recv_vector_peer
  | |- traces (recv_vector peer_link) (frames _) _ _ _ _ _ =>
      apply traces_recv_vector_peer_all
  | |- traces (recv_value helper_link) _ (_ :: _) _ _ _ _ =>
      apply traces_recv_value_helper
  | |- traces (recv_value peer_link) (_ :: _) _ _ _ _ _ =>
      apply traces_recv_value_peer
  | |- traces (send_vector peer_link _) _ _ _ _ _ _ => apply traces_send_vector
  | |- traces (send_value peer_link _) _ _ _ _ _ _ => apply traces_send_value
  | |- traces (lift _) _ _ _ _ _ _ => eapply traces_lift_last; lift_ok
  | |- traces (lift _ ≫= _) _ _ _ _ _ _ =>
      eapply traces_lift; [lift_ok | trace]
  | |- traces (_ ≫= _) _ _ _ _ _ _ => eapply traces_bind; [trace | trace]
  end.

Lemma repeat_add {A} (x : A) a b : repeat x a ++ repeat x b = repeat x (a + b).
Proof. symmetry. apply repeat_app. Qed.

Ltac events_eq :=
  cbn [app Nat.mul]; rewrite ?Nat.add_0_r, ?repeat_app, ?app_nil_r, <- ?app_assoc;
  reflexivity.

Section GadgetTraces.

Variables (L : nat) (x y px py : list Z).
Hypothesis Hx : length x = L.
Hypothesis Hy : length y = L.
Hypothesis Hpx : length px = L.
Hypothesis Hpy : length py = L.

(** Secure inner product: role 0 sends its two masked vectors, then
    receives; role 1 receives, then sends. *)
Lemma inner_product_events0 (m : dot_material) :
  dm_wf L m →
  peer_events (compute_secure_inner_product 0 x y)
              (frames px ++ frames py) (dm_frames0 m)
  = repeat Snd (2 * S L) ++ repeat Rcv (2 * S L).
Proof.
  intros (HX0 & HY0 & HX1 & HY1).
  assert (∃ z pin hin,
    traces (compute_secure_inner_product 0 x y)
           (frames px ++ frames py) (dm_frames0 m) z pin hin
           (repeat Snd (2 * S L) ++ repeat Rcv (2 * S L)))
    as (z & pin & hin & _ & E); [|exact E].
  do 3 eexists. unfold compute_secure_inner_product, dm_frames0.
  eapply traces_events_eq; [trace|].
  rewrite !vec_sum_length, Hx, Hy, Hpx, Hpy by lia.
  events_eq.
Qed.

Lemma inner_product_events1 (m : dot_material) :
  dm_wf L m →
  peer_events (compute_secure_inner_product 1 x y)
              (frames px ++ frames py) (dm_frames1 m)
  = repeat Rcv (2 * S L) ++ repeat Snd (2 * S L).
Proof.
  intros (HX0 & HY0 & HX1 & HY1).
  assert (∃ z pin hin,
    traces (compute_secure_inner_product 1 x y)
           (frames px ++ frames py) (dm_frames1 m) z pin hin
           (repeat Rcv (2 * S L) ++ repeat Snd (2 * S L)))
    as (z & pin & hin & _ & E); [|exact E].
  do 3 eexists. unfold compute_secure_inner_product, dm_frames1.
  eapply traces_events_eq; [trace|].
  rewrite !vec_sum_length, Hx, Hy, Hpx, Hpy by lia.
  events_eq.
Qed.

End GadgetTraces.

Section ScalarVectorTraces.

Variables (L : nat) (x px : list Z).
Hypothesis Hx : length x = L.
Hypothesis Hpx : length px = L.

(** Secure scalar-vector product: role 0 receives the masked scalar and
    vector, then sends its own; role 1 sends, then receives. *)
Lemma scalar_vector_events0 (a pa : Z) (m : scalar_material) :
  sm_wf L m →
  peer_events (compute_secure_scalar_vector_product 0 a x)
              ([pa] ++ frames px) (sm_frames0 m)
  = repeat Rcv (S (S L)) ++ repeat Snd (S (S L)).
Proof.
  intros (HB0 & HB1 & HR).
  assert (∃ z pin hin,
    traces (compute_secure_scalar_vector_product 0 a x)
           ([pa] ++ frames px) (sm_frames0 m) z pin hin
           (repeat Rcv (S (S L)) ++ repeat Snd (S (S L))))
    as (z & pin & hin & _ & E); [|exact E].
  do 3 eexists.
  unfold compute_secure_scalar_vector_product, sm_frames0, sm_C0.
  eapply traces_events_eq; [trace|].
  rewrite !vec_sum_length, Hx, Hpx by lia.
  change (S (S L)) with (1 + S L)%nat. events_eq.
Qed.

Lemma scalar_vector_events1 (a pa : Z) (m : scalar_material) :
  sm_wf L m →
  peer_events (compute_secure_scalar_vector_product 1 a x)
              ([pa] ++ frames px) (sm_frames1 m)
  = repeat Snd (S (S L)) ++ repeat Rcv (S (S L)).
Proof.
  intros (HB0 & HB1 & HR).
  assert (∃ z pin hin,
    traces (compute_secure_scalar_vector_product 1 a x)
           ([pa] ++ frames px) (sm_frames1 m) z pin hin
           (repeat Snd (S (S L)) ++ repeat Rcv (S (S L))))
    as (z & pin & hin & _ & E); [|exact E].
  do 3 eexists.
  unfold compute_secure_scalar_vector_product, sm_frames1, sm_C1.
  eapply traces_events_eq; [trace|].
  rewrite !vec_sum_length, Hx, Hpx by lia.
  change (S (S L)) with (1 + S L)%nat. events_eq.
Qed.

End ScalarVectorTraces.

(** The one-word exchanges: the masked index of the lookup, the masked
    update of the repair loop, and [exchange_value]. *)
Lemma rotation_exchange_events v w peer_in helper_in :
  peer_events (rotation_exchange 0 v) (w :: peer_in) helper_in = [Snd; Rcv]
  ∧ peer_events (rotation_exchange 1 v) (w :: peer_in) helper_in = [Rcv; Snd].
Proof. split; reflexivity. Qed.

Lemma repair_exchange_events v w peer_in helper_in :
  peer_events (repair_exchange 0 v) (w :: peer_in) helper_in = [Rcv; Snd]
  ∧ peer_events (repair_exchange 1 v) (w :: peer_in) helper_in = [Snd; Rcv].
Proof. split; reflexivity. Qed.

Lemma exchange_value_events v w peer_in helper_in :
  peer_events (exchange_value peer_link v 0) (w :: peer_in) helper_in = [Snd; Rcv]
  ∧ peer_events (exchange_value peer_link v 1) (w :: peer_in) helper_in = [Rcv; Snd].
Proof. split; reflexivity. Qed.

Lemma sends_then_receives_head d events :
  sends_then_receives (Rcv :: d :: events) → d = Rcv.
Proof.
  intros (a & b & E). destruct a as [|a]; cbn in E.
  - destruct b as [|[|b]]; cbn in E; congruence.
  - discriminate.
Qed.

Lemma receives_then_sends_head d events :
  receives_then_sends (Snd :: d :: events) → d = Snd.
Proof.
  intros (a & b & E). destruct a as [|a]; cbn in E.
  - destruct b as [|[|b]]; cbn in E; congruence.
  - discriminate.
Qed.

Lemma sends_then_receives_rcv events :
  sends_then_receives (Rcv :: events) → events = repeat Rcv (length events).
Proof.
  intros (a & b & E). destruct a as [|a]; cbn in E; [|discriminate].
  destruct b as [|b]; cbn in E; [discriminate|].
  injection E as ->. now rewrite repeat_length.
Qed.

(** ** Matrix files: what is written is read back *)

Lemma N_to_uint_nonnil (n : N) : N.to_uint n ≠ Decimal.Nil.
Proof.
  destruct n as [|p]; [discriminate|].
  apply DecimalPos.Unsigned.to_uint_nonnil.
Qed.

(** A value of [uint32_t] survives printing and parsing. *)
Lemma parse_print_u32 (val : Z) :
  0 <= val < 2 ^ 32 → parse_u32 (print_u32 val) = Some val.
Proof.
  intros H. unfold parse_u32, print_u32.
  rewrite NilZero.usu by apply N_to_uint_nonnil.
  cbn [mbind option_bind].
  rewrite DecimalN.Unsigned.of_to, Z2N.id by lia.
  destruct (Z.ltb_spec val (2 ^ 32)); [reflexivity | lia].
Qed.

Lemma to_i32_id z : - 2 ^ 31 <= z < 2 ^ 31 → to_i32 z = z.
Proof. intros H. unfold to_i32. rewrite Z.mod_small; lia. Qed.

Lemma to_i32_eq a b : eqm32 a b → to_i32 a = to_i32 b.
Proof.
  intros H. unfold to_i32. f_equal.
  change (eqm32 (a + 2 ^ 31) (b + 2 ^ 31)). now rewrite H.
Qed.

Lemma load_save_share share : load_share (save_share share) = to_i32 share.
Proof.
  unfold load_share, save_share.
  rewrite (to_i32_eq _ _ (to_u32_eqm (to_i32 share))).
  rewrite (to_i32_eq _ _ (to_i32_eqm share)).
  apply to_i64_id. pose proof (to_i32_range share). unfold is_i64. lia.
Qed.

Lemma save_then_load_spec share : save_then_load share = Some (to_i32 share).
Proof.
  unfold save_then_load.
  rewrite parse_print_u32 by apply to_u32_range.
  cbn [mbind option_bind]. now rewrite load_save_share.
Qed.

(** ** The checker *)

Section Checker.

Variables (name : string) (mpc cleartext : list (list Z)) (rows cols : nat).
Hypothesis Hmpc : has_dims mpc rows cols.
Hypothesis Hclear : has_dims cleartext rows cols.

Lemma compare_entry_spec i f st :
  (i < rows)%nat → (f < cols)%nat → compare_inv st →
  ∃ st', compare_entry name mpc cleartext i f st = Some st'
         ∧ compare_inv st'
         ∧ cs_errors st <= cs_errors st'
         ∧ (cs_errors st' = cs_errors st
            ↔ entry mpc i f = entry cleartext i f).
Proof.
  intros Hi Hf (Hpos & Hok & Hlen).
  destruct (has_dims_entry _ _ _ _ _ Hmpc Hi Hf) as (r & Hr & _ & Hx).
  destruct (has_dims_entry _ _ _ _ _ Hclear Hi Hf) as (r' & Hr' & _ & Hy).
  unfold compare_entry. rewrite Hr, Hr'. cbn [mbind option_bind].
  rewrite Hx, Hy. cbn [mbind option_bind].
  destruct (Z.eqb_spec (entry mpc i f) (entry cleartext i f)) as [E | E];
    cbn [negb].
  - exists st. repeat split; try assumption; try lia; apply Hok || apply Hlen.
  - eexists. split; [reflexivity|]. unfold compare_inv. cbn.
    unfold MAX_ERRORS_TO_PRINT in *.
    repeat split; try lia; try discriminate.
    destruct (Z.ltb_spec (cs_errors st) 10);
      rewrite ?length_app; cbn [length]; lia.
Qed.

Lemma compare_cols_spec i todo : ∀ f0 st,
  (i < rows)%nat → (f0 + todo <= cols)%nat → compare_inv st →
  ∃ st', compare_cols name mpc cleartext i f0 todo st = Some st'
         ∧ compare_inv st'
         ∧ cs_errors st <= cs_errors st'
         ∧ (cs_errors st' = cs_errors st
            ↔ ∀ f, (f0 <= f < f0 + todo)%nat →
                   entry mpc i f = entry cleartext i f).
Proof.
  induction todo as [|todo IH]; intros f0 st Hi Hf Hst.
  - exists st. repeat split; try assumption; try lia; try apply Hst.
  - cbn [compare_cols].
    destruct (compare_entry_spec i f0 st) as (st1 & -> & I1 & L1 & E1);
      [lia .. | assumption |].
    cbn [mbind option_bind].
    destruct (IH (S f0) st1) as (st2 & -> & I2 & L2 & E2);
      [lia .. | assumption |].
    exists st2. repeat split; try assumption; try lia; try apply I2.
    + intros E f Hrange.
      destruct (decide (f = f0)) as [-> | Hne].
      * apply E1. lia.
      * apply E2; lia.
    + intros H.
      assert (cs_errors st1 = cs_errors st) by (apply E1, H; lia).
      assert (cs_errors st2 = cs_errors st1) by (apply E2; intros; apply H; lia).
      lia.
Qed.

Lemma compare_rows_spec todo : ∀ i0 st,
  (i0 + todo <= rows)%nat → compare_inv st →
  ∃ st', compare_rows name mpc cleartext cols i0 todo st = Some st'
         ∧ compare_inv st'
         ∧ cs_errors st <= cs_errors st'
         ∧ (cs_errors st' = cs_errors st
            ↔ ∀ i f, (i0 <= i < i0 + todo)%nat → (f < cols)%nat →
                     entry mpc i f = entry cleartext i f).
Proof.
  induction todo as [|todo IH]; intros i0 st Hi Hst.
  - exists st. repeat split; try assumption; try lia; try apply Hst.
  - cbn [compare_rows].
    destruct (compare_cols_spec i0 cols 0 st) as (st1 & -> & I1 & L1 & E1);
      [lia .. | assumption |].
    cbn [mbind option_bind].
    destruct (IH (S i0) st1) as (st2 & -> & I2 & L2 & E2);
      [lia | assumption |].
    exists st2. repeat split; try assumption; try lia; try apply I2.
    + intros E i f Hrange Hf.
      destruct (decide (i = i0)) as [-> | Hne].
      * apply E1; lia.
      * apply E2; lia.
    + intros H.
      assert (cs_errors st1 = cs_errors st)
        by (apply E1; intros; apply H; lia).
      assert (cs_errors st2 = cs_errors st1)
        by (apply E2; intros; apply H; lia).
      lia.
Qed.

(** One comparison loop: the flag stays set exactly when the matrices
    agree, and at most [MAX_ERRORS_TO_PRINT] reports are printed. *)
Lemma compare_matrix_spec :
  ∃ st, compare_matrix name mpc cleartext rows cols = Some st
        ∧ (cs_ok st = true ↔ agree mpc cleartext rows cols)
        ∧ (length (cs_printed st) <= 10)%nat.
Proof.
  unfold compare_matrix.
  destruct (compare_rows_spec rows 0
              {| cs_ok := true; cs_errors := 0; cs_printed := [] |})
    as (st & -> & (Hpos & Hok & Hlen) & _ & E).
  { lia. }
  { unfold compare_inv. cbn. repeat split; lia. }
  exists st. split; [reflexivity|]. split.
  - rewrite Hok. cbn [cs_errors] in E. rewrite E. unfold agree.
    split; intros H i f; [intros; apply H; lia | intros [_ ?] ?; now apply H].
  - unfold MAX_ERRORS_TO_PRINT in Hlen. lia.
Qed.

End Checker.

(** The exit code of the comparison: 0 exactly when both recombined
    matrices agree with the cleartext ones, 1 otherwise; each comparison
    loop prints at most ten reports. *)
Lemma compare_results_spec (m n k : nat) (U_mpc V_mpc U_clear V_clear : list (list Z)) :
  has_dims U_mpc m k → has_dims U_clear m k →
  has_dims V_mpc n k → has_dims V_clear n k →
  ∃ code reports,
    compare_results m n k U_mpc V_mpc U_clear V_clear = Some (code, reports)
    ∧ (code = 0 ↔ agree U_mpc U_clear m k ∧ agree V_mpc V_clear n k)
    ∧ (code = 0 ∨ code = 1)
    ∧ (length reports <= 20)%nat.
Proof.
  intros HU HU' HV HV'. unfold compare_results.
  destruct (compare_matrix_spec "U" U_mpc U_clear m k HU HU')
    as (u & -> & Eu & Lu).
  destruct (compare_matrix_spec "V" V_mpc V_clear n k HV HV')
    as (v & -> & Ev & Lv).
  cbn [mbind option_bind]. do 2 eexists. split; [reflexivity|].
  rewrite <- Eu, <- Ev, length_app.
  destruct (cs_ok u), (cs_ok v); cbn; intuition (try lia; try discriminate).
Qed.

(** ** The cleartext simulation follows the update rule *)

Lemma cleartext_update_spec (m n k : nat) (U V : list (list Z)) (query : Z * Z) :
  has_dims U m k → has_dims V n k → in_range m n query →
  cleartext_update (U, V) query = Some (spec_update (U, V) query)
  ∧ has_dims (spec_update (U, V) query).1 m k
  ∧ has_dims (spec_update (U, V) query).2 n k.
Proof.
  intros HU HV [Hi Hj]. destruct query as [i j]. cbn [fst snd] in Hi, Hj.
  pose proof HU as [HUl _]. pose proof HV as [HVl _].
  destruct (lookup_lt_is_Some_2 U (Z.to_nat i)) as [ui Hui]; [lia|].
  destruct (lookup_lt_is_Some_2 V (Z.to_nat j)) as [vj Hvj]; [lia|].
  pose proof (has_dims_lookup _ _ _ _ _ HU Hui) as Lu.
  pose proof (has_dims_lookup _ _ _ _ _ HV Hvj) as Lv.
  unfold spec_update. cbn [fst snd]. rewrite Hui, Hvj. cbn [default]. unfold id.
  split; [|split].
  - unfold cleartext_update.
    destruct (Z.leb_spec (Z.of_nat (length U)) i); [lia|].
    destruct (Z.leb_spec (Z.of_nat (length V)) j); [lia|].
    cbn [orb]. rewrite Hui, Hvj. cbn [mbind option_bind].
    unfold dot_product. rewrite Lu, Lv, Nat.eqb_refl. cbn [negb].
    rewrite vec_dot_product_dot64 by lia. cbn [mbind option_bind].
    unfold add_to_row. rewrite Hui. cbn [mbind option_bind].
    rewrite vec_add_Some by (rewrite length_map; lia).
    cbn [mbind option_bind]. rewrite Hvj. cbn [mbind option_bind].
    rewrite vec_add_Some by (rewrite length_map; lia).
    reflexivity.
  - apply has_dims_insert; [assumption|].
    rewrite vec_sum_length; unfold vec_scalar_mul; rewrite ?length_map; lia.
  - apply has_dims_insert; [assumption|].
    rewrite vec_sum_length; unfold vec_scalar_mul; rewrite ?length_map; lia.
Qed.

Lemma apply_cleartext_updates_spec (m n k : nat) (queries : list (Z * Z)) :
  ∀ U V, has_dims U m k → has_dims V n k → Forall (in_range m n) queries →
         apply_cleartext_updates (U, V) queries
         = Some (spec_iteration (U, V) queries).
Proof.
  induction queries as [|query queries IH]; intros U V HU HV Hq; [reflexivity|].
  apply Forall_cons in Hq as [Hq Hqs].
  destruct (cleartext_update_spec m n k U V query HU HV Hq) as (E & HU' & HV').
  cbn [apply_cleartext_updates]. rewrite E. cbn [mbind option_bind].
  unfold spec_iteration. cbn [foldl].
  destruct (spec_update (U, V) query) as [U' V'].
  now apply IH.
Qed.

Lemma to_u32_to_i32 x : to_u32 (to_i32 x) = to_u32 x.
Proof. apply to_u32_proper, to_i32_eqm. Qed.

Lemma convert_to_uint32_matrix_mod32 M : convert_to_uint32_matrix M = mod32 M.
Proof.
  unfold convert_to_uint32_matrix, mod32.
  apply map_ext. intros row. apply map_ext. intros x. apply to_u32_to_i32.
Qed.

(** ** Key generation keeps the two flags apart *)

Section KeyFlags.

Variable prg : Z → ChildSeed.

Lemma gen_level_flags j d i st :
  g_f0 st ≠ g_f1 st →
  g_f0 (gen_level prg j d i st) ≠ g_f1 (gen_level prg j d i st).
Proof.
  unfold gen_level. cbn.
  destruct (path_bit j d i), (g_f0 st), (g_f1 st),
    (f_left (prg (g_s0 st))), (f_left (prg (g_s1 st))),
    (f_right (prg (g_s0 st))), (f_right (prg (g_s1 st)));
    cbn; congruence.
Qed.

Lemma gen_loop_flags j d todo : ∀ i st,
  g_f0 st ≠ g_f1 st →
  g_f0 (gen_loop prg j d todo i st) ≠ g_f1 (gen_loop prg j d todo i st).
Proof.
  induction todo as [|todo IH]; intros i st H; [exact H|].
  cbn [gen_loop]. apply IH, gen_level_flags, H.
Qed.

Lemma gen_loop_cws_length j d todo : ∀ i st,
  length (g_cws (gen_loop prg j d todo i st))
  = (length (g_cws st) + todo)%nat.
Proof.
  induction todo as [|todo IH]; intros i st; [cbn; lia|].
  cbn [gen_loop]. rewrite IH. unfold gen_level. cbn.
  rewrite length_app. cbn. lia.
Qed.

End KeyFlags.

(** ** The checker, from the files to the exit code *)

Lemma zip_rows_Some (g : Z → Z → Z) (r0 r1 : list Z) (cols : nat) :
  length r0 = cols → length r1 = cols →
  mapM (λ f, x ← r0 !! f; y ← r1 !! f; Some (g x y)) (seq 0 cols)
  = Some (zip_with g r0 r1).
Proof.
  intros H0 H1.
  replace cols with (length (zip_with g r0 r1))
    by (rewrite length_zip_with; lia).
  apply mapM_seq_Some. intros f z Hz.
  rewrite lookup_zip_with in Hz.
  destruct (r0 !! f), (r1 !! f); cbn in *; congruence.
Qed.

Lemma zip_mats_Some (g : Z → Z → Z) (M0 M1 : list (list Z)) (rows cols : nat) :
  has_dims M0 rows cols → has_dims M1 rows cols →
  mapM (λ i, r0 ← M0 !! i; r1 ← M1 !! i;
             mapM (λ f, x ← r0 !! f; y ← r1 !! f; Some (g x y)) (seq 0 cols))
       (seq 0 rows)
  = Some (zip_with (zip_with g) M0 M1).
Proof.
  intros H0 H1.
  replace rows with (length (zip_with (zip_with g) M0 M1))
    by (rewrite length_zip_with; destruct H0, H1; lia).
  apply mapM_seq_Some. intros i row Hrow.
  rewrite lookup_zip_with in Hrow.
  destruct (M0 !! i) as [r0|] eqn:E0; [|discriminate].
  destruct (M1 !! i) as [r1|] eqn:E1; [|discriminate].
  cbn in Hrow |- *. injection Hrow as <-.
  apply zip_rows_Some.
  - exact (has_dims_lookup _ _ _ _ _ H0 E0).
  - exact (has_dims_lookup _ _ _ _ _ H1 E1).
Qed.

Lemma recombine_shares_Some (M0 M1 : ShareMat) (rows cols : nat) :
  has_dims M0 rows cols → has_dims M1 rows cols →
  recombine_shares M0 M1 = Some (mat_sum M0 M1).
Proof.
  intros H0 H1. unfold recombine_shares.
  pose proof H0 as [L0 _]. pose proof H1 as [L1 _].
  rewrite L0, L1, Nat.eqb_refl. cbn [negb orb].
  destruct rows as [|rows].
  - destruct M0, M1; try discriminate. reflexivity.
  - destruct (lookup_lt_is_Some_2 M0 0) as [r0 E0]; [lia|].
    destruct (lookup_lt_is_Some_2 M1 0) as [r1 E1]; [lia|].
    rewrite E0, E1. cbn [default]. unfold id.
    rewrite (has_dims_lookup _ _ _ _ _ H0 E0), (has_dims_lookup _ _ _ _ _ H1 E1).
    rewrite Nat.eqb_refl. cbn [negb andb].
    exact (zip_mats_Some add64 M0 M1 (S rows) cols H0 H1).
Qed.

Lemma recombine_updated_Some (M0 M1 : list (list Z)) (rows cols : nat) :
  has_dims M0 rows cols → has_dims M1 rows cols →
  recombine_updated M0 M1 rows cols = Some (mat_sum32 M0 M1).
Proof. apply (zip_mats_Some (λ x y, to_u32 (x + y))). Qed.

Lemma mat_sum32_dims (M0 M1 : list (list Z)) (rows cols : nat) :
  has_dims M0 rows cols → has_dims M1 rows cols →
  has_dims (mat_sum32 M0 M1) rows cols.
Proof.
  intros [L0 F0] [L1 F1]. split.
  - unfold mat_sum32. rewrite length_zip_with. lia.
  - apply Forall_lookup. intros i row Hrow. unfold mat_sum32 in Hrow.
    rewrite lookup_zip_with in Hrow.
    destruct (M0 !! i) as [r0|] eqn:E0; [|discriminate].
    destruct (M1 !! i) as [r1|] eqn:E1; [|discriminate].
    cbn in Hrow. injection Hrow as <-. rewrite length_zip_with.
    rewrite Forall_lookup in F0, F1.
    rewrite (F0 i r0 E0), (F1 i r1 E1). lia.
Qed.

Lemma mod32_dims (M : list (list Z)) (rows cols : nat) :
  has_dims M rows cols → has_dims (mod32 M) rows cols.
Proof.
  intros [Hl Hr]. split; [unfold mod32; now rewrite length_map|].
  apply Forall_fmap. eapply Forall_impl; [exact Hr|].
  intros row Hrow. cbn. now rewrite length_map.
Qed.

Lemma spec_iteration_dims (m n k : nat) (queries : list (Z * Z)) :
  ∀ U V, has_dims U m k → has_dims V n k → Forall (in_range m n) queries →
         has_dims (spec_iteration (U, V) queries).1 m k
         ∧ has_dims (spec_iteration (U, V) queries).2 n k.
Proof.
  induction queries as [|query queries IH]; intros U V HU HV Hq.
  - split; assumption.
  - apply Forall_cons in Hq as [Hq Hqs].
    destruct (cleartext_update_spec m n k U V query HU HV Hq) as (_ & HU' & HV').
    unfold spec_iteration. cbn [foldl].
    destruct (spec_update (U, V) query) as [U' V'].
    now apply IH.
Qed.

(** The checker on well-formed files: it exits with 0 exactly when the
    recombined updated shares agree, entry by entry, with the cleartext
    simulation reduced modulo [2^32], and with 1 otherwise; it prints at
    most ten reports for each of the two matrices. *)
Lemma checker_main_spec (m n k : nat) (U0 U1 V0 V1 : ShareMat)
    (queries : list (Z * Z))
    (U0_updated U1_updated V0_updated V1_updated : list (list Z)) :
  has_dims U0 m k → has_dims U1 m k → has_dims V0 n k → has_dims V1 n k →
  has_dims U0_updated m k → has_dims U1_updated m k →
  has_dims V0_updated n k → has_dims V1_updated n k →
  Forall (in_range m n) queries →
  let cleartext := spec_iteration (mat_sum U0 U1, mat_sum V0 V1) queries in
  let result := checker_main m n k U0 U1 V0 V1 queries
                  U0_updated U1_updated V0_updated V1_updated in
  (result.1 = 0
   ↔ agree (mat_sum32 U0_updated U1_updated) (mod32 cleartext.1) m k
     ∧ agree (mat_sum32 V0_updated V1_updated) (mod32 cleartext.2) n k)
  ∧ (result.1 = 0 ∨ result.1 = 1)
  ∧ (length result.2 <= 20)%nat.
Proof.
  intros HU0 HU1 HV0 HV1 HU0u HU1u HV0u HV1u Hq cleartext result.
  pose proof (mat_sum_dims _ _ _ _ HU0 HU1) as HU.
  pose proof (mat_sum_dims _ _ _ _ HV0 HV1) as HV.
  destruct (spec_iteration_dims m n k queries _ _ HU HV Hq) as [HUc HVc].
  fold cleartext in HUc, HVc.
  destruct (compare_results_spec m n k
              (mat_sum32 U0_updated U1_updated) (mat_sum32 V0_updated V1_updated)
              (mod32 cleartext.1) (mod32 cleartext.2))
    as (code & reports & E & Hcode & Hbit & Hlen);
    try (apply mat_sum32_dims; assumption);
    try (apply mod32_dims; assumption).
  assert (Hres : result = (code, reports)).
  { unfold result, checker_main.
    rewrite (recombine_shares_Some U0 U1 m k),
            (recombine_shares_Some V0 V1 n k) by assumption.
    cbn [mbind option_bind].
    rewrite (apply_cleartext_updates_spec m n k) by assumption.
    cbn [mbind option_bind]. fold cleartext.
    destruct cleartext as [Uc Vc]. cbn [fst snd] in E.
    rewrite (recombine_updated_Some U0_updated U1_updated m k),
            (recombine_updated_Some V0_updated V1_updated n k) by assumption.
    cbn [mbind option_bind].
    rewrite !convert_to_uint32_matrix_mod32, E. reflexivity. }
  rewrite Hres. cbn [fst snd]. auto.
Qed.

(** * The claims of the specification *)

Lemma helper_streams_no_query ent n k : helper_streams ent n k 0 = Some ([], []).
Proof. reflexivity. Qed.

(** C1: End-to-end simulation equivalence.  For all initial share matrices
    [U0], [U1] (m×k) and [V0], [V1] (n×k) and every query stream, the two
    servers, fed by the helper, run [execute_protocol] to its end whatever
    the interleaving, and the element-wise sums of the matrices they save
    equal, modulo [2^32], the matrices that the update rule
    [u_i ← u_i + v_j·(1 − ⟨u_i, v_j⟩)], [v_j ← v_j + u_i·(1 − ⟨u_i, v_j⟩)]
    (on the rows before the query, other rows unchanged) gives from
    [U0 + U1] and [V0 + V1]; the cleartext simulation of the checker
    computes the same matrices. *)
Theorem protocol_matches_cleartext (prg : Z → ChildSeed) (ent : entropy)
    (m n k : nat) (U0 U1 V0 V1 : ShareMat)
    (cleartext : list (Z * Z)) (draws : list query_draws) :
  has_dims U0 m k → has_dims U1 m k → has_dims V0 n k → has_dims V1 n k →
  Z.of_nat n < 2 ^ 32 → Z.of_nat k < 2 ^ 32 →
  Forall (in_range m n) cleartext → length draws = length cleartext →
  ∃ h0 h1 Us0 Vs0 Us1 Vs1,
    helper_streams ent n k (length cleartext) = Some (h0, h1)
    ∧ completes
        (Cfg (execute_protocol prg 0 m n k U0 V0
                (make_queries prg (Z.of_nat n) cleartext draws).1)
             (execute_protocol prg 1 m n k U1 V1
                (make_queries prg (Z.of_nat n) cleartext draws).2)
             [] [] h0 h1)
        (Us0, Vs0) (Us1, Vs1)
    ∧ (has_dims Us0 m k ∧ has_dims Us1 m k)
    ∧ (has_dims Vs0 n k ∧ has_dims Vs1 n k)
    ∧ (mat_sum32 Us0 Us1, mat_sum32 Vs0 Vs1)
      = (mod32 (spec_iteration (mat_sum U0 U1, mat_sum V0 V1) cleartext).1,
         mod32 (spec_iteration (mat_sum U0 U1, mat_sum V0 V1) cleartext).2)
    ∧ apply_cleartext_updates (mat_sum U0 U1, mat_sum V0 V1) cleartext
      = Some (spec_iteration (mat_sum U0 U1, mat_sum V0 V1) cleartext).
Proof.
  intros HU0 HU1 HV0 HV1 Hn Hk Hrange Hdraws.
  assert (∃ mats,
    helper_streams ent n k (length cleartext)
    = Some (concat (map qm_frames0 mats), concat (map qm_frames1 mats))
    ∧ length mats = length cleartext ∧ Forall (qm_wf n k) mats)
    as (mats & Hh & Hlen & Hwf).
  { destruct cleartext as [|query rest].
    - exists []. split; [apply helper_streams_no_query|]. split; [reflexivity|].
      constructor.
    - apply helper_streams_spec; [|assumption].
      apply Forall_cons in Hrange as [[_ Hj] _]. lia. }
  destruct (execute_protocol_runs prg m n k U0 U1 V0 V1 HU0 HU1 HV0 HV1 Hn Hk
              cleartext draws mats Hrange Hdraws Hlen Hwf)
    as (Uc & Vc & Us0 & Vs0 & Us1 & Vs1 & Hclear & Hruns & EU & EV & HUs & HVs).
  assert (Hspec : apply_cleartext_updates (mat_sum U0 U1, mat_sum V0 V1) cleartext
                  = Some (spec_iteration (mat_sum U0 U1, mat_sum V0 V1) cleartext)).
  { apply (apply_cleartext_updates_spec m n k);
      [apply mat_sum_dims .. | ]; assumption. }
  rewrite Hspec in Hclear. injection Hclear as Hclear.
  exists (concat (map qm_frames0 mats)), (concat (map qm_frames1 mats)).
  exists Us0, Vs0, Us1, Vs1.
  split; [exact Hh|]. split; [apply runs_completes, Hruns|].
  split; [exact HUs|]. split; [exact HVs|]. split; [|exact Hspec].
  rewrite EU, EV, Hclear, !convert_to_uint32_matrix_mod32. reflexivity.
Qed.

Lemma protocol_matches_cleartext_witness :
  let ent := mkEntropy (λ _, 1) (λ _, 2) (λ _, 0) in
  let U0 := [[1]] in let U1 := [[2]] in
  let V0 := [[3]; [4]] in let V1 := [[5]; [6]] in
  let cleartext := [(0, 1)] in
  let draws := [mkDraws 9 0 1 5] in
  ∃ h0 h1 Us0 Vs0 Us1 Vs1,
    helper_streams ent 2 1 (length cleartext) = Some (h0, h1)
    ∧ completes
        (Cfg (execute_protocol PRG 0 1 2 1 U0 V0
                (make_queries PRG (Z.of_nat 2) cleartext draws).1)
             (execute_protocol PRG 1 1 2 1 U1 V1
                (make_queries PRG (Z.of_nat 2) cleartext draws).2)
             [] [] h0 h1)
        (Us0, Vs0) (Us1, Vs1)
    ∧ (has_dims Us0 1 1 ∧ has_dims Us1 1 1)
    ∧ (has_dims Vs0 2 1 ∧ has_dims Vs1 2 1)
    ∧ (mat_sum32 Us0 Us1, mat_sum32 Vs0 Vs1)
      = (mod32 (spec_iteration (mat_sum U0 U1, mat_sum V0 V1) cleartext).1,
         mod32 (spec_iteration (mat_sum U0 U1, mat_sum V0 V1) cleartext).2)
    ∧ apply_cleartext_updates (mat_sum U0 U1, mat_sum V0 V1) cleartext
      = Some (spec_iteration (mat_sum U0 U1, mat_sum V0 V1) cleartext).
Proof.
  intros ent U0 U1 V0 V1 cleartext draws.
  apply (protocol_matches_cleartext PRG ent 1 2 1 U0 U1 V0 V1 cleartext draws).
  - split; [reflexivity | repeat constructor].
  - split; [reflexivity | repeat constructor].
  - split; [reflexivity | repeat constructor].
  - split; [reflexivity | repeat constructor].
  - reflexivity.
  - reflexivity.
  - repeat constructor; cbn; lia.
  - reflexivity.
Defined.

(** The update rule on a small instance: one user [u = [3, 1]], four
    items, query [(0, 2)] with [v = [2, 2]]: the inner product is 8, the
    factor is -7, and only the two rows of the query move. *)
Example spec_iteration_example :
  spec_iteration ([[3; 1]], [[1; 0]; [0; 1]; [2; 2]; [-1; 1]]) [(0, 2)]
  = ([[-11; -13]], [[1; 0]; [0; 1]; [-19; -5]; [-1; 1]]).
Proof. reflexivity. Qed.

(** The keys of [generateDPF(0, 7, 2)] for the draws 0, 1 (root seeds) and
    5 (mask), evaluated as they are returned: the two vectors sum to
    [[124; 0]], not to [[7; 0]]. *)
Lemma returned_keys_counterexample :
  let keys := generateDPF PRG 0 7 2 0 1 5 in
  EvalFull PRG keys.1 2 = Some [349; 47]
  ∧ EvalFull PRG keys.2 2 = Some [-225; -47]
  ∧ ¬ (∃ l0 l1, EvalFull PRG keys.1 2 = Some l0
                ∧ EvalFull PRG keys.2 2 = Some l1
                ∧ vec_sum l0 l1 = point_vector 2 0 7).
Proof.
  assert (E0 : EvalFull PRG (generateDPF PRG 0 7 2 0 1 5).1 2 = Some [349; 47])
    by (vm_compute; reflexivity).
  assert (E1 : EvalFull PRG (generateDPF PRG 0 7 2 0 1 5).2 2 = Some [-225; -47])
    by (vm_compute; reflexivity).
  cbv zeta. split; [exact E0|]. split; [exact E1|].
  intros (l0 & l1 & H0 & H1 & H).
  rewrite E0 in H0. rewrite E1 in H1.
  injection H0 as <-. injection H1 as <-.
  vm_compute in H. discriminate.
Qed.

(** C2 (amended): DPF point-function correctness of the small-seed
    variant holds for keys that carry one common final correction word.
    For all [(j, v, n)] with [j < n < 2^32], all draws and every word [F],
    the two keys of [generateDPF(j, v, n)] with [FCW] replaced by [F]
    evaluate, over the [n] leaves, to two vectors whose element-wise sum is
    [F + FCW0 + FCW1 - v] (in 64-bit arithmetic) at index [j] and 0 at every
    other index, where [FCW0] and [FCW1] are the words of the keys as
    returned.  The bound on [n] is that of the item counts of the servers;
    below it the depth computed in floating point is the exact one. *)
Theorem common_fcw_point_function (prg : Z → ChildSeed) (j v : Z) (n : nat)
    (rs0 rs1 rR F : Z) :
  0 <= j < Z.of_nat n → Z.of_nat n < 2 ^ 32 →
  let keys := generateDPF prg j v (Z.of_nat n) rs0 rs1 rR in
  ∃ l0 l1,
    EvalFull prg (with_FCW keys.1 F) (Z.of_nat n) = Some l0
    ∧ EvalFull prg (with_FCW keys.2 F) (Z.of_nat n) = Some l1
    ∧ length l0 = n ∧ length l1 = n
    ∧ ∀ t, (t < n)%nat →
           add64 (default 0 (l0 !! t)) (default 0 (l1 !! t))
           = if Z.of_nat t =? j
             then to_i64 (F + FCW keys.1 + FCW keys.2 - v)
             else 0.
Proof.
  intros Hj Hn keys.
  destruct (EvalFull_pair prg j v n rs0 rs1 rR F Hj)
    as (l0 & l1 & E0 & E1 & L0 & L1 & Hsum).
  exists l0, l1. repeat (split; [assumption|]).
  intros t Ht.
  destruct (lookup_lt_is_Some_2 l0 t) as [a Ha]; [lia|].
  destruct (lookup_lt_is_Some_2 l1 t) as [b Hb]; [lia|].
  pose proof (vec_sum_lookup _ _ _ t a b Hsum Ha Hb) as Hl.
  rewrite point_vector_lookup in Hl by lia.
  rewrite Ha, Hb. cbn [default]. unfold id. subst keys. congruence.
Qed.

Lemma common_fcw_point_function_witness :
  let keys := generateDPF PRG 0 7 (Z.of_nat 2) 0 1 5 in
  ∃ l0 l1,
    EvalFull PRG (with_FCW keys.1 3) (Z.of_nat 2) = Some l0
    ∧ EvalFull PRG (with_FCW keys.2 3) (Z.of_nat 2) = Some l1
    ∧ length l0 = 2%nat ∧ length l1 = 2%nat
    ∧ ∀ t, (t < 2)%nat →
           add64 (default 0 (l0 !! t)) (default 0 (l1 !! t))
           = if Z.of_nat t =? 0
             then to_i64 (3 + FCW keys.1 + FCW keys.2 - 7)
             else 0.
Proof.
  apply (common_fcw_point_function PRG 0 7 2 0 1 5 3); [lia | reflexivity].
Defined.

Lemma repair_exchange_runs (d0 d1 : Z) :
  runs (repair_exchange 0 d0) (repair_exchange 1 d1) [] [] d1 d0.
Proof.
  unfold runs, repair_exchange. run1. run0. run1. apply rtc_refl.
Qed.

(** C3: FCW repair correctness.  For every key pair of
    [generateDPF(j, 0, n)] with [j < n < 2^32], all update vectors [Δ0],
    [Δ1] of the feature length and all item-matrix shares, the two servers
    run the FCW repair loop of [execute_protocol] to its end whatever the
    interleaving: at every feature [c] they exchange [Δ_b[c] - FCW_b], put
    the sum of the two masked words into a copy of their key, evaluate the
    copy over the [n] leaves and add the result to column [c].  After the
    loop the sum of the two item matrices has grown by [Δ0[c] + Δ1[c]] (in
    64-bit arithmetic) at row [j] and by 0 at every other row.  For one
    feature: each server ends the exchange with the word of the other, and
    the evaluations of the two repaired copies sum to [Δ0 + Δ1] at index
    [j] and to 0 at every other index. *)
Theorem fcw_repair_correct (prg : Z → ChildSeed) (j : Z) (n k : nat)
    (rs0 rs1 rR : Z) (update0 update1 : ShareVec) (V0 V1 : ShareMat) :
  0 <= j < Z.of_nat n → Z.of_nat n < 2 ^ 32 → Z.of_nat k < 2 ^ 32 →
  length update0 = k → length update1 = k →
  has_dims V0 n k → has_dims V1 n k →
  let keys := generateDPF prg j 0 (Z.of_nat n) rs0 rs1 rR in
  (∃ V0' V1',
     completes (Cfg (repair_loop prg 0 keys.1 update0 n V0 0 k)
                    (repair_loop prg 1 keys.2 update1 n V1 0 k)
                    [] [] [] [])
               V0' V1'
     ∧ has_dims V0' n k ∧ has_dims V1' n k
     ∧ ∀ t c, (t < n)%nat → (c < k)%nat →
         add64 (entry V0' t c) (entry V1' t c)
         = to_i64 (entry V0 t c + entry V1 t c
                   + if Z.of_nat t =? j
                     then default 0 (update0 !! c) + default 0 (update1 !! c)
                     else 0))
  ∧ ∀ delta0 delta1 : Z,
      let masked0 := sub64 delta0 (FCW keys.1) in
      let masked1 := sub64 delta1 (FCW keys.2) in
      completes (Cfg (repair_exchange 0 masked0) (repair_exchange 1 masked1)
                     [] [] [] [])
                masked1 masked0
      ∧ ∃ l0 l1,
          EvalFull prg (with_FCW keys.1 (add64 masked0 masked1)) (Z.of_nat n)
          = Some l0
          ∧ EvalFull prg (with_FCW keys.2 (add64 masked1 masked0)) (Z.of_nat n)
            = Some l1
          ∧ length l0 = n ∧ length l1 = n
          ∧ ∀ t, (t < n)%nat →
                 add64 (default 0 (l0 !! t)) (default 0 (l1 !! t))
                 = if Z.of_nat t =? j then to_i64 (delta0 + delta1) else 0.
Proof.
  intros Hj Hn Hk Hu0 Hu1 HV0 HV1 keys. split.
  - assert (Hkeys : ∀ F, ∃ l0 l1,
      EvalFull prg (with_FCW keys.1 F) (Z.of_nat n) = Some l0
      ∧ EvalFull prg (with_FCW keys.2 F) (Z.of_nat n) = Some l1
      ∧ length l0 = n ∧ length l1 = n
      ∧ vec_sum l0 l1
        = point_vector n (Z.of_nat (Z.to_nat j))
            (to_i64 (F + FCW keys.1 + FCW keys.2))).
    { intros F.
      destruct (EvalFull_pair prg j 0 n rs0 rs1 rR F Hj)
        as (l0 & l1 & E0 & E1 & L0 & L1 & Hsum).
      exists l0, l1. repeat (split; [assumption|]).
      rewrite Hsum, Z2Nat.id by lia. f_equal. f_equal. subst keys. ring. }
    destruct (repair_loop_runs prg n k (Z.to_nat j) keys.1 keys.2
                update0 update1 Hu0 Hu1 Hkeys k 0%nat V0 V1 HV0 HV1
                ltac:(lia))
      as (V0' & V1' & Hruns & HD0 & HD1 & Hent).
    exists V0', V1'. split; [now apply runs_completes|].
    split; [exact HD0|]. split; [exact HD1|].
    intros t c Ht Hc. rewrite (Hent t c Ht Hc).
    destruct (decide (t = Z.to_nat j ∧ (0 <= c < 0 + k)%nat)) as [[-> _]|Hno].
    + rewrite Z2Nat.id, Z.eqb_refl by lia. ring64.
    + destruct (Z.eqb_spec (Z.of_nat t) j) as [E|E]; [exfalso; lia|].
      ring64.
  - intros delta0 delta1 masked0 masked1.
    split; [apply runs_completes, repair_exchange_runs|].
    destruct (EvalFull_pair prg j 0 n rs0 rs1 rR (add64 masked0 masked1) Hj)
      as (l0 & l1 & E0 & E1 & L0 & L1 & Hsum).
    exists l0, l1. split; [exact E0|].
    split; [rewrite (add64_comm masked1 masked0); exact E1|].
    split; [exact L0|]. split; [exact L1|].
    intros t Ht.
    destruct (lookup_lt_is_Some_2 l0 t) as [a Ha]; [lia|].
    destruct (lookup_lt_is_Some_2 l1 t) as [b Hb]; [lia|].
    pose proof (vec_sum_lookup _ _ _ t a b Hsum Ha Hb) as Hl.
    rewrite point_vector_lookup in Hl by lia.
    rewrite Ha, Hb. cbn [default]. unfold id.
    injection Hl as Hl. rewrite <- Hl.
    destruct (Z.of_nat t =? j); [|reflexivity].
    subst masked0 masked1 keys. ring64.
Qed.

Lemma fcw_repair_correct_witness :
  let keys := generateDPF PRG 1 0 (Z.of_nat 4) 0 1 5 in
  let V0 := [[1; 2]; [3; 4]; [5; 6]; [7; 8]] in
  let V1 := [[0; 0]; [-3; 1]; [0; 0]; [0; 0]] in
  ∃ V0' V1',
    completes (Cfg (repair_loop PRG 0 keys.1 [30; -7] 4 V0 0 2)
                   (repair_loop PRG 1 keys.2 [12; 7] 4 V1 0 2)
                   [] [] [] [])
              V0' V1'
    ∧ add64 (entry V0' 1 0) (entry V1' 1 0) = 42
    ∧ add64 (entry V0' 1 1) (entry V1' 1 1) = 5
    ∧ add64 (entry V0' 2 0) (entry V1' 2 0) = 5.
Proof.
  intros keys V0 V1.
  destruct (fcw_repair_correct PRG 1 4 2 0 1 5 [30; -7] [12; 7] V0 V1)
    as [(V0' & V1' & Hrun & _ & _ & Hent) _];
    [lia | reflexivity | reflexivity | reflexivity | reflexivity
    | split; [reflexivity | repeat constructor]
    | split; [reflexivity | repeat constructor] |].
  exists V0', V1'. split; [exact Hrun|].
  split; [|split].
  - rewrite (Hent 1%nat 0%nat) by lia. reflexivity.
  - rewrite (Hent 1%nat 1%nat) by lia. reflexivity.
  - rewrite (Hent 2%nat 0%nat) by lia. reflexivity.
Defined.

(** The repaired keys on a small instance: index 1 of 4 leaves, shares 30
    and 12 of the new value. *)
Example fcw_repair_example :
  let keys := generateDPF PRG 1 0 4 0 1 5 in
  let F := add64 (sub64 30 (FCW keys.1)) (sub64 12 (FCW keys.2)) in
  (l0 ← EvalFull PRG (with_FCW keys.1 F) 4;
   l1 ← EvalFull PRG (with_FCW keys.2 F) 4;
   Some (vec_sum l0 l1)) = Some [0; 42; 0; 0].
Proof. vm_compute. reflexivity. Qed.

(** C4: Oblivious-lookup correctness.  For all item-matrix shares [V0],
    [V1] with [n] rows, every sharing [j0 + j1 = j] with [0 <= j < n], every
    rotation index [r] of the helper in [0..n-1] and every split of [r] and
    of the one-hot vector [e_r] into additive shares, the two servers run
    [retrieve_item_profile_shares] to its end whatever the interleaving and
    their outputs sum element-wise to row [j] of [V0 + V1]; the rotation
    amount that both compute from the signed combined offset is
    [(j - r) mod n]. *)
Theorem lookup_correct (n k : nat) (V0 V1 : ShareMat)
    (j0 j1 a0 a1 j r : Z) (R0 R1 : list Z) (mats : list dot_material) :
  has_dims V0 n k → has_dims V1 n k →
  Z.of_nat n < 2 ^ 32 → Z.of_nat k < 2 ^ 32 →
  0 <= j < Z.of_nat n → 0 <= r < Z.of_nat n →
  add64 j0 j1 = j → add64 a0 a1 = r →
  length R0 = n → length R1 = n →
  vec_sum R0 R1 = one_hot n (Z.to_nat r) →
  length mats = k → Forall (dm_wf n) mats →
  ∃ out0 out1 row,
    completes
      (Cfg (retrieve_item_profile_shares 0 j0 V0)
           (retrieve_item_profile_shares 1 j1 V1)
           [] []
           ([a0] ++ frames R0 ++ concat (map dm_frames0 mats))
           ([a1] ++ frames R1 ++ concat (map dm_frames1 mats)))
      out0 out1
    ∧ mat_sum V0 V1 !! Z.to_nat j = Some row
    ∧ vec_sum out0 out1 = row
    ∧ total_rotation_of (add64 (sub64 j0 a0) (sub64 j1 a1)) (Z.of_nat n)
      = Some ((j - r) mod Z.of_nat n).
Proof.
  intros HV0 HV1 Hn Hk Hj Hr Hj01 Ha01 HR0 HR1 HR Hmats Hwf.
  pose proof (mat_sum_dims _ _ _ _ HV0 HV1) as HV.
  destruct (lookup_lt_is_Some_2 (mat_sum V0 V1) (Z.to_nat j)) as [row Hrow];
    [destruct HV; lia|].
  pose proof (has_dims_lookup _ _ _ _ _ HV Hrow) as Lrow.
  set (sel0 := rotate_left (rotation_mid n j r) R0).
  set (sel1 := rotate_left (rotation_mid n j r) R1).
  exists (retrieve_outs0 V0 V1 sel0 sel1 0 mats),
         (retrieve_outs1 V0 V1 sel0 sel1 0 mats), row.
  split; [|split; [exact Hrow|split]].
  - apply runs_completes.
    exact (retrieve_runs n k V0 V1 HV0 HV1 j0 j1 a0 a1 j r R0 R1 mats
             Hn Hk Hj Hr Hj01 Ha01 HR0 HR1 Hmats Hwf).
  - rewrite (retrieve_outs_sum n k V0 V1 HV0 HV1 sel0 sel1 (Z.to_nat j) row);
      try assumption.
    + rewrite drop_0, Hmats, <- Lrow. apply firstn_all.
    + unfold sel0. rewrite rotate_left_length; assumption.
    + unfold sel1. rewrite rotate_left_length; assumption.
    + apply selector_sum; assumption.
    + lia.
  - rewrite (combined_offset_spec j0 j1 a0 a1 j r (Z.of_nat n)) by assumption.
    apply total_rotation_of_spec; lia.
Qed.

Lemma lookup_correct_witness :
  let V0 := [[10]; [11]; [12]; [13]; [14]; [15]; [16]; [17]] in
  let V1 := [[1]; [2]; [3]; [4]; [5]; [6]; [7]; [8]] in
  let R0 := [1; 2; 3; 4; 5; 6; 7; 8] in
  let R1 := [-1; -2; -3; -4; -5; -6; -7; -7] in
  let mats := [mkDot (replicate 8 1) (replicate 8 2) (replicate 8 3)
                     (replicate 8 4) 5] in
  ∃ out0 out1 row,
    completes
      (Cfg (retrieve_item_profile_shares 0 3 V0)
           (retrieve_item_profile_shares 1 (-3) V1)
           [] []
           ([2] ++ frames R0 ++ concat (map dm_frames0 mats))
           ([5] ++ frames R1 ++ concat (map dm_frames1 mats)))
      out0 out1
    ∧ mat_sum V0 V1 !! Z.to_nat 0 = Some row
    ∧ vec_sum out0 out1 = row
    ∧ total_rotation_of (add64 (sub64 3 2) (sub64 (-3) 5)) (Z.of_nat 8)
      = Some ((0 - 7) mod Z.of_nat 8).
Proof.
  intros V0 V1 R0 R1 mats.
  apply (lookup_correct 8 1 V0 V1 3 (-3) 2 5 0 7 R0 R1 mats).
  - split; [reflexivity | repeat constructor].
  - split; [reflexivity | repeat constructor].
  - reflexivity.
  - reflexivity.
  - lia.
  - lia.
  - reflexivity.
  - reflexivity.
  - reflexivity.
  - reflexivity.
  - reflexivity.
  - reflexivity.
  - repeat constructor.
Defined.

(** The rotation boundary: 8 items, item 0, rotation index 7.  The
    combined offset is -7 and the rotation amount is 1. *)
Example rotation_boundary :
  total_rotation_of (0 - 7) 8 = Some 1
  ∧ rotate_left (rotation_mid 8 0 7) (one_hot 8 7) = one_hot 8 0.
Proof. split; reflexivity. Qed.

(** C5: Secure dot-product correctness.  For all shared vectors
    [x = x0 + x1] and [y = y0 + y1] of length [L] and every helper material
    [(X_b, Y_b, C_b)] with [C0 = ⟨X0, Y1⟩ + R] and [C1 = ⟨X1, Y0⟩ - R], the
    two servers run [compute_secure_inner_product] to its end whatever the
    interleaving, with outputs
    [z_b = ⟨x_b, y_b + peer's masked y⟩ - ⟨Y_b, peer's masked x⟩ + C_b],
    and [z0 + z1 = ⟨x, y⟩] in 64-bit arithmetic. *)
Theorem inner_product_correct (L : nat) (x0 y0 x1 y1 : list Z)
    (m : dot_material) :
  length x0 = L → length y0 = L → length x1 = L → length y1 = L →
  dm_wf L m →
  ∃ z0 z1,
    completes
      (Cfg (compute_secure_inner_product 0 x0 y0)
           (compute_secure_inner_product 1 x1 y1)
           [] [] (dm_frames0 m) (dm_frames1 m))
      z0 z1
    ∧ z0 = dot_share x0 y0 (dm_Y0 m) (dm_C0 m)
             (vec_sum x1 (dm_X1 m)) (vec_sum y1 (dm_Y1 m))
    ∧ z1 = dot_share x1 y1 (dm_Y1 m) (dm_C1 m)
             (vec_sum x0 (dm_X0 m)) (vec_sum y0 (dm_Y0 m))
    ∧ dm_C0 m = add64 (dot64 (dm_X0 m) (dm_Y1 m)) (dm_R m)
    ∧ dm_C1 m = sub64 (dot64 (dm_X1 m) (dm_Y0 m)) (dm_R m)
    ∧ add64 z0 z1 = dot64 (vec_sum x0 x1) (vec_sum y0 y1).
Proof.
  intros Hx0 Hy0 Hx1 Hy1 Hm.
  exists (dot_out0 x0 y0 x1 y1 m), (dot_out1 x0 y0 x1 y1 m).
  split; [apply runs_completes; now apply (inner_product_runs L)|].
  repeat (split; [reflexivity|]).
  now apply (inner_product_sum L).
Qed.

Lemma inner_product_correct_witness :
  let m := mkDot [1; 2] [3; 4] [5; 6] [7; 8] 9 in
  ∃ z0 z1,
    completes
      (Cfg (compute_secure_inner_product 0 [10; 20] [30; 40])
           (compute_secure_inner_product 1 [-1; -2] [-3; -4])
           [] [] (dm_frames0 m) (dm_frames1 m))
      z0 z1
    ∧ z0 = dot_share [10; 20] [30; 40] (dm_Y0 m) (dm_C0 m)
             (vec_sum [-1; -2] (dm_X1 m)) (vec_sum [-3; -4] (dm_Y1 m))
    ∧ z1 = dot_share [-1; -2] [-3; -4] (dm_Y1 m) (dm_C1 m)
             (vec_sum [10; 20] (dm_X0 m)) (vec_sum [30; 40] (dm_Y0 m))
    ∧ dm_C0 m = add64 (dot64 (dm_X0 m) (dm_Y1 m)) (dm_R m)
    ∧ dm_C1 m = sub64 (dot64 (dm_X1 m) (dm_Y0 m)) (dm_R m)
    ∧ add64 z0 z1 = dot64 (vec_sum [10; 20] [-1; -2]) (vec_sum [30; 40] [-3; -4]).
Proof.
  intros m.
  apply (inner_product_correct 2 [10; 20] [30; 40] [-1; -2] [-3; -4] m);
    try reflexivity.
  repeat split; reflexivity.
Defined.

(** C6: Secure scalar-vector-product correctness.  For every shared scalar
    [α = α0 + α1], every shared vector [v = v0 + v1] of length [L] and
    every helper material [(A_b, B_b, C_b)] with [C0 = A1·B0 + R] and
    [C1 = A0·B1 - R] (element by element, in 64-bit arithmetic), the two
    servers run [compute_secure_scalar_vector_product] to its end whatever
    the interleaving, and their output vectors sum element-wise to
    [(α0 + α1)·(v0 + v1)] in 64-bit arithmetic. *)
Theorem scalar_vector_correct (L : nat) (a0 a1 : Z) (v0 v1 : list Z)
    (A0 A1 : Z) (B0 B1 C0 C1 R : list Z) :
  length v0 = L → length v1 = L →
  length B0 = L → length B1 = L → length R = L →
  C0 = zip_with (λ b r, to_i64 (A1 * b + r)) B0 R →
  C1 = zip_with (λ b r, to_i64 (A0 * b - r)) B1 R →
  ∃ out0 out1,
    completes
      (Cfg (compute_secure_scalar_vector_product 0 a0 v0)
           (compute_secure_scalar_vector_product 1 a1 v1)
           [] []
           ([A0] ++ frames B0 ++ frames C0)
           ([A1] ++ frames B1 ++ frames C1))
      out0 out1
    ∧ length out0 = L ∧ length out1 = L
    ∧ vec_sum out0 out1
      = zip_with (λ x0 x1, to_i64 ((a0 + a1) * (x0 + x1))) v0 v1.
Proof.
  intros Hv0 Hv1 HB0 HB1 HR HC0 HC1.
  set (m := mkScalar A0 A1 B0 B1 R).
  assert (Hm : sm_wf L m) by (repeat split; assumption).
  assert (E0 : C0 = sm_C0 m).
  { rewrite HC0. unfold sm_C0, vec_sum, vec_scalar_mul. cbn [sm_A1 sm_B0 sm_R m].
    change (map ?g B0) with (g <$> B0). rewrite zip_with_fmap_l.
    apply zip_with_ext; [|reflexivity..]. intros b r. ring64. }
  assert (E1 : C1 = sm_C1 m).
  { rewrite HC1. unfold sm_C1, vec_scalar_mul. cbn [sm_A0 sm_B1 sm_R m].
    change (map ?g B1) with (g <$> B1). rewrite zip_with_fmap_l.
    apply zip_with_ext; [|reflexivity..]. intros b r. ring64. }
  exists (svp_out0 a0 a1 v0 v1 m), (svp_out1 a0 a1 v0 v1 m).
  split.
  { rewrite E0, E1. apply runs_completes.
    exact (scalar_vector_runs L a0 a1 v0 v1 m Hv0 Hv1 Hm). }
  split; [now apply scalar_vector_length0|].
  split; [now apply scalar_vector_length1|].
  rewrite (scalar_vector_sum L) by assumption.
  unfold vec_scalar_mul, vec_sum. clear.
  revert v1. induction v0 as [|x0 v0 IH]; intros [|x1 v1]; try reflexivity.
  cbn [zip_with map]. rewrite IH. f_equal. ring64.
Qed.

Lemma scalar_vector_correct_witness :
  ∃ out0 out1,
    completes
      (Cfg (compute_secure_scalar_vector_product 0 10 [20; 30])
           (compute_secure_scalar_vector_product 1 (-1) [-2; -3])
           [] []
           ([3] ++ frames [1; 2] ++ frames [11; 16])
           ([4] ++ frames [5; 6] ++ frames [8; 10]))
      out0 out1
    ∧ length out0 = 2%nat ∧ length out1 = 2%nat
    ∧ vec_sum out0 out1 = [162; 243].
Proof.
  apply (scalar_vector_correct 2 10 (-1) [20; 30] [-2; -3]
           3 4 [1; 2] [5; 6] [11; 16] [8; 10] [7; 8]);
    reflexivity.
Defined.

(** In the exchange of the FCW-repair loop and in the secure scalar-vector
    product the role-0 server receives before it sends. *)
Lemma role_parity_counterexample :
  let m := mkScalar 3 4 [1; 2] [5; 6] [7; 8] in
  peer_events (repair_exchange 0 5) [7] [] = [Rcv; Snd]
  ∧ ¬ sends_then_receives (peer_events (repair_exchange 0 5) [7] [])
  ∧ ¬ receives_then_sends (peer_events (repair_exchange 1 7) [5] [])
  ∧ ¬ sends_then_receives
        (peer_events (compute_secure_scalar_vector_product 0 10 [20; 30])
                     ([9] ++ frames [11; 12]) (sm_frames0 m)).
Proof.
  cbv zeta. split; [reflexivity|]. split; [|split].
  - change (peer_events (repair_exchange 0 5) [7] []) with [Rcv; Snd].
    intros H. apply sends_then_receives_head in H. discriminate.
  - change (peer_events (repair_exchange 1 7) [5] []) with [Snd; Rcv].
    intros H. apply receives_then_sends_head in H. discriminate.
  - match goal with
    | |- ¬ sends_then_receives ?e =>
        let e' := eval vm_compute in e in change e with e'
    end.
    intros H. apply sends_then_receives_rcv in H. discriminate.
Qed.

(** C7 (amended): Role-parity discipline.  In every exchange on the peer
    link one role sends first and then receives while the other receives
    first and then sends.  In the exchange of the oblivious lookup, in the
    secure dot product and in [exchange_value] it is the role-0 server that
    sends first and the role-1 server that receives first; in the secure
    scalar-vector product and in the FCW-repair loop it is the role-1
    server that sends first and the role-0 server that receives first. *)
Theorem role_parity (L : nat) (x y px py : list Z) (a pa v w : Z)
    (md : dot_material) (ms : scalar_material) (peer_in helper_in : list Z) :
  length x = L → length y = L → length px = L → length py = L →
  dm_wf L md → sm_wf L ms →
  (peer_events (rotation_exchange 0 v) (w :: peer_in) helper_in = [Snd; Rcv]
   ∧ peer_events (rotation_exchange 1 v) (w :: peer_in) helper_in = [Rcv; Snd])
  ∧ (peer_events (compute_secure_inner_product 0 x y)
                 (frames px ++ frames py) (dm_frames0 md)
     = repeat Snd (2 * S L) ++ repeat Rcv (2 * S L)
     ∧ peer_events (compute_secure_inner_product 1 x y)
                   (frames px ++ frames py) (dm_frames1 md)
       = repeat Rcv (2 * S L) ++ repeat Snd (2 * S L))
  ∧ (peer_events (exchange_value peer_link v 0) (w :: peer_in) helper_in
     = [Snd; Rcv]
     ∧ peer_events (exchange_value peer_link v 1) (w :: peer_in) helper_in
       = [Rcv; Snd])
  ∧ (peer_events (compute_secure_scalar_vector_product 0 a x)
                 ([pa] ++ frames px) (sm_frames0 ms)
     = repeat Rcv (S (S L)) ++ repeat Snd (S (S L))
     ∧ peer_events (compute_secure_scalar_vector_product 1 a x)
                   ([pa] ++ frames px) (sm_frames1 ms)
       = repeat Snd (S (S L)) ++ repeat Rcv (S (S L)))
  ∧ (peer_events (repair_exchange 0 v) (w :: peer_in) helper_in = [Rcv; Snd]
     ∧ peer_events (repair_exchange 1 v) (w :: peer_in) helper_in = [Snd; Rcv]).
Proof.
  intros Hx Hy Hpx Hpy Hmd Hms.
  split; [apply rotation_exchange_events|].
  split; [split; [now apply inner_product_events0
                 | now apply inner_product_events1]|].
  split; [apply exchange_value_events|].
  split; [split; [now apply scalar_vector_events0
                 | now apply scalar_vector_events1]|].
  apply repair_exchange_events.
Qed.

Lemma role_parity_witness :
  let md := mkDot [1; 2] [3; 4] [5; 6] [7; 8] 9 in
  let ms := mkScalar 3 4 [1; 2] [5; 6] [7; 8] in
  let x := [10; 20] in let y := [30; 40] in
  let px := [11; 12] in let py := [13; 14] in
  (peer_events (rotation_exchange 0 5) [7] [] = [Snd; Rcv]
   ∧ peer_events (rotation_exchange 1 5) [7] [] = [Rcv; Snd])
  ∧ (peer_events (compute_secure_inner_product 0 x y)
                 (frames px ++ frames py) (dm_frames0 md)
     = repeat Snd (2 * 3) ++ repeat Rcv (2 * 3)
     ∧ peer_events (compute_secure_inner_product 1 x y)
                   (frames px ++ frames py) (dm_frames1 md)
       = repeat Rcv (2 * 3) ++ repeat Snd (2 * 3))
  ∧ (peer_events (exchange_value peer_link 5 0) [7] [] = [Snd; Rcv]
     ∧ peer_events (exchange_value peer_link 5 1) [7] [] = [Rcv; Snd])
  ∧ (peer_events (compute_secure_scalar_vector_product 0 10 x)
                 ([9] ++ frames px) (sm_frames0 ms)
     = repeat Rcv 4 ++ repeat Snd 4
     ∧ peer_events (compute_secure_scalar_vector_product 1 10 x)
                   ([9] ++ frames px) (sm_frames1 ms)
       = repeat Snd 4 ++ repeat Rcv 4)
  ∧ (peer_events (repair_exchange 0 5) [7] [] = [Rcv; Snd]
     ∧ peer_events (repair_exchange 1 5) [7] [] = [Snd; Rcv]).
Proof.
  intros md ms x y px py.
  apply (role_parity 2 x y px py 10 9 5 7 md ms [] []); try reflexivity.
  - repeat split; reflexivity.
  - repeat split; reflexivity.
Defined.

(** C8: Matrix persistence round-trip.  A 64-bit share that is saved (its
    low 32 bits, printed as an unsigned decimal numeral) and loaded again
    (parsed as [uint32_t], cast to [int32_t], sign-extended) gives a value
    congruent to the share modulo [2^32], and the share itself when it lies
    in [[-2^31, 2^31)]. *)
Theorem save_load_round_trip (share : Z) :
  ∃ loaded,
    save_then_load share = Some loaded
    ∧ eqm32 loaded share
    ∧ (- 2 ^ 31 <= share < 2 ^ 31 → loaded = share).
Proof.
  exists (to_i32 share). split; [apply save_then_load_spec|].
  split; [apply to_i32_eqm | apply to_i32_id].
Qed.

Lemma save_load_round_trip_witness :
  save_then_load (-5) = Some (-5) ∧ print_u32 (save_share (-5)) = "4294967291"%string.
Proof.
  destruct (save_load_round_trip (-5)) as (loaded & E & _ & Hid).
  split; [|reflexivity].
  rewrite E. f_equal. apply Hid. lia.
Defined.

(** A share outside the 32-bit range comes back reduced. *)
Example save_load_wraps :
  save_then_load (2 ^ 31) = Some (- 2 ^ 31)
  ∧ save_then_load (2 ^ 32 + 7) = Some 7.
Proof. split; reflexivity. Qed.

(** C9: Correctness-checker result contract, at an input with thirteen
    mismatches (a 4×3 matrix [U] and a 1×3 matrix [V], no query, initial
    shares 0, updated shares 1 and 0): the exit code is 1 and thirteen
    reports are printed, ten for [U] and three for [V], more than the ten
    that the closing message of the checker announces. *)
Theorem checker_reports_beyond_ten :
  let zeros (rows : nat) := replicate rows [0; 0; 0] in
  let ones (rows : nat) := replicate rows [1; 1; 1] in
  let result :=
    checker_main 4 1 3 (zeros 4%nat) (zeros 4%nat) (zeros 1%nat) (zeros 1%nat)
                 [] (ones 4%nat) (zeros 4%nat) (ones 1%nat) (zeros 1%nat) in
  result.1 = 1
  ∧ length result.2 = 13%nat
  ∧ length (List.filter (λ r, String.eqb (mm_matrix r) "U") result.2) = 10%nat
  ∧ length (List.filter (λ r, String.eqb (mm_matrix r) "V") result.2) = 3%nat.
Proof. vm_compute. repeat split; reflexivity. Qed.

(** C10: Key-pair invariant.  For every [(j, v, n)] and all draws, the two
    keys of [generateDPF] have the same correction words, one per level of
    the generation loop, and opposite signs: each sign is [+1] or [-1],
    they sum to 0, and they are the signs of the two final flags of the
    generation, which differ.  The loop keeps this for every number of
    levels: after [levels] rounds it has pushed [levels] words and its two
    flags differ; for [n < 2^32] the number of levels is the depth of the
    tree for [n].  Hence a leaf at which both keys reach the same seed and
    the same flag contributes 0 to the sum of the two evaluations once
    both keys carry the same final correction word [F]. *)
Theorem key_pair_invariant (prg : Z → ChildSeed) (j v n rs0 rs1 rR : Z) :
  let keys := generateDPF prg j v n rs0 rs1 rR in
  let st := gen_loop prg j (dpf_depth n) (Z.to_nat (dpf_depth n)) 0
              (mkGen rs0 rs1 false true []) in
  cws keys.1 = cws keys.2
  ∧ (0 <= n < 2 ^ 32 → length (cws keys.1) = Z.to_nat (dpf_depth n))
  ∧ (∀ (depth : Z) (levels : nat),
       let st' := gen_loop prg j depth levels 0
                    (mkGen rs0 rs1 false true []) in
       length (g_cws st') = levels ∧ g_f0 st' ≠ g_f1 st')
  ∧ (sign keys.1 = 1 ∨ sign keys.1 = -1)
  ∧ (sign keys.2 = 1 ∨ sign keys.2 = -1)
  ∧ sign keys.1 + sign keys.2 = 0
  ∧ g_f0 st ≠ g_f1 st
  ∧ sign keys.1 = sign_of_flag (g_f0 st)
  ∧ sign keys.2 = sign_of_flag (g_f1 st)
  ∧ ∀ (s F : Z) (f : bool),
      let value := if f then add64 (to_i64 s) F else to_i64 s in
      add64 (mul64 value (sign keys.1)) (mul64 value (sign keys.2)) = 0.
Proof.
  intros keys st.
  assert (Hf : g_f0 st ≠ g_f1 st) by (apply gen_loop_flags; discriminate).
  assert (H1 : sign keys.1 = sign_of_flag (g_f0 st)) by reflexivity.
  assert (H2 : sign keys.2 = sign_of_flag (g_f1 st)) by reflexivity.
  split; [apply generateDPF_cws|].
  split.
  { intros _.
    exact (gen_loop_cws_length prg j _ _ 0 (mkGen rs0 rs1 false true [])). }
  split.
  { intros depth levels st'. split.
    - exact (gen_loop_cws_length prg j _ _ 0 (mkGen rs0 rs1 false true [])).
    - apply gen_loop_flags. discriminate. }
  rewrite H1, H2, !sign_of_flag_cases.
  destruct (g_f0 st), (g_f1 st); try congruence;
    (repeat split; try (left; reflexivity); try (right; reflexivity);
     try reflexivity; try assumption;
     intros s F f value; transitivity (to_i64 0); [ring64 | reflexivity]).
Qed.

(** The keys of [generateDPF(1, 0, 4)] for the draws 0, 1 and 5. *)
Example key_pair_example :
  let keys := generateDPF PRG 1 0 4 0 1 5 in
  length (cws keys.1) = 2%nat ∧ sign keys.1 + sign keys.2 = 0.
Proof. vm_compute. split; reflexivity. Qed.

(** * Further properties of the code *)

(** ** The vector helpers of [common.hpp] *)

Lemma vec_add_None a : ∀ b, (length b < length a)%nat → vec_add a b = None.
Proof.
  induction a as [|x a IH]; intros [|y b] H; cbn in *; try lia; [reflexivity|].
  rewrite IH by lia. reflexivity.
Qed.

Lemma vec_sub_None a : ∀ b, (length b < length a)%nat → vec_sub a b = None.
Proof.
  induction a as [|x a IH]; intros [|y b] H; cbn in *; try lia; [reflexivity|].
  rewrite IH by lia. reflexivity.
Qed.

Lemma vec_dot_product_from_None a : ∀ b r,
  (length b < length a)%nat → vec_dot_product_from r a b = None.
Proof.
  induction a as [|x a IH]; intros [|y b] r H; cbn in *; try lia; [reflexivity|].
  apply IH. lia.
Qed.

(** X1: The loops of [vec_add], [vec_sub] and [vec_dot_product] run over the
    first vector and index the second without a size check: each is
    defined exactly when the second vector is at least as long as the
    first (a shorter one is read past its end), and a longer second vector
    is silently cut to the length of the first. *)
Theorem vector_helpers_bounds (a b : ShareVec) :
  (is_Some (vec_add a b) ↔ (length a <= length b)%nat)
  ∧ (is_Some (vec_sub a b) ↔ (length a <= length b)%nat)
  ∧ (is_Some (vec_dot_product a b) ↔ (length a <= length b)%nat)
  ∧ (∀ r, vec_add a b = Some r → length r = length a)
  ∧ (∀ r, vec_sub a b = Some r → length r = length a).
Proof.
  destruct (Nat.le_gt_cases (length a) (length b)) as [H | H].
  - rewrite vec_add_Some, vec_sub_Some, vec_dot_product_dot64 by assumption.
    repeat split; intros; try assumption; try (eexists; reflexivity).
    + injection H0 as <-. unfold vec_sum. rewrite length_zip_with. lia.
    + injection H0 as <-. rewrite length_zip_with. lia.
  - unfold vec_dot_product.
    rewrite vec_add_None, vec_sub_None, vec_dot_product_from_None by assumption.
    repeat split; intros; try lia; try discriminate;
      match goal with H : is_Some None |- _ => destruct H; discriminate end.
Qed.

Lemma vec_unmask a : ∀ b,
  (length a <= length b)%nat → Forall is_i64 a →
  vec_sub (vec_sum a b) b = Some a.
Proof.
  induction a as [|x a IH]; intros [|y b] H Ha; cbn in *; try lia;
    try reflexivity.
  apply Forall_cons in Ha as [Hx Ha].
  change (zip_with add64 a b) with (vec_sum a b).
  rewrite IH by (assumption || lia). cbn. f_equal. f_equal.
  rewrite <- (to_i64_id x) at 2 by assumption. ring64.
Qed.

(** X2: Masking cancels.  For 64-bit vectors [a] and a mask [b] of the
    same length, [vec_sub (vec_add a b) b] is [a] again, whatever wraps
    around on the way; and [vec_dot_product] is additive in its second
    argument in 64-bit arithmetic, which is what the servers rely on when
    they expand the products of masked vectors. *)
Theorem masking_cancels (a b c : ShareVec) :
  length b = length a → length c = length a → Forall is_i64 a →
  (masked ← vec_add a b; vec_sub masked b) = Some a
  ∧ (s ← vec_add b c; vec_dot_product a s)
    = (x ← vec_dot_product a b; y ← vec_dot_product a c; Some (add64 x y)).
Proof.
  intros Hb Hc Ha. split.
  - rewrite vec_add_Some by lia. cbn [mbind option_bind].
    apply vec_unmask; [lia | assumption].
  - rewrite vec_add_Some by lia. cbn [mbind option_bind].
    rewrite !vec_dot_product_dot64
      by (unfold vec_sum; rewrite ?length_zip_with; lia).
    cbn [mbind option_bind]. f_equal. unfold dot64.
    apply to_i64_proper. erase_wrap. apply dotZ_vec_sum_r. lia.
Qed.

Lemma masking_cancels_witness :
  (masked ← vec_add [5; - 2 ^ 63] [2 ^ 63 - 1; -1]; vec_sub masked [2 ^ 63 - 1; -1])
  = Some [5; - 2 ^ 63]
  ∧ (s ← vec_add [2 ^ 63 - 1; -1] [7; 8]; vec_dot_product [5; - 2 ^ 63] s)
    = (x ← vec_dot_product [5; - 2 ^ 63] [2 ^ 63 - 1; -1];
       y ← vec_dot_product [5; - 2 ^ 63] [7; 8]; Some (add64 x y)).
Proof.
  apply (masking_cancels [5; - 2 ^ 63] [2 ^ 63 - 1; -1] [7; 8]).
  - reflexivity.
  - reflexivity.
  - repeat constructor; unfold is_i64; lia.
Defined.

(** ** The rotation amount of the lookup ([pB.cpp]) *)

(** X3: The reduction of the combined offset in
    [retrieve_item_profile_shares] returns, for every signed 64-bit offset
    [c] and every item count [n] with [0 < n < 2^32], the residue of [c]
    modulo [n] in [0..n-1]; with no item the remainder divides by zero. *)
Theorem total_rotation_residue (c n : Z) :
  is_i64 c → 0 <= n < 2 ^ 32 →
  total_rotation_of c n = if n =? 0 then None else Some (c mod n).
Proof.
  intros Hc Hn. unfold total_rotation_of, rem64.
  destruct (Z.eqb_spec n 0) as [-> | Hn0].
  - destruct (c >=? 0); reflexivity.
  - pose proof (Z.mod_pos_bound c n ltac:(lia)) as Hm.
    destruct (c >=? 0) eqn:E; cbn [mbind option_bind].
    + apply Z.geb_le in E. rewrite Z.rem_mod_nonneg by lia.
      rewrite to_u32_small by lia. reflexivity.
    + assert (Hneg : c < 0) by (destruct (Z.geb_spec c 0); [discriminate | lia]).
      pose proof (Z.rem_bound_pos_neg c n ltac:(lia) ltac:(lia)) as Hr.
      unfold add64. rewrite (to_i64_id (n + Z.rem c n)) by (unfold is_i64; lia).
      cbn [mbind option_bind].
      rewrite Z.rem_mod_nonneg by lia.
      rewrite to_u32_small by (pose proof (Z.mod_pos_bound (n + Z.rem c n) n); lia).
      f_equal.
      rewrite (Z.rem_eq c n) by lia.
      replace (n + (c - n * (c ÷ n))) with (c + (1 - c ÷ n) * n) by ring.
      apply Z.mod_add. lia.
Qed.

Lemma total_rotation_residue_witness :
  total_rotation_of (-23) 8 = (if 8 =? 0 then None else Some ((-23) mod 8)).
Proof. apply (total_rotation_residue (-23) 8); unfold is_i64; lia. Defined.

(** ** Framing on a socket ([common.hpp]) *)

Lemma lrun_bind {A B} (p : proc link A) (k : A → proc link B) :
  ∀ pin hin,
    lrun (p ≫= k) pin hin
    = match lrun p pin hin with
      | Some (a, pin', hin') => lrun (k a) pin' hin'
      | None => None
      end.
Proof.
  induction p as [a | l v p IH | l p IH |]; intros pin hin.
  - reflexivity.
  - change (Send l v p ≫= k) with (Send l v (p ≫= k)). cbn [lrun]. apply IH.
  - change (Recv l p ≫= k) with (Recv l (λ v, p v ≫= k)).
    destruct l; cbn [lrun].
    + destruct hin as [|v hin]; [reflexivity | apply IH].
    + destruct pin as [|v pin]; [reflexivity | apply IH].
  - reflexivity.
Qed.

Lemma lrun_recv_words (count : nat) : ∀ (pin hin : list Z),
  lrun (recv_words peer_link count) pin hin
  = if (length pin <? count)%nat then None
    else Some (take count pin, drop count pin, hin).
Proof.
  induction count as [|count IH]; intros pin hin.
  - cbn. now rewrite drop_0.
  - destruct pin as [|x pin]; [reflexivity|].
    cbn [recv_words]. rewrite lrun_bind. cbn [recv_value lrun].
    rewrite lrun_bind, IH. cbn [length].
    change (S (length pin) <? S count)%nat with (length pin <? count)%nat.
    destruct (length pin <? count)%nat; reflexivity.
Qed.

(** X4: Framing of vectors.  [send_vector] writes the length and then the
    elements and reads nothing; [recv_vector] reads back exactly the
    vector that was written and leaves what follows on the stream (an
    empty vector is the single word 0).  On an arbitrary stream,
    [recv_vector] fails on a negative length word and does not return
    when fewer words follow than the length announces. *)
Theorem vector_framing (vec rest helper_in peer_in : list Z) (size : Z) :
  lsteps (send_vector peer_link vec) peer_in helper_in
         (Ret ()) peer_in helper_in (frames vec)
  ∧ lrun (recv_vector peer_link) (frames vec ++ rest) helper_in
    = Some (vec, rest, helper_in)
  ∧ lrun (recv_vector peer_link) (size :: rest) helper_in
    = if (size <? 0) || (Z.of_nat (length rest) <? size) then None
      else Some (take (Z.to_nat size) rest, drop (Z.to_nat size) rest, helper_in).
Proof.
  split; [apply lsteps_send_vector|].
  assert (Hrecv : ∀ sz tail,
    lrun (recv_vector peer_link) (sz :: tail) helper_in
    = if (sz <? 0) || (Z.of_nat (length tail) <? sz) then None
      else Some (take (Z.to_nat sz) tail, drop (Z.to_nat sz) tail, helper_in)).
  { intros sz tail. unfold recv_vector. rewrite lrun_bind.
    cbn [recv_value lrun].
    destruct (Z.ltb_spec sz 0) as [Hneg | Hpos]; [reflexivity|].
    rewrite lrun_recv_words. cbn [orb].
    destruct (Nat.ltb_spec (length tail) (Z.to_nat sz)),
             (Z.ltb_spec (Z.of_nat (length tail)) sz); try reflexivity; lia. }
  split; [|apply Hrecv].
  unfold frames. cbn [app]. rewrite Hrecv.
  destruct (Z.ltb_spec (Z.of_nat (length vec)) 0); [lia|].
  destruct (Z.ltb_spec (Z.of_nat (length (vec ++ rest))) (Z.of_nat (length vec)))
    as [Hlt | _]; [rewrite length_app in Hlt; lia|].
  cbn [orb]. rewrite Nat2Z.id, take_app_length, drop_app_length. reflexivity.
Qed.

(** X5: [exchange_value].  Called with role 0 on one side and role 1 on
    the other, the two parties swap their values, whatever the
    interleaving; two parties that both send first (role 0 twice) swap
    them as well; two parties that both receive first (any role other
    than 0 on both sides) cannot make a single step. *)
Theorem exchange_value_swaps (a b ROLE0 ROLE1 : Z) :
  completes (Cfg (exchange_value peer_link a 0) (exchange_value peer_link b 1)
                 [] [] [] []) b a
  ∧ completes (Cfg (exchange_value peer_link a 0) (exchange_value peer_link b 0)
                   [] [] [] []) b a
  ∧ (ROLE0 ≠ 0 → ROLE1 ≠ 0 →
     terminal (Cfg (exchange_value peer_link a ROLE0)
                   (exchange_value peer_link b ROLE1) [] [] [] [])).
Proof.
  split; [|split].
  - apply runs_completes. unfold runs, exchange_value.
    run0. run1. run0. apply rtc_refl.
  - apply runs_completes. unfold runs, exchange_value.
    run0. run1. run0. apply rtc_refl.
  - intros H0 H1 c' [Hs | Hs]; unfold exchange_value in Hs;
      apply Z.eqb_neq in H0, H1; rewrite H0, H1 in Hs; discriminate.
Qed.

Lemma exchange_value_swaps_witness :
  completes (Cfg (exchange_value peer_link 3 0) (exchange_value peer_link 4 1)
                 [] [] [] []) 4 3
  ∧ completes (Cfg (exchange_value peer_link 3 0) (exchange_value peer_link 4 0)
                   [] [] [] []) 4 3
  ∧ terminal (Cfg (exchange_value peer_link 3 1)
                  (exchange_value peer_link 4 1) [] [] [] []).
Proof.
  destruct (exchange_value_swaps 3 4 1 1) as (H1 & H2 & H3).
  split; [exact H1|]. split; [exact H2|]. apply H3; discriminate.
Defined.

(** ** What a server puts on the peer link ([pB.cpp]) *)

(** X6: In the secure inner product and in the secure scalar-vector
    product a server writes to the peer link only its inputs masked by the
    helper's material: the two framed vectors [x + X_b] and [y + Y_b] in
    the first, the word [α + A_b] and the framed vector [v + B_b] in the
    second, for either role and whatever the peer sends. *)
Theorem gadgets_send_masked (L : nat) (x y px py : list Z) (a pa : Z)
    (md : dot_material) (ms : scalar_material) :
  length x = L → length y = L → length px = L → length py = L →
  dm_wf L md → sm_wf L ms →
  (∃ z0 z1,
     lsteps (compute_secure_inner_product 0 x y)
            (frames px ++ frames py) (dm_frames0 md) (Ret z0) [] []
            (frames (vec_sum x (dm_X0 md)) ++ frames (vec_sum y (dm_Y0 md)))
     ∧ lsteps (compute_secure_inner_product 1 x y)
              (frames px ++ frames py) (dm_frames1 md) (Ret z1) [] []
              (frames (vec_sum x (dm_X1 md)) ++ frames (vec_sum y (dm_Y1 md))))
  ∧ (∃ w0 w1,
       lsteps (compute_secure_scalar_vector_product 0 a x)
              ([pa] ++ frames px) (sm_frames0 ms) (Ret w0) [] []
              ([add64 a (sm_A0 ms)] ++ frames (vec_sum x (sm_B0 ms)))
       ∧ lsteps (compute_secure_scalar_vector_product 1 a x)
                ([pa] ++ frames px) (sm_frames1 ms) (Ret w1) [] []
                ([add64 a (sm_A1 ms)] ++ frames (vec_sum x (sm_B1 ms)))).
Proof.
  intros Hx Hy Hpx Hpy (HX0 & HY0 & HX1 & HY1) (HB0 & HB1 & HR).
  split.
  - do 2 eexists. split.
    + unfold compute_secure_inner_product, dm_frames0.
      eapply lsteps_out_eq; [run|]. stream_norm. reflexivity.
    + unfold compute_secure_inner_product, dm_frames1.
      eapply lsteps_out_eq; [run|]. stream_norm. reflexivity.
  - do 2 eexists. split.
    + unfold compute_secure_scalar_vector_product, sm_frames0, sm_C0.
      eapply lsteps_out_eq; [run|]. stream_norm. reflexivity.
    + unfold compute_secure_scalar_vector_product, sm_frames1, sm_C1.
      eapply lsteps_out_eq; [run|]. stream_norm. reflexivity.
Qed.

Lemma gadgets_send_masked_witness :
  let md := mkDot [1; 2] [3; 4] [5; 6] [7; 8] 9 in
  let ms := mkScalar 3 4 [1; 2] [5; 6] [7; 8] in
  let x := [10; 20] in let y := [30; 40] in
  let px := [11; 12] in let py := [13; 14] in
  (∃ z0 z1,
     lsteps (compute_secure_inner_product 0 x y)
            (frames px ++ frames py) (dm_frames0 md) (Ret z0) [] []
            (frames (vec_sum x (dm_X0 md)) ++ frames (vec_sum y (dm_Y0 md)))
     ∧ lsteps (compute_secure_inner_product 1 x y)
              (frames px ++ frames py) (dm_frames1 md) (Ret z1) [] []
              (frames (vec_sum x (dm_X1 md)) ++ frames (vec_sum y (dm_Y1 md))))
  ∧ (∃ w0 w1,
       lsteps (compute_secure_scalar_vector_product 0 10 x)
              ([9] ++ frames px) (sm_frames0 ms) (Ret w0) [] []
              ([add64 10 (sm_A0 ms)] ++ frames (vec_sum x (sm_B0 ms)))
       ∧ lsteps (compute_secure_scalar_vector_product 1 10 x)
                ([9] ++ frames px) (sm_frames1 ms) (Ret w1) [] []
                ([add64 10 (sm_A1 ms)] ++ frames (vec_sum x (sm_B1 ms)))).
Proof.
  intros md ms x y px py.
  apply (gadgets_send_masked 2 x y px py 10 9 md ms); try reflexivity.
  - repeat split; reflexivity.
  - repeat split; reflexivity.
Defined.

(** ** The helper ([p2.cpp]) *)



(** ** The checker ([check_correctness.cpp]) *)

Lemma compare_entry_names name mpc cleartext i f st st' :
  compare_entry name mpc cleartext i f st = Some st' →
  Forall (λ r, mm_matrix r = name) (cs_printed st) →
  Forall (λ r, mm_matrix r = name) (cs_printed st').
Proof.
  unfold compare_entry. intros E H.
  destruct (mpc !! i) as [r|]; [|discriminate]. cbn in E.
  destruct (r !! f) as [x|]; [|discriminate]. cbn in E.
  destruct (cleartext !! i) as [r'|]; [|discriminate]. cbn in E.
  destruct (r' !! f) as [y|]; [|discriminate]. cbn in E.
  destruct (negb (x =? y)); injection E as <-; [|exact H]. cbn.
  destruct (cs_errors st <? MAX_ERRORS_TO_PRINT); [|exact H].
  apply Forall_app. split; [exact H | repeat constructor].
Qed.

Lemma compare_cols_names name mpc cleartext i todo : ∀ f st st',
  compare_cols name mpc cleartext i f todo st = Some st' →
  Forall (λ r, mm_matrix r = name) (cs_printed st) →
  Forall (λ r, mm_matrix r = name) (cs_printed st').
Proof.
  induction todo as [|todo IH]; intros f st st' E H; cbn in E.
  - now injection E as <-.
  - destruct (compare_entry name mpc cleartext i f st) as [st1|] eqn:E1;
      [|discriminate].
    cbn in E. eapply IH; [exact E|]. eapply compare_entry_names; eassumption.
Qed.

Lemma compare_rows_names name mpc cleartext cols todo : ∀ i st st',
  compare_rows name mpc cleartext cols i todo st = Some st' →
  Forall (λ r, mm_matrix r = name) (cs_printed st) →
  Forall (λ r, mm_matrix r = name) (cs_printed st').
Proof.
  induction todo as [|todo IH]; intros i st st' E H; cbn in E.
  - now injection E as <-.
  - destruct (compare_cols name mpc cleartext i 0 cols st) as [st1|] eqn:E1;
      [|discriminate].
    cbn in E. eapply IH; [exact E|]. eapply compare_cols_names; eassumption.
Qed.

Lemma compare_matrix_names name mpc cleartext rows cols st :
  compare_matrix name mpc cleartext rows cols = Some st →
  Forall (λ r, mm_matrix r = name) (cs_printed st).
Proof.
  intros E. eapply compare_rows_names; [exact E | constructor].
Qed.

Lemma filter_all (l : list mismatch) (name name' : string) :
  Forall (λ r, mm_matrix r = name) l → name = name' →
  List.filter (λ r, String.eqb (mm_matrix r) name') l = l.
Proof.
  intros H <-. induction H as [|r l Hr _ IH]; [reflexivity|].
  cbn. rewrite Hr, String.eqb_refl. now f_equal.
Qed.

Lemma filter_none (l : list mismatch) (name name' : string) :
  Forall (λ r, mm_matrix r = name) l → name ≠ name' →
  List.filter (λ r, String.eqb (mm_matrix r) name') l = [].
Proof.
  intros H Hne. induction H as [|r l Hr _ IH]; [reflexivity|].
  cbn. rewrite Hr. destruct (String.eqb_spec name name'); [contradiction|].
  exact IH.
Qed.

(** X8: The exit code of the checker.  On share files of the expected
    dimensions and in-range queries, the cleartext simulation succeeds and
    the checker exits with 0 exactly when every entry of the recombined
    updated shares equals the entry of the simulation converted to
    [uint32_t]; otherwise it exits with 1.  It prints at most ten
    reports for [U] and ten for [V], twenty in all.  The dimensions and
    the number of entries of the two matrices together are below [2^31]:
    the checker holds the sizes of [recombine_shares] and its two
    mismatch counters in [int]. *)
Theorem checker_exit_code (m n k : nat) (U0 U1 V0 V1 : ShareMat)
    (queries : list (Z * Z))
    (U0_updated U1_updated V0_updated V1_updated : list (list Z)) :
  Z.of_nat m < 2 ^ 31 → Z.of_nat n < 2 ^ 31 → Z.of_nat k < 2 ^ 31 →
  Z.of_nat (m * k) + Z.of_nat (n * k) < 2 ^ 31 →
  has_dims U0 m k → has_dims U1 m k → has_dims V0 n k → has_dims V1 n k →
  has_dims U0_updated m k → has_dims U1_updated m k →
  has_dims V0_updated n k → has_dims V1_updated n k →
  Forall (in_range m n) queries →
  ∃ U_initial V_initial U_cleartext V_cleartext U_mpc V_mpc code reports,
    recombine_shares U0 U1 = Some U_initial
    ∧ recombine_shares V0 V1 = Some V_initial
    ∧ apply_cleartext_updates (U_initial, V_initial) queries
      = Some (U_cleartext, V_cleartext)
    ∧ recombine_updated U0_updated U1_updated m k = Some U_mpc
    ∧ recombine_updated V0_updated V1_updated n k = Some V_mpc
    ∧ checker_main m n k U0 U1 V0 V1 queries
        U0_updated U1_updated V0_updated V1_updated = (code, reports)
    ∧ (code = 0
       ↔ agree U_mpc (convert_to_uint32_matrix U_cleartext) m k
         ∧ agree V_mpc (convert_to_uint32_matrix V_cleartext) n k)
    ∧ (code = 0 ∨ code = 1)
    ∧ (length (List.filter (λ r, String.eqb (mm_matrix r) "U") reports) <= 10)%nat
    ∧ (length (List.filter (λ r, String.eqb (mm_matrix r) "V") reports) <= 10)%nat
    ∧ (length reports <= 20)%nat.
Proof.
  intros Hm Hn Hk Hcount HU0 HU1 HV0 HV1 HU0u HU1u HV0u HV1u Hq.
  pose proof (mat_sum_dims _ _ _ _ HU0 HU1) as HU.
  pose proof (mat_sum_dims _ _ _ _ HV0 HV1) as HV.
  destruct (spec_iteration_dims m n k queries _ _ HU HV Hq) as [HUc HVc].
  pose proof (apply_cleartext_updates_spec m n k queries _ _ HU HV Hq) as Hclear.
  destruct (spec_iteration (mat_sum U0 U1, mat_sum V0 V1) queries)
    as [Uc Vc] eqn:Espec.
  cbn [fst snd] in HUc, HVc.
  pose proof (mat_sum32_dims _ _ _ _ HU0u HU1u) as HUm.
  pose proof (mat_sum32_dims _ _ _ _ HV0u HV1u) as HVm.
  assert (HUc' : has_dims (convert_to_uint32_matrix Uc) m k)
    by (rewrite convert_to_uint32_matrix_mod32; now apply mod32_dims).
  assert (HVc' : has_dims (convert_to_uint32_matrix Vc) n k)
    by (rewrite convert_to_uint32_matrix_mod32; now apply mod32_dims).
  destruct (compare_matrix_spec "U"%string _ _ m k HUm HUc') as (u & Eu & Hu & Lu).
  destruct (compare_matrix_spec "V"%string _ _ n k HVm HVc') as (v & Ev & Hv & Lv).
  pose proof (compare_matrix_names "U"%string _ _ m k u Eu) as Nu.
  pose proof (compare_matrix_names "V"%string _ _ n k v Ev) as Nv.
  exists (mat_sum U0 U1), (mat_sum V0 V1), Uc, Vc.
  exists (mat_sum32 U0_updated U1_updated), (mat_sum32 V0_updated V1_updated).
  exists (if cs_ok u && cs_ok v then 0 else 1), (cs_printed u ++ cs_printed v).
  split; [now apply (recombine_shares_Some U0 U1 m k)|].
  split; [now apply (recombine_shares_Some V0 V1 n k)|].
  split; [exact Hclear|].
  split; [now apply recombine_updated_Some|].
  split; [now apply recombine_updated_Some|].
  split.
  { unfold checker_main.
    rewrite (recombine_shares_Some U0 U1 m k),
            (recombine_shares_Some V0 V1 n k) by assumption.
    cbn [mbind option_bind]. rewrite Hclear. cbn [mbind option_bind].
    rewrite (recombine_updated_Some U0_updated U1_updated m k),
            (recombine_updated_Some V0_updated V1_updated n k) by assumption.
    cbn [mbind option_bind]. unfold compare_results.
    rewrite Eu, Ev. reflexivity. }
  split.
  { rewrite <- Hu, <- Hv.
    destruct (cs_ok u), (cs_ok v); cbn; intuition (try lia; try discriminate). }
  split; [destruct (cs_ok u && cs_ok v); auto|].
  rewrite !List.filter_app, !length_app.
  rewrite (filter_all _ _ _ Nu eq_refl), (filter_none _ _ "U"%string Nv)
    by discriminate.
  rewrite (filter_none _ _ "V"%string Nu), (filter_all _ _ _ Nv eq_refl)
    by discriminate.
  cbn [length]. lia.
Qed.

Lemma checker_exit_code_witness :
  ∃ U_initial V_initial U_cleartext V_cleartext U_mpc V_mpc code reports,
    recombine_shares [[1]] [[2]] = Some U_initial
    ∧ recombine_shares [[3]] [[4]] = Some V_initial
    ∧ apply_cleartext_updates (U_initial, V_initial) [(0, 0)]
      = Some (U_cleartext, V_cleartext)
    ∧ recombine_updated [[5]] [[6]] 1 1 = Some U_mpc
    ∧ recombine_updated [[7]] [[8]] 1 1 = Some V_mpc
    ∧ checker_main 1 1 1 [[1]] [[2]] [[3]] [[4]] [(0, 0)]
        [[5]] [[6]] [[7]] [[8]] = (code, reports)
    ∧ (code = 0
       ↔ agree U_mpc (convert_to_uint32_matrix U_cleartext) 1 1
         ∧ agree V_mpc (convert_to_uint32_matrix V_cleartext) 1 1)
    ∧ (code = 0 ∨ code = 1)
    ∧ (length (List.filter (λ r, String.eqb (mm_matrix r) "U") reports) <= 10)%nat
    ∧ (length (List.filter (λ r, String.eqb (mm_matrix r) "V") reports) <= 10)%nat
    ∧ (length reports <= 20)%nat.
Proof.
  apply (checker_exit_code 1 1 1 [[1]] [[2]] [[3]] [[4]] [(0, 0)]
           [[5]] [[6]] [[7]] [[8]]);
    try reflexivity;
    try (split; [reflexivity | repeat constructor]).
  repeat constructor; cbn; lia.
Defined.

Lemma apply_cleartext_updates_app (pre post : list (Z * Z)) : ∀ matrices,
  apply_cleartext_updates matrices (pre ++ post)
  = (matrices' ← apply_cleartext_updates matrices pre;
     apply_cleartext_updates matrices' post).
Proof.
  induction pre as [|query pre IH]; intros matrices; [reflexivity|].
  cbn [app apply_cleartext_updates].
  destruct (cleartext_update matrices query) as [matrices1|]; [|reflexivity].
  cbn [mbind option_bind]. apply IH.
Qed.

(** X9: A query out of range stops the checker.  When the query stream
    holds, after in-range queries, a query whose user index is not below
    the number of users or whose item index is not below the number of
    items, [apply_cleartext_updates] throws, and the checker exits with 1
    without comparing anything, whatever the updated share files hold. *)
Theorem checker_rejects_query_out_of_range (m n k : nat)
    (U0 U1 V0 V1 : ShareMat) (pre post : list (Z * Z)) (i j : Z)
    (U0_updated U1_updated V0_updated V1_updated : list (list Z)) :
  has_dims U0 m k → has_dims U1 m k → has_dims V0 n k → has_dims V1 n k →
  Forall (in_range m n) pre →
  Z.of_nat m <= i ∨ Z.of_nat n <= j →
  apply_cleartext_updates (mat_sum U0 U1, mat_sum V0 V1) (pre ++ (i, j) :: post)
  = None
  ∧ checker_main m n k U0 U1 V0 V1 (pre ++ (i, j) :: post)
      U0_updated U1_updated V0_updated V1_updated = (1, []).
Proof.
  intros HU0 HU1 HV0 HV1 Hpre Hbad.
  pose proof (mat_sum_dims _ _ _ _ HU0 HU1) as HU.
  pose proof (mat_sum_dims _ _ _ _ HV0 HV1) as HV.
  assert (E : apply_cleartext_updates (mat_sum U0 U1, mat_sum V0 V1)
                (pre ++ (i, j) :: post) = None).
  { rewrite apply_cleartext_updates_app.
    rewrite (apply_cleartext_updates_spec m n k) by assumption.
    cbn [mbind option_bind].
    destruct (spec_iteration_dims m n k pre _ _ HU HV Hpre) as [[HUl _] [HVl _]].
    destruct (spec_iteration (mat_sum U0 U1, mat_sum V0 V1) pre) as [U V].
    cbn [fst snd] in HUl, HVl.
    cbn [apply_cleartext_updates]. unfold cleartext_update.
    rewrite HUl, HVl.
    assert ((Z.of_nat m <=? i) || (Z.of_nat n <=? j) = true) as ->.
    { apply orb_true_iff.
      destruct Hbad; [left | right]; now apply Z.leb_le. }
    reflexivity. }
  split; [exact E|].
  unfold checker_main.
  rewrite (recombine_shares_Some U0 U1 m k),
          (recombine_shares_Some V0 V1 n k) by assumption.
  cbn [mbind option_bind]. rewrite E. reflexivity.
Qed.

Lemma checker_rejects_query_out_of_range_witness :
  apply_cleartext_updates (mat_sum [[1]] [[2]], mat_sum [[3]] [[4]])
    ([(0, 0)] ++ (0, 1) :: [(0, 0)]) = None
  ∧ checker_main 1 1 1 [[1]] [[2]] [[3]] [[4]] ([(0, 0)] ++ (0, 1) :: [(0, 0)])
      [[5]] [[6]] [[7]] [[8]] = (1, []).
Proof.
  apply (checker_rejects_query_out_of_range 1 1 1 [[1]] [[2]] [[3]] [[4]]
           [(0, 0)] [(0, 0)] 0 1 [[5]] [[6]] [[7]] [[8]]);
    try (split; [reflexivity | repeat constructor]).
  - repeat constructor; cbn; lia.
  - right. reflexivity.
Defined.

(** ** The distributed point function on any index *)

Section DPFIndex.

Variable prg : Z → ChildSeed.

(** Generation reads the index through its path bits only. *)
Lemma gen_loop_path_bits j j' d todo : ∀ i st,
  (∀ l, i <= l < i + Z.of_nat todo → path_bit j d l = path_bit j' d l) →
  gen_loop prg j d todo i st = gen_loop prg j' d todo i st.
Proof.
  induction todo as [|todo IH]; intros i st H; [reflexivity|].
  cbn [gen_loop].
  assert (E : gen_level prg j d i st = gen_level prg j' d i st).
  { unfold gen_level. rewrite (H i) by lia. reflexivity. }
  rewrite E. apply IH. intros l Hl. apply H. lia.
Qed.

Lemma path_bit_mod j d l :
  0 <= l < d → path_bit (j mod 2 ^ d) d l = path_bit j d l.
Proof.
  intros Hl. unfold path_bit. apply Z.mod_pow2_bits_low. lia.
Qed.

Lemma generateDPF_index_mod j v n rs0 rs1 rR :
  generateDPF prg j v n rs0 rs1 rR
  = generateDPF prg (j mod 2 ^ dpf_depth n) v n rs0 rs1 rR.
Proof.
  pose proof (dpf_depth_pos n) as Hd.
  unfold generateDPF. cbv zeta.
  rewrite (gen_loop_path_bits j (j mod 2 ^ dpf_depth n)); [reflexivity|].
  intros l Hl. symmetry. apply path_bit_mod. lia.
Qed.

(** The pair of evaluations at a leaf of the tree, for an index of the
    tree. *)
Lemma evalDPF_pair_tree j v n rs0 rs1 rR F t :
  0 <= j < 2 ^ dpf_depth n → 0 <= t < 2 ^ dpf_depth n →
  ∃ a b,
    evalDPF prg (with_FCW (generateDPF prg j v n rs0 rs1 rR).1 F) t n = Some a
    ∧ evalDPF prg (with_FCW (generateDPF prg j v n rs0 rs1 rR).2 F) t n = Some b
    ∧ add64 a b =
         if t =? j
         then to_i64 (F + FCW (generateDPF prg j v n rs0 rs1 rR).1
                        + FCW (generateDPF prg j v n rs0 rs1 rR).2 - v)
         else 0.
Proof.
  intros Hj Ht.
  rewrite !evalDPF_with_FCW.
  pose proof (dpf_depth_pos n) as Hd.
  set (d := dpf_depth n) in *.
  set (st0 := {| g_s0 := rs0; g_s1 := rs1; g_f0 := false; g_f1 := true;
                 g_cws := [] |}).
  set (st := gen_loop prg j d (Z.to_nat d) 0 st0).
  set (k0 := {| s_root := rs0; f_root := false; cws := g_cws st;
        FCW := add64 rR (mul64 (sign_of_flag (g_f0 st)) (to_i64 (g_s0 st)));
        sign := sign_of_flag (g_f0 st) |}).
  set (k1 := {| s_root := rs1; f_root := true; cws := g_cws st;
        FCW := add64 (sub64 v rR) (mul64 (sign_of_flag (g_f1 st)) (to_i64 (g_s1 st)));
        sign := sign_of_flag (g_f1 st) |}).
  change (generateDPF prg j v n rs0 rs1 rR) with (k0, k1).
  cbn [fst snd].
  change (s_root k0) with rs0. change (s_root k1) with rs1.
  change (f_root k0) with false. change (f_root k1) with true.
  destruct (Z.eqb_spec t j) as [-> | Hne].
  - destruct (gen_loop_on_path prg k0 j d (Z.to_nat d) 0 st0 [])
      as (E0 & _ & Hf);
      [lia | reflexivity | simpl; now rewrite app_nil_r | simpl; congruence |].
    destruct (gen_loop_on_path prg k1 j d (Z.to_nat d) 0 st0 [])
      as (_ & E1 & _);
      [lia | reflexivity | simpl; now rewrite app_nil_r | simpl; congruence |].
    cbn [g_s0 g_s1 g_f0 g_f1 st0] in E0, E1. fold st in E0, E1, Hf.
    rewrite E0, E1. cbn [mbind option_bind].
    do 2 eexists. split; [reflexivity|]. split; [reflexivity|].
    subst k0 k1. cbn [FCW sign]. rewrite !sign_of_flag_cases.
    destruct (g_f0 st), (g_f1 st); try congruence; ring64.
  - destruct (leaves_differ t j d) as (l & Hl & Hbit);
      [lia | lia | lia | assumption |].
    destruct (gen_loop_off_path prg k0 t j d (Z.to_nat d) 0 st0 [])
      as (sf & E0 & E1');
      [lia | reflexivity | simpl; now rewrite app_nil_r | simpl; congruence
      | eauto |].
    destruct (gen_loop_on_path prg k0 j d (Z.to_nat d) 0 st0 [])
      as (_ & _ & Hf);
      [lia | reflexivity | simpl; now rewrite app_nil_r | simpl; congruence |].
    fold st in Hf.
    assert (E1 : eval_loop prg k1 t d (Z.to_nat d) 0 (rs1, true) = Some sf).
    { rewrite <- E1'. now apply eval_loop_cws_ext. }
    cbn [g_s0 g_s1 g_f0 g_f1 st0] in E0. rewrite E0, E1.
    destruct sf as [s f]. cbn [mbind option_bind].
    do 2 eexists. split; [reflexivity|]. split; [reflexivity|].
    subst k0 k1. cbn [FCW sign]. rewrite !sign_of_flag_cases.
    destruct f, (g_f0 st), (g_f1 st); try congruence;
      apply (to_i64_proper _ 0); erase_wrap; apply eqm64_eq; ring.
Qed.

(** X10: [generateDPF] reads only the low [depth] bits of its index,
    where [depth] is the depth of the tree for the domain size.  For a
    domain size [n < 2^32] and any index [j], once both keys carry a
    common final correction word [F], the two evaluations over the [n]
    leaves sum to the point vector at [j mod 2^depth]; when that index
    is not below [n] (an index outside the domain), they sum to 0 at
    every leaf. *)
Theorem dpf_index_wraps (j v : Z) (n : nat) (rs0 rs1 rR F : Z) :
  Z.of_nat n < 2 ^ 32 →
  let keys := generateDPF prg j v (Z.of_nat n) rs0 rs1 rR in
  let j' := j mod 2 ^ dpf_depth (Z.of_nat n) in
  ∃ l0 l1,
    EvalFull prg (with_FCW keys.1 F) (Z.of_nat n) = Some l0
    ∧ EvalFull prg (with_FCW keys.2 F) (Z.of_nat n) = Some l1
    ∧ length l0 = n ∧ length l1 = n
    ∧ vec_sum l0 l1
      = point_vector n j' (to_i64 (F + FCW keys.1 + FCW keys.2 - v))
    ∧ (Z.of_nat n <= j' → vec_sum l0 l1 = replicate n 0).
Proof.
  intros Hn keys j'.
  pose proof (dpf_depth_pos (Z.of_nat n)) as Hd.
  assert (Hj' : 0 <= j' < 2 ^ dpf_depth (Z.of_nat n))
    by (apply Z.mod_pos_bound; lia).
  pose proof (dpf_depth_bound (Z.of_nat n)) as Hb.
  assert (Ekeys : keys = generateDPF prg j' v (Z.of_nat n) rs0 rs1 rR)
    by apply generateDPF_index_mod.
  assert (Hpair : ∀ t, (t < n)%nat → ∃ a b,
    evalDPF prg (with_FCW keys.1 F) (Z.of_nat t) (Z.of_nat n) = Some a
    ∧ evalDPF prg (with_FCW keys.2 F) (Z.of_nat t) (Z.of_nat n) = Some b
    ∧ add64 a b = if Z.of_nat t =? j'
                  then to_i64 (F + FCW keys.1 + FCW keys.2 - v) else 0).
  { intros t Ht. rewrite Ekeys. apply evalDPF_pair_tree; lia. }
  eexists. eexists.
  split; [apply EvalFull_Some; intros t Ht;
          destruct (Hpair t Ht) as (a & b & Ea & Eb & _); rewrite Ea; eauto|].
  split; [apply EvalFull_Some; intros t Ht;
          destruct (Hpair t Ht) as (a & b & Ea & Eb & _); rewrite Eb; eauto|].
  split; [now rewrite length_map, length_seq|].
  split; [now rewrite length_map, length_seq|].
  assert (Hsum :
    vec_sum
      (map (λ t : nat, default 0 (evalDPF prg (with_FCW keys.1 F)
                                    (Z.of_nat t) (Z.of_nat n))) (seq 0 n))
      (map (λ t : nat, default 0 (evalDPF prg (with_FCW keys.2 F)
                                    (Z.of_nat t) (Z.of_nat n))) (seq 0 n))
    = point_vector n j' (to_i64 (F + FCW keys.1 + FCW keys.2 - v))).
  { unfold vec_sum, point_vector. apply list_eq. intros i.
    rewrite lookup_zip_with, !list_lookup_fmap.
    destruct (seq 0 n !! i) as [t|] eqn:Hi; [|reflexivity].
    apply lookup_seq in Hi as [-> Hlt].
    cbn [mbind option_bind fmap option_fmap option_map Nat.add].
    destruct (Hpair i Hlt) as (a & b & Ea & Eb & Hab).
    rewrite Ea, Eb. cbn [default]. unfold id. now rewrite Hab. }
  split; [exact Hsum|].
  intros Hout. rewrite Hsum. unfold point_vector.
  apply list_eq. intros i.
  rewrite list_lookup_fmap.
  destruct (decide (i < n)%nat) as [Hlt | Hge].
  - rewrite lookup_seq_lt by lia. cbn.
    destruct (Z.eqb_spec (Z.of_nat i) j'); [lia|].
    now rewrite lookup_replicate_2.
  - rewrite (lookup_ge_None_2 (seq 0 n)) by (rewrite length_seq; lia).
    rewrite lookup_ge_None_2 by (rewrite length_replicate; lia).
    reflexivity.
Qed.

End DPFIndex.

Lemma dpf_index_wraps_witness :
  let keys := generateDPF PRG 6 7 (Z.of_nat 5) 0 1 5 in
  ∃ l0 l1,
    EvalFull PRG (with_FCW keys.1 3) (Z.of_nat 5) = Some l0
    ∧ EvalFull PRG (with_FCW keys.2 3) (Z.of_nat 5) = Some l1
    ∧ vec_sum l0 l1 = replicate 5 0.
Proof.
  intros keys.
  destruct (dpf_index_wraps PRG 6 7 5 0 1 5 3)
    as (l0 & l1 & E0 & E1 & _ & _ & _ & Hzero); [reflexivity|].
  exists l0, l1. split; [exact E0|]. split; [exact E1|].
  apply Hzero. vm_compute. discriminate.
Defined.

(** An index outside the domain: five leaves (depth 3) and index 6, then
    index 9, which the generation reads as 1. *)
Example dpf_index_wraps_example :
  (let keys := generateDPF PRG 6 7 5 0 1 5 in
   l0 ← EvalFull PRG (with_FCW keys.1 3) 5;
   l1 ← EvalFull PRG (with_FCW keys.2 3) 5;
   Some (vec_sum l0 l1)) = Some [0; 0; 0; 0; 0]
  ∧ generateDPF PRG 9 7 5 0 1 5 = generateDPF PRG 1 7 5 0 1 5.
Proof. split; vm_compute; reflexivity. Qed.

(** ** Keys of any origin *)

(** X11: Evaluation stays inside the key.  [EvalFull] on any key that
    holds at least as many correction words as the tree for the domain
    size has levels (a key read from a query file, say) returns a vector
    of the domain size and never reads outside [cws]; a key with no
    correction word whose root flag is set is read outside [cws] at the
    first level. *)
Theorem EvalFull_within_key (prg : Z → ChildSeed) (key : DPFKey) (n : nat) :
  ((Z.to_nat (dpf_depth (Z.of_nat n)) <= length (cws key))%nat →
   ∃ l, EvalFull prg key (Z.of_nat n) = Some l ∧ length l = n)
  ∧ (cws key = [] → f_root key = true → (0 < n)%nat →
     EvalFull prg key (Z.of_nat n) = None).
Proof.
  split.
  - intros Hlen. eexists. split.
    + apply EvalFull_Some. intros t Ht. unfold evalDPF.
      destruct (eval_loop_is_Some prg key (Z.of_nat t) (dpf_depth (Z.of_nat n))
                  (Z.to_nat (dpf_depth (Z.of_nat n))) 0 (s_root key, f_root key))
        as [[s f] E]; [lia | cbn; lia |].
      rewrite E. cbn. eauto.
    + now rewrite length_map, length_seq.
  - intros Hcws Hroot Hn. unfold EvalFull. rewrite Nat2Z.id.
    destruct n as [|n]; [lia|].
    assert (E : evalDPF prg key (Z.of_nat 0) (Z.of_nat (S n)) = None).
    { unfold evalDPF.
      pose proof (dpf_depth_pos (Z.of_nat (S n))) as Hd.
      destruct (Z.to_nat (dpf_depth (Z.of_nat (S n)))) as [|todo] eqn:Etodo;
        [lia|].
      cbn [eval_loop]. unfold eval_level.
      rewrite Hroot, Hcws. reflexivity. }
    cbn [seq mapM]. rewrite E. reflexivity.
Qed.

Lemma EvalFull_within_key_witness :
  (∃ l, EvalFull PRG (mkKey 7 true [mkCW 3 true false; mkCW 4 false true] 9 1)
          (Z.of_nat 3) = Some l ∧ length l = 3%nat)
  ∧ EvalFull PRG (mkKey 7 true [] 9 1) (Z.of_nat 3) = None.
Proof.
  destruct (EvalFull_within_key PRG
              (mkKey 7 true [mkCW 3 true false; mkCW 4 false true] 9 1) 3)
    as [H _].
  destruct (EvalFull_within_key PRG (mkKey 7 true [] 9 1) 3) as [_ H'].
  split; [apply H; vm_compute; lia | apply H'; [reflexivity | reflexivity | lia]].
Defined.

(** ** The 128-bit DPF of the query generator *)

(** *** Bits and residues *)

Lemma mod_pow2_eq_bits (a b k : Z) :
  0 <= k →
  a mod 2 ^ k = b mod 2 ^ k ↔ ∀ i, 0 <= i < k → Z.testbit a i = Z.testbit b i.
Proof.
  intros Hk. split.
  - intros E i Hi.
    rewrite <- (Z.mod_pow2_bits_low a k i), <- (Z.mod_pow2_bits_low b k i) by lia.
    now rewrite E.
  - intros H. apply Z.bits_inj'. intros i Hi.
    destruct (Z_lt_ge_dec i k) as [Hlt | Hge].
    + rewrite !Z.mod_pow2_bits_low by lia. apply H. lia.
    + rewrite !Z.mod_pow2_bits_high by lia. reflexivity.
Qed.

Lemma mod_pow2_eq_succ (a b t : Z) :
  0 <= t →
  a mod 2 ^ (t + 1) = b mod 2 ^ (t + 1)
  ↔ Z.testbit a t = Z.testbit b t ∧ a mod 2 ^ t = b mod 2 ^ t.
Proof.
  intros Ht. rewrite !mod_pow2_eq_bits by lia. split.
  - intros H. split; [apply H; lia | intros i Hi; apply H; lia].
  - intros [Hb H] i Hi.
    destruct (Z.eq_dec i t) as [-> | Hne]; [exact Hb | apply H; lia].
Qed.

Lemma testbit_block (i p t : Z) :
  0 <= t → p * 2 ^ t <= i < (p + 1) * 2 ^ t → Z.testbit i t = Z.odd p.
Proof.
  intros Ht Hi.
  assert (Hpow : 0 < 2 ^ t) by (apply Z.pow_pos_nonneg; lia).
  rewrite Z.testbit_odd, Z.shiftr_div_pow2 by lia.
  f_equal. symmetry. apply Z.div_unique with (r := i - p * 2 ^ t); lia.
Qed.

Lemma lxor_to_u64 (a b : Z) :
  to_u64 (Z.lxor a b) = Z.lxor (to_u64 a) (to_u64 b).
Proof.
  unfold to_u64. apply Z.bits_inj'. intros i Hi.
  rewrite Z.lxor_spec.
  destruct (Z_lt_ge_dec i 64) as [Hlt | Hge].
  - rewrite !Z.mod_pow2_bits_low by lia. now rewrite Z.lxor_spec.
  - rewrite !Z.mod_pow2_bits_high by lia. reflexivity.
Qed.

(** Equations between XORs, bit by bit. *)
Ltac xor_bits :=
  apply Z.bits_inj'; intros ?n ?Hn;
  rewrite ?Z.lxor_spec, ?Z.bits_0;
  repeat match goal with
         | |- context [Z.testbit ?a ?n] => destruct (Z.testbit a n)
         end;
  reflexivity.

Section A2Facts.

Variable SHA256 : list Z → list Z.


(** *** Generation: one correction word per level, flags kept apart *)

Lemma a2_gen_level_flags location bits i st :
  A2.g_t0 st ≠ A2.g_t1 st →
  A2.g_t0 (A2.gen_level SHA256 location bits i st)
  ≠ A2.g_t1 (A2.gen_level SHA256 location bits i st).
Proof.
  unfold A2.gen_level. cbn [A2.g_t0 A2.g_t1].
  generalize (A2.prg_expand SHA256 (A2.g_s0 st)) as out0.
  generalize (A2.prg_expand SHA256 (A2.g_s1 st)) as out1.
  intros [sl1 sr1 tl1 tr1] [sl0 sr0 tl0 tr0].
  destruct (A2.path_bit location bits i), (A2.g_t0 st), (A2.g_t1 st),
    tl0, tl1, tr0, tr1; cbn; congruence.
Qed.

(** The walk from a node of the path: the two parties' leaves differ by
    the final seeds and the final word at the leaves of the location,
    and agree everywhere else. *)
Lemma a2_gen_loop_leaves location bits todo : ∀ i st,
  i + Z.of_nat todo = bits → 0 <= i →
  A2.g_t0 st ≠ A2.g_t1 st →
  let fin := A2.gen_loop SHA256 location bits todo i st in
  ∃ rest,
    A2.g_cws fin = A2.g_cws st ++ rest
    ∧ length rest = todo
    ∧ A2.g_t0 fin ≠ A2.g_t1 fin
    ∧ ∀ fcw index,
        Z.lxor (A2.leaf_value SHA256 fcw rest (A2.g_s0 st) (A2.g_t0 st) index)
               (A2.leaf_value SHA256 fcw rest (A2.g_s1 st) (A2.g_t1 st) index)
        = if index mod 2 ^ Z.of_nat todo =? location mod 2 ^ Z.of_nat todo
          then Z.lxor (Z.lxor (to_u64 (A2.g_s0 fin)) (to_u64 (A2.g_s1 fin))) fcw
          else 0.
Proof.
  induction todo as [|todo IH]; intros i st Hi Hi0 Hflags fin.
  - exists []. subst fin. cbn [A2.gen_loop A2.leaf_value length].
    split; [now rewrite app_nil_r|]. split; [reflexivity|].
    split; [assumption|]. intros fcw index.
    change (2 ^ Z.of_nat 0) with 1. rewrite !Z.mod_1_r. cbn [Z.eqb].
    destruct (A2.g_t0 st), (A2.g_t1 st); try congruence.
    + xor_bits.
    + xor_bits.
  - set (st1 := A2.gen_level SHA256 location bits i st).
    destruct (IH (i + 1) st1) as (rest & Hcws & Hlen & Hfin & Hleaves);
      [lia | lia | now apply a2_gen_level_flags |].
    change (A2.gen_loop SHA256 location bits (S todo) i st)
      with (A2.gen_loop SHA256 location bits todo (i + 1) st1) in fin.
    fold fin in Hcws, Hfin, Hleaves.
    set (pb := A2.path_bit location bits i).
    set (out0 := A2.prg_expand SHA256 (A2.g_s0 st)).
    set (out1 := A2.prg_expand SHA256 (A2.g_s1 st)).
    set (cw := if negb pb then
            {| A2.s_cw_left := 0;
               A2.s_cw_right := Z.lxor (A2.s_right out0) (A2.s_right out1);
               A2.t_cw_left := xorb (xorb (A2.t_left out0) (A2.t_left out1)) true;
               A2.t_cw_right := xorb (A2.t_right out0) (A2.t_right out1) |}
          else
            {| A2.s_cw_left := Z.lxor (A2.s_left out0) (A2.s_left out1);
               A2.s_cw_right := 0;
               A2.t_cw_left := xorb (A2.t_left out0) (A2.t_left out1);
               A2.t_cw_right := xorb (xorb (A2.t_right out0) (A2.t_right out1)) true |}).
    assert (Hst1 : A2.g_cws st1 = A2.g_cws st ++ [cw]) by reflexivity.
    exists (cw :: rest).
    split; [rewrite Hcws, Hst1, <- app_assoc; reflexivity|].
    split; [cbn; now rewrite Hlen|].
    split; [assumption|].
    intros fcw index.
    assert (Hpb : pb = Z.testbit location (Z.of_nat todo)).
    { unfold pb, A2.path_bit. f_equal. lia. }
    cbn [A2.leaf_value]. rewrite Hlen.
    fold out0 out1.
    replace (Z.of_nat (S todo)) with (Z.of_nat todo + 1) by lia.
    destruct (Z.eqb_spec (index mod 2 ^ (Z.of_nat todo + 1))
                         (location mod 2 ^ (Z.of_nat todo + 1))) as [E | E].
    + (* on the path *)
      apply mod_pow2_eq_succ in E as [Ebit Elow]; [|lia].
      specialize (Hleaves fcw index).
      rewrite Elow, Z.eqb_refl in Hleaves.
      etrans; [|exact Hleaves].
      rewrite Ebit, <- Hpb.
      subst st1. unfold A2.gen_level. cbn [A2.g_s0 A2.g_s1 A2.g_t0 A2.g_t1].
      fold pb out0 out1 cw.
      destruct pb; reflexivity.
    + (* off the path *)
      destruct (bool_dec (Z.testbit index (Z.of_nat todo))
                         (Z.testbit location (Z.of_nat todo))) as [Ebit | Ebit].
      * (* the level agrees, a lower one does not *)
        assert (Elow : index mod 2 ^ Z.of_nat todo ≠ location mod 2 ^ Z.of_nat todo).
        { intros Elow. apply E. apply mod_pow2_eq_succ; [lia | now split]. }
        specialize (Hleaves fcw index).
        apply Z.eqb_neq in Elow. rewrite Elow in Hleaves.
        etrans; [|exact Hleaves].
        rewrite Ebit, <- Hpb.
        subst st1. unfold A2.gen_level. cbn [A2.g_s0 A2.g_s1 A2.g_t0 A2.g_t1].
        fold pb out0 out1 cw.
        destruct pb; reflexivity.
      * (* the walk leaves the path here: both parties reach the same node *)
        rewrite <- Hpb in Ebit.
        match goal with
        | |- Z.lxor ?a ?b = 0 => assert (a = b) as ->; [|apply Z.lxor_nilpotent]
        end.
        subst cw.
        destruct out0 as [sl0 sr0 tl0 tr0], out1 as [sl1 sr1 tl1 tr1].
        cbn [A2.s_left A2.s_right A2.t_left A2.t_right].
        destruct (Z.testbit index (Z.of_nat todo)), pb; try congruence;
          cbn [negb A2.s_cw_left A2.s_cw_right A2.t_cw_left A2.t_cw_right];
          destruct (A2.g_t0 st), (A2.g_t1 st); try congruence;
          (f_equal; [xor_bits | destruct tl0, tl1, tr0, tr1; reflexivity]).
Qed.

(** *** Evaluation writes the leaves of a subtree *)

Lemma a2_eval_recursive_spec key todo : ∀ level s f result path,
  (level + todo = length (A2.correction_words key))%nat →
  0 <= path →
  (path + 1) * 2 ^ Z.of_nat todo <= Z.of_nat (length result) →
  Z.of_nat (length result) < 2 ^ 64 →
  ∃ result',
    A2.eval_recursive SHA256 key todo level s f result path = Some result'
    ∧ length result' = length result
    ∧ ∀ i : nat,
        result' !! i
        = if decide (path * 2 ^ Z.of_nat todo <= Z.of_nat i
                     < (path + 1) * 2 ^ Z.of_nat todo)
          then Some (A2.leaf_value SHA256 (A2.final_correction_word key)
                       (drop level (A2.correction_words key)) s f (Z.of_nat i))
          else result !! i.
Proof.
  induction todo as [|todo IH]; intros level s f result path Hlev Hp Hfit Hlen.
  - change (2 ^ Z.of_nat 0) with 1 in *.
    cbn [A2.eval_recursive].
    destruct (Z.ltb_spec path (Z.of_nat (length result))) as [Hlt | Hge]; [|lia].
    eexists. split; [reflexivity|]. split; [now rewrite length_insert|].
    intros i. rewrite drop_ge by lia. cbn [A2.leaf_value].
    destruct (decide (path * 1 <= Z.of_nat i < (path + 1) * 1)) as [Hi | Hi].
    + replace i with (Z.to_nat path) by lia.
      rewrite list_lookup_insert_eq by lia. reflexivity.
    + rewrite list_lookup_insert_ne by lia. reflexivity.
  - assert (Hpow : 0 < 2 ^ Z.of_nat todo) by (apply Z.pow_pos_nonneg; lia).
    assert (Hsucc : 2 ^ Z.of_nat (S todo) = 2 * 2 ^ Z.of_nat todo).
    { rewrite Nat2Z.inj_succ. apply Z.pow_succ_r. lia. }
    rewrite Hsucc in *.
    destruct (lookup_lt_is_Some_2 (A2.correction_words key) level) as [cw Hcw];
      [lia|].
    assert (Hdrop : drop level (A2.correction_words key)
                    = cw :: drop (S level) (A2.correction_words key))
      by (now apply drop_S).
    assert (Hleft : to_u64 (Z.shiftl path 1) = 2 * path).
    { rewrite Z.shiftl_mul_pow2 by lia. change (2 ^ 1) with 2.
      rewrite to_u64_small by nia. lia. }
    assert (Hright : Z.lor (2 * path) 1 = 2 * path + 1).
    { apply Z.bits_inj'. intros b Hb. rewrite Z.lor_spec.
      destruct (Z.eq_dec b 0) as [-> | Hne].
      - rewrite Z.testbit_odd_0, Z.testbit_even_0. reflexivity.
      - replace b with (Z.succ (b - 1)) by lia.
        rewrite Z.testbit_odd_succ, Z.testbit_even_succ by lia.
        change 1 with (2 * 0 + 1). rewrite Z.testbit_odd_succ by lia.
        rewrite Z.bits_0. apply orb_false_r. }
    cbn [A2.eval_recursive]. rewrite Hcw. cbn [mbind option_bind].
    rewrite Hleft, Hright.
    set (out := A2.prg_expand SHA256 s).
    edestruct (IH (S level)
                 (Z.lxor (A2.s_left out) (if f then A2.s_cw_left cw else 0))
                 (xorb (A2.t_left out) (if f then A2.t_cw_left cw else false))
                 result (2 * path))
      as (result1 & E1 & L1 & Hl1); [lia | lia | nia | lia |].
    rewrite E1. cbn [mbind option_bind].
    edestruct (IH (S level)
                 (Z.lxor (A2.s_right out) (if f then A2.s_cw_right cw else 0))
                 (xorb (A2.t_right out) (if f then A2.t_cw_right cw else false))
                 result1 (2 * path + 1))
      as (result2 & E2 & L2 & Hl2); [lia | lia | rewrite L1; nia | rewrite L1; lia |].
    exists result2. split; [exact E2|]. split; [congruence|].
    intros i. rewrite Hl2, Hl1, Hdrop. cbn [A2.leaf_value].
    rewrite length_drop.
    replace (length (A2.correction_words key) - S level)%nat with todo by lia.
    fold out.
    destruct (decide ((2 * path + 1) * 2 ^ Z.of_nat todo <= Z.of_nat i
                      < (2 * path + 1 + 1) * 2 ^ Z.of_nat todo)) as [Hr | Hr].
    + rewrite (testbit_block (Z.of_nat i) (2 * path + 1)) by lia.
      replace (Z.odd (2 * path + 1)) with true
        by (symmetry; apply Z.odd_spec; exists path; lia).
      destruct (decide _) as [_ | Hn]; [reflexivity | nia].
    + destruct (decide (2 * path * 2 ^ Z.of_nat todo <= Z.of_nat i
                        < (2 * path + 1) * 2 ^ Z.of_nat todo)) as [Hl | Hl].
      * rewrite (testbit_block (Z.of_nat i) (2 * path)) by lia.
        replace (Z.odd (2 * path)) with false
          by (symmetry; rewrite <- Z.negb_even; apply negb_false_iff,
                Z.even_spec; exists path; lia).
        destruct (decide _) as [_ | Hn]; [reflexivity | nia].
      * destruct (decide _) as [Hy | _]; [nia | reflexivity].
Qed.

Lemma a2_test_loop_true eval0 eval1 location value todo : ∀ j,
  (∀ t, (j <= t < j + todo)%nat →
        ∃ x y, eval0 !! t = Some x ∧ eval1 !! t = Some y
               ∧ Z.lxor x y = if Z.of_nat t =? location then value else 0) →
  A2.test_loop eval0 eval1 location value j todo = Some true.
Proof.
  induction todo as [|todo IH]; intros j H; [reflexivity|].
  destruct (H j) as (x & y & Ex & Ey & Exy); [lia|].
  cbn [A2.test_loop]. rewrite Ex, Ey. cbn [mbind option_bind].
  rewrite Exy, Z.eqb_refl. cbn [negb].
  apply IH. intros t Ht. apply H. lia.
Qed.

(** X12: The 128-bit DPF is a point function under XOR, which is what
    the test loop of the generator's [main] checks.  For every location
    below [2^domain_bits], every value and all initial seeds, and for a
    domain size of at least [2^domain_bits] (the program runs it with
    exactly that size), both keys of [generateDPF] evaluate on the full
    domain without a write outside the result, the two results combined
    with XOR hold the value at the location and 0 at every other index,
    and the round of the test reports "Test Passed". *)
Theorem a2_dpf_point_function (location value domain_bits seed0 seed1 : Z)
    (dpf_size : nat) :
  0 <= domain_bits → 0 <= location < 2 ^ domain_bits →
  2 ^ domain_bits <= Z.of_nat dpf_size < 2 ^ 64 →
  let keys := A2.generateDPF SHA256 location value domain_bits seed0 seed1 in
  ∃ eval0 eval1,
    A2.EvalFull SHA256 keys.1 dpf_size = Some eval0
    ∧ A2.EvalFull SHA256 keys.2 dpf_size = Some eval1
    ∧ length eval0 = dpf_size ∧ length eval1 = dpf_size
    ∧ (∀ j, (j < dpf_size)%nat →
            Z.lxor (default 0 (eval0 !! j)) (default 0 (eval1 !! j))
            = if Z.of_nat j =? location then value else 0)
    ∧ A2.run_test SHA256 dpf_size domain_bits location value seed0 seed1
      = Some true.
Proof.
  intros Hbits Hloc Hsize keys.
  set (st0 := {| A2.g_s0 := seed0; A2.g_s1 := seed1; A2.g_t0 := true;
                 A2.g_t1 := false; A2.g_cws := [] |}).
  destruct (a2_gen_loop_leaves location domain_bits (Z.to_nat domain_bits) 0 st0)
    as (rest & Hcws & Hlen & _ & Hleaves); [lia | lia | discriminate |].
  cbn [A2.g_cws st0 app] in Hcws.
  cbn [A2.g_s0 A2.g_s1 A2.g_t0 A2.g_t1 st0] in Hleaves.
  set (fin := A2.gen_loop SHA256 location domain_bits (Z.to_nat domain_bits) 0 st0)
    in *.
  set (fcw := Z.lxor (Z.lxor value (to_u64 (A2.g_s0 fin))) (to_u64 (A2.g_s1 fin))).
  set (k0 := {| A2.initial_seed := seed0; A2.initial_flag := true;
                A2.correction_words := A2.g_cws fin;
                A2.final_correction_word := fcw |}).
  set (k1 := {| A2.initial_seed := seed1; A2.initial_flag := false;
                A2.correction_words := A2.g_cws fin;
                A2.final_correction_word := fcw |}).
  assert (Ekeys : keys = (k0, k1)) by reflexivity.
  rewrite Ekeys. cbn [fst snd].
  assert (Z2N : Z.of_nat (Z.to_nat domain_bits) = domain_bits) by lia.
  destruct (a2_eval_recursive_spec k0 (length (A2.correction_words k0)) 0
              seed0 true (replicate dpf_size 0) 0)
    as (eval0 & E0 & L0 & H0).
  { lia. } { lia. }
  { cbn [A2.correction_words k0]. rewrite Hcws, Hlen, Z2N, length_replicate. lia. }
  { rewrite length_replicate. lia. }
  destruct (a2_eval_recursive_spec k1 (length (A2.correction_words k1)) 0
              seed1 false (replicate dpf_size 0) 0)
    as (eval1 & E1 & L1 & H1).
  { lia. } { lia. }
  { cbn [A2.correction_words k1]. rewrite Hcws, Hlen, Z2N, length_replicate. lia. }
  { rewrite length_replicate. lia. }
  rewrite length_replicate in L0, L1.
  change (A2.EvalFull SHA256 k0 dpf_size = Some eval0) in E0.
  change (A2.EvalFull SHA256 k1 dpf_size = Some eval1) in E1.
  cbn [A2.correction_words A2.final_correction_word k0 k1] in H0, H1.
  rewrite Hcws, Hlen, Z2N, drop_0 in H0, H1.
  assert (Hpoint : ∀ j, (j < dpf_size)%nat →
    ∃ x y, eval0 !! j = Some x ∧ eval1 !! j = Some y
           ∧ Z.lxor x y = if Z.of_nat j =? location then value else 0).
  { intros j Hj. rewrite H0, H1.
    destruct (decide (0 * 2 ^ domain_bits <= Z.of_nat j < (0 + 1) * 2 ^ domain_bits))
      as [Hin | Hout].
    - do 2 eexists. split; [reflexivity|]. split; [reflexivity|].
      rewrite Hleaves, Z2N.
      rewrite (Z.mod_small (Z.of_nat j)), (Z.mod_small location) by lia.
      destruct (Z.of_nat j =? location); [|reflexivity].
      unfold fcw. xor_bits.
    - rewrite lookup_replicate_2 by lia.
      do 2 eexists. split; [reflexivity|]. split; [reflexivity|].
      destruct (Z.eqb_spec (Z.of_nat j) location); [lia | reflexivity]. }
  exists eval0, eval1.
  split; [exact E0|]. split; [exact E1|]. split; [exact L0|]. split; [exact L1|].
  split.
  - intros j Hj. destruct (Hpoint j Hj) as (x & y & -> & -> & E). exact E.
  - unfold A2.run_test. fold keys. rewrite Ekeys.
    rewrite E0. cbn [mbind option_bind]. rewrite E1.
    cbn [mbind option_bind].
    apply a2_test_loop_true. intros t Ht. apply Hpoint. lia.
Qed.

(** *** A result shorter than the tree *)

(** The evaluation writes entries and never resizes the result. *)
Lemma a2_eval_recursive_length key todo : ∀ level s f result path,
  length (default result
            (A2.eval_recursive SHA256 key todo level s f result path))
  = length result.
Proof.
  induction todo as [|todo IH]; intros level s f result path;
    cbn [A2.eval_recursive].
  - destruct (path <? Z.of_nat (length result)); [|reflexivity].
    cbn [default]. apply length_insert.
  - destruct (A2.correction_words key !! level) as [cw|]; [|reflexivity].
    cbn [mbind option_bind].
    match goal with
    | |- context [A2.eval_recursive SHA256 key todo (S level) ?s' ?f'
                    result ?p'] =>
        pose proof (IH (S level) s' f' result p') as H1;
        destruct (A2.eval_recursive SHA256 key todo (S level) s' f' result p')
          as [result1|]; [|reflexivity]
    end.
    cbn [mbind option_bind default] in *.
    match goal with
    | |- context [A2.eval_recursive SHA256 key todo (S level) ?s' ?f'
                    result1 ?p'] =>
        pose proof (IH (S level) s' f' result1 p') as H2;
        destruct (A2.eval_recursive SHA256 key todo (S level) s' f' result1 p')
          as [result2|]; [|reflexivity]
    end.
    cbn [default] in *. unfold id in *. congruence.
Qed.

Lemma a2_eval_recursive_overflow key todo : ∀ level s f result path,
  0 <= path → (path + 1) * 2 ^ Z.of_nat todo <= 2 ^ 64 →
  Z.of_nat (length result) < (path + 1) * 2 ^ Z.of_nat todo →
  A2.eval_recursive SHA256 key todo level s f result path = None.
Proof.
  induction todo as [|todo IH]; intros level s f result path Hp Hfit Hlen.
  - change (2 ^ Z.of_nat 0) with 1 in *. cbn [A2.eval_recursive].
    destruct (Z.ltb_spec path (Z.of_nat (length result))); [lia | reflexivity].
  - assert (Hpow : 0 < 2 ^ Z.of_nat todo) by (apply Z.pow_pos_nonneg; lia).
    assert (Hsucc : 2 ^ Z.of_nat (S todo) = 2 * 2 ^ Z.of_nat todo).
    { rewrite Nat2Z.inj_succ. apply Z.pow_succ_r. lia. }
    rewrite Hsucc in *.
    cbn [A2.eval_recursive].
    destruct (A2.correction_words key !! level) as [cw|]; [|reflexivity].
    cbn [mbind option_bind].
    assert (Hleft : to_u64 (Z.shiftl path 1) = 2 * path).
    { rewrite Z.shiftl_mul_pow2 by lia. change (2 ^ 1) with 2.
      rewrite to_u64_small by nia. lia. }
    assert (Hright : Z.lor (2 * path) 1 = 2 * path + 1).
    { apply Z.bits_inj'. intros b Hb. rewrite Z.lor_spec.
      destruct (Z.eq_dec b 0) as [-> | Hne].
      - rewrite Z.testbit_odd_0, Z.testbit_even_0. reflexivity.
      - replace b with (Z.succ (b - 1)) by lia.
        rewrite Z.testbit_odd_succ, Z.testbit_even_succ by lia.
        change 1 with (2 * 0 + 1). rewrite Z.testbit_odd_succ by lia.
        rewrite Z.bits_0. apply orb_false_r. }
    rewrite Hleft, Hright.
    match goal with
    | |- (?l ≫= _) = _ =>
        match l with
        | A2.eval_recursive _ _ _ _ ?s' ?f' _ ?p' =>
            pose proof (a2_eval_recursive_length key todo (S level) s' f'
                          result p') as E1
        end;
        destruct l as [result1|]; [|reflexivity]
    end.
    cbn [mbind option_bind default] in *. unfold id in *.
    apply IH; [lia | nia | rewrite E1; nia].
Qed.

(** X13: The result vector of the 128-bit [EvalFull] must hold the whole
    tree.  For any key with at most 64 correction words and a domain size
    below [2^levels], [EvalFull] has no defined result: [eval_recursive]
    writes outside the result vector.  On every size that holds the
    whole tree the same key does evaluate: the result has that size, its
    first [2^levels] entries are the leaves of the tree and the others
    are 0.  The generator's [main] runs [EvalFull] with the size
    [2^domain_bits] only. *)
Theorem a2_EvalFull_needs_whole_tree (key : A2.DPFKey) (domain_size : nat) :
  (length (A2.correction_words key) <= 64)%nat →
  Z.of_nat domain_size < 2 ^ Z.of_nat (length (A2.correction_words key)) →
  A2.EvalFull SHA256 key domain_size = None
  ∧ ∀ whole : nat,
      2 ^ Z.of_nat (length (A2.correction_words key)) <= Z.of_nat whole
        < 2 ^ 64 →
      ∃ result,
        A2.EvalFull SHA256 key whole = Some result
        ∧ length result = whole
        ∧ ∀ i : nat, (i < whole)%nat →
            result !! i
            = Some (if Z.of_nat i
                       <? 2 ^ Z.of_nat (length (A2.correction_words key))
                    then A2.leaf_value SHA256 (A2.final_correction_word key)
                           (A2.correction_words key) (A2.initial_seed key)
                           (A2.initial_flag key) (Z.of_nat i)
                    else 0).
Proof.
  intros Hlevels Hsize. split.
  - unfold A2.EvalFull.
    apply a2_eval_recursive_overflow; [lia | | rewrite length_replicate; lia].
    rewrite Z.add_0_l, Z.mul_1_l. apply Z.pow_le_mono_r; lia.
  - intros whole Hwhole. unfold A2.EvalFull.
    destruct (a2_eval_recursive_spec key (length (A2.correction_words key))
                0%nat (A2.initial_seed key) (A2.initial_flag key)
                (replicate whole 0) 0)
      as (result & E & Hlen & Hent);
      [lia | lia | rewrite length_replicate; lia
      | rewrite length_replicate; lia |].
    exists result. split; [exact E|].
    split; [now rewrite Hlen, length_replicate|].
    intros i Hi. rewrite Hent. rewrite drop_0.
    destruct (Z.ltb_spec (Z.of_nat i)
                (2 ^ Z.of_nat (length (A2.correction_words key))));
      destruct (decide _); try lia; [reflexivity|].
    now rewrite lookup_replicate_2.
Qed.

End A2Facts.

Lemma a2_dpf_point_function_witness :
  let SHA256 := λ bytes : list Z, bytes ++ rev bytes in
  let keys := A2.generateDPF SHA256 2 5 2 11 12 in
  ∃ eval0 eval1,
    A2.EvalFull SHA256 keys.1 4 = Some eval0
    ∧ A2.EvalFull SHA256 keys.2 4 = Some eval1
    ∧ length eval0 = 4%nat ∧ length eval1 = 4%nat
    ∧ (∀ j, (j < 4)%nat →
            Z.lxor (default 0 (eval0 !! j)) (default 0 (eval1 !! j))
            = if Z.of_nat j =? 2 then 5 else 0)
    ∧ A2.run_test SHA256 4 2 2 5 11 12 = Some true.
Proof.
  intros SHA256.
  apply (a2_dpf_point_function SHA256 2 5 2 11 12 4); [lia | lia | lia].
Defined.

Lemma a2_EvalFull_needs_whole_tree_witness :
  let SHA256 := λ bytes : list Z, bytes ++ rev bytes in
  let key := (A2.generateDPF SHA256 2 5 2 11 12).1 in
  A2.EvalFull SHA256 key 3 = None
  ∧ ∃ result, A2.EvalFull SHA256 key 4 = Some result ∧ length result = 4%nat.
Proof.
  intros SHA256 key.
  destruct (a2_EvalFull_needs_whole_tree SHA256 key 3) as [Hnone Hwhole];
    [vm_compute; lia | vm_compute; reflexivity |].
  split; [exact Hnone|].
  destruct (Hwhole 4%nat) as (result & E & Hlen & _);
    [vm_compute; split; [discriminate | reflexivity]|].
  exists result. split; [exact E | exact Hlen].
Defined.

(** ** Matrix files as text *)

Lemma string_app_assoc (a b c : string) :
  ((a ++ b) ++ c)%string = (a ++ (b ++ c))%string.
Proof. induction a as [|x a IH]; cbn; [reflexivity | now rewrite IH]. Qed.

Lemma string_app_nil_r (a : string) : (a ++ "")%string = a.
Proof. induction a as [|x a IH]; cbn; [reflexivity | now rewrite IH]. Qed.

Lemma take_digits_numeral (d : Decimal.uint) (rest : string) :
  take_digits rest = (EmptyString, rest) →
  take_digits (NilEmpty.string_of_uint d ++ rest)%string
  = (NilEmpty.string_of_uint d, rest).
Proof.
  intros H.
  induction d as [|d IH|d IH|d IH|d IH|d IH|d IH|d IH|d IH|d IH|d IH];
    cbn [NilEmpty.string_of_uint String.append take_digits];
    [exact H | rewrite IH; reflexivity ..].
Qed.

Lemma print_u32_numeral (v : Z) :
  print_u32 v = NilEmpty.string_of_uint (N.to_uint (Z.to_N v)).
Proof.
  unfold print_u32. pose proof (N_to_uint_nonnil (Z.to_N v)) as H.
  destruct (N.to_uint (Z.to_N v)); [contradiction | reflexivity ..].
Qed.

Lemma print_u32_head (v : Z) :
  ∃ c s, print_u32 v = String c s ∧ is_space c = false ∧ is_sign c = false.
Proof.
  rewrite print_u32_numeral. pose proof (N_to_uint_nonnil (Z.to_N v)) as H.
  destruct (N.to_uint (Z.to_N v)); [contradiction | ..];
    cbn [NilEmpty.string_of_uint]; eexists _, _; (split; [reflexivity|]);
    split; reflexivity.
Qed.

Lemma skip_space_all (ws s : string) :
  skip_space ws = EmptyString → skip_space (ws ++ s)%string = skip_space s.
Proof.
  induction ws as [|c ws IH]; intros H; [reflexivity|].
  cbn [skip_space String.append] in *.
  destruct (is_space c); [auto | discriminate].
Qed.

Lemma skip_space_app_all (a b : string) :
  skip_space a = EmptyString → skip_space b = EmptyString →
  skip_space (a ++ b)%string = EmptyString.
Proof. intros Ha Hb. now rewrite skip_space_all. Qed.

Lemma read_u32_skip (ws s : string) :
  skip_space ws = EmptyString → read_u32 (ws ++ s)%string = read_u32 s.
Proof. intros H. unfold read_u32. now rewrite skip_space_all. Qed.

Lemma read_u32_blank (ws : string) :
  skip_space ws = EmptyString → read_u32 ws = ReadFailed.
Proof. intros H. unfold read_u32. now rewrite H. Qed.

(** A printed value is read back, up to the first character after it. *)
Lemma read_u32_print (v : Z) (rest : string) :
  0 <= v < 2 ^ 32 → take_digits rest = (EmptyString, rest) →
  read_u32 (print_u32 v ++ rest)%string = ReadValue v rest.
Proof.
  intros Hv Hrest. unfold read_u32.
  destruct (print_u32_head v) as (c & s & E & Hsp & Hsg).
  assert (Hskip : skip_space (print_u32 v ++ rest)%string
                  = String c (s ++ rest)%string).
  { rewrite E. cbn [String.append skip_space]. now rewrite Hsp. }
  rewrite Hskip, Hsg.
  change (String c (s ++ rest)%string) with (String c s ++ rest)%string.
  rewrite <- E, print_u32_numeral, take_digits_numeral by exact Hrest.
  rewrite <- print_u32_numeral, parse_print_u32 by exact Hv.
  reflexivity.
Qed.

Lemma read_value_print (ws : string) (v : Z) (rest : string) :
  skip_space ws = EmptyString →
  0 <= v < 2 ^ 32 → take_digits rest = (EmptyString, rest) →
  read_value (ws ++ (print_u32 v ++ rest))%string = Some (v, rest).
Proof.
  intros Hws Hv Hrest. unfold read_value.
  now rewrite read_u32_skip, read_u32_print.
Qed.

(** The loops of [load_matrix_shares] read as the loops of the checker do
    and convert every value. *)
Lemma load_row_read (s : string) (cols : nat) :
  load_row s cols
  = (λ '(row, r), (map load_share row, r)) <$> read_u32_row s cols.
Proof.
  revert s. induction cols as [|cols IH]; intros s; [reflexivity|].
  cbn [load_row read_u32_row].
  destruct (read_value s) as [[v s1]|]; [|reflexivity].
  cbn [mbind option_bind]. rewrite IH.
  destruct (read_u32_row s1 cols) as [[row r]|]; reflexivity.
Qed.

Lemma load_rows_read (s : string) (rows cols : nat) :
  load_rows s rows cols
  = (λ '(M, r), (map (map load_share) M, r)) <$> read_u32_rows s rows cols.
Proof.
  revert s. induction rows as [|rows IH]; intros s; [reflexivity|].
  cbn [load_rows read_u32_rows]. rewrite load_row_read.
  destruct (read_u32_row s cols) as [[row s1]|]; [|reflexivity].
  cbn [fmap option_fmap option_map mbind option_bind]. rewrite IH.
  destruct (read_u32_rows s1 rows cols) as [[M r]|]; reflexivity.
Qed.

Lemma load_matrix_shares_read (file : string) (rows cols : nat) :
  load_matrix_shares file rows cols
  = map (map load_share) <$> read_updated file rows cols.
Proof.
  unfold load_matrix_shares, read_updated. rewrite load_rows_read.
  destruct (read_u32_rows file rows cols) as [[M r]|]; reflexivity.
Qed.

(** Reading [a + b] values is reading [a] and then [b]. *)
Lemma read_u32_row_app (s : string) (a b : nat) :
  read_u32_row s (a + b)
  = '(x, s1) ← read_u32_row s a;
    '(y, s2) ← read_u32_row s1 b;
    Some (x ++ y, s2).
Proof.
  revert s. induction a as [|a IH]; intros s.
  - cbn. destruct (read_u32_row s b) as [[y s2]|]; reflexivity.
  - cbn [Nat.add read_u32_row].
    destruct (read_value s) as [[v s1]|]; [|reflexivity].
    cbn [mbind option_bind]. rewrite IH.
    destruct (read_u32_row s1 a) as [[x s2]|]; [|reflexivity].
    cbn [mbind option_bind].
    destruct (read_u32_row s2 b) as [[y s3]|]; reflexivity.
Qed.

Lemma read_u32_row_length (s : string) (cols : nat) row r :
  read_u32_row s cols = Some (row, r) → length row = cols.
Proof.
  revert s row. induction cols as [|cols IH]; intros s row H.
  - cbn in H. now inversion H.
  - cbn [read_u32_row] in H.
    destruct (read_value s) as [[v s1]|]; [|discriminate].
    cbn [mbind option_bind] in H.
    destruct (read_u32_row s1 cols) as [[row' r']|] eqn:E; [|discriminate].
    cbn in H. inversion H; subst. cbn. f_equal. eauto.
Qed.

(** The rows that are read are the values of the file in the order of the
    file, cut into rows of [cols] values. *)
Lemma read_u32_rows_flat (s : string) (rows cols : nat) :
  match read_u32_rows s rows cols with
  | Some (M, r) =>
      read_u32_row s (rows * cols) = Some (concat M, r)
      ∧ has_dims M rows cols
  | None => read_u32_row s (rows * cols) = None
  end.
Proof.
  revert s. induction rows as [|rows IH]; intros s.
  - cbn. repeat split; constructor.
  - cbn [read_u32_rows Nat.mul]. rewrite read_u32_row_app.
    destruct (read_u32_row s cols) as [[row s1]|] eqn:E; [|reflexivity].
    cbn [mbind option_bind]. specialize (IH s1).
    destruct (read_u32_rows s1 rows cols) as [[M r]|].
    + destruct IH as (IH & Hl & Hr). rewrite IH. cbn. split; [reflexivity|].
      split; [cbn; now rewrite Hl|].
      constructor; [|exact Hr]. eapply read_u32_row_length, E.
    + now rewrite IH.
Qed.

Lemma concat_dims_length (M : list (list Z)) (rows cols : nat) :
  has_dims M rows cols → length (concat M) = (rows * cols)%nat.
Proof.
  intros [Hl Hr]. subst rows.
  induction Hr as [|row M Hrow _ IH]; [reflexivity|].
  cbn. rewrite length_app, IH, Hrow. reflexivity.
Qed.

Lemma concat_dims_inj (A B : list (list Z)) (rows cols : nat) :
  has_dims A rows cols → has_dims B rows cols → concat A = concat B → A = B.
Proof.
  intros [HlA HrA] [HlB HrB]. subst rows. revert B HlB HrB.
  induction HrA as [|a A Ha _ IH]; intros B HlB HrB E.
  - destruct B; [reflexivity | discriminate].
  - destruct B as [|b B]; [discriminate|].
    inversion HrB as [|? ? Hb HrB']; subst.
    cbn in E. apply app_inj_1 in E as [-> E]; [|congruence].
    f_equal. apply IH; [cbn in HlB; congruence | assumption | assumption].
Qed.

(** A written row, read value by value. *)
Lemma read_written_row (row : list Z) (ws rest : string) (n : nat) :
  skip_space ws = EmptyString →
  Forall (λ v, 0 <= v < 2 ^ 32) row →
  take_digits rest = (EmptyString, rest) →
  read_u32_row (ws ++ (write_row row ++ rest))%string (length row + n)
  = '(y, r) ← read_u32_row ((if row is [] then ws else EmptyString) ++ rest)%string n;
    Some (row ++ y, r).
Proof.
  intros Hws Hrow Hrest. revert ws Hws.
  induction Hrow as [|v row Hv Hrow IH]; intros ws Hws.
  - cbn [write_row String.append length Nat.add].
    destruct (read_u32_row (ws ++ rest)%string n) as [[y r]|]; reflexivity.
  - cbn [length Nat.add read_u32_row].
    destruct row as [|v' row].
    + cbn [write_row]. rewrite read_value_print by assumption.
      cbn [mbind option_bind length Nat.add String.append].
      destruct (read_u32_row rest n) as [[y r]|]; reflexivity.
    + change (write_row (v :: v' :: row))
        with (print_u32 v ++ String " "%char (write_row (v' :: row)))%string.
      rewrite string_app_assoc.
      rewrite read_value_print; [|assumption..|reflexivity].
      cbn [mbind option_bind].
      change (String " " (write_row (v' :: row)) ++ rest)%string
        with (String " " EmptyString ++ (write_row (v' :: row) ++ rest))%string.
      rewrite IH by reflexivity.
      cbn [String.append].
      destruct (read_u32_row rest n) as [[y r]|]; reflexivity.
Qed.

(** A written matrix, read value by value: all its values, and then
    white space only. *)
Lemma read_written_matrix (vals : list (list Z)) (ws : string) :
  skip_space ws = EmptyString →
  Forall (Forall (λ v, 0 <= v < 2 ^ 32)) vals →
  ∃ ws', skip_space ws' = EmptyString
    ∧ read_u32_row (ws ++ write_matrix vals)%string (length (concat vals))
      = Some (concat vals, ws').
Proof.
  intros Hws Hvals. revert ws Hws.
  induction Hvals as [|row vals Hrow Hvals IH]; intros ws Hws.
  - exists ws. cbn [write_matrix concat length read_u32_row].
    rewrite string_app_nil_r. now split.
  - cbn [write_matrix concat]. rewrite length_app.
    rewrite read_written_row; [|assumption..|reflexivity].
    set (ws1 := if row is [] then ws else EmptyString).
    assert (Hws1 : skip_space ws1 = EmptyString) by (subst ws1; now destruct row).
    change (ws1 ++ String "010" (write_matrix vals))%string
      with (ws1 ++ (String "010" EmptyString ++ write_matrix vals))%string.
    rewrite <- string_app_assoc.
    destruct (IH (ws1 ++ String "010" EmptyString)%string) as (ws' & Hws' & E).
    { now apply skip_space_app_all. }
    exists ws'. split; [exact Hws'|]. now rewrite E.
Qed.

Lemma read_u32_row_blank (ws : string) (n : nat) :
  skip_space ws = EmptyString → read_u32_row ws (S n) = None.
Proof.
  intros H. cbn [read_u32_row]. unfold read_value.
  now rewrite read_u32_blank.
Qed.

Lemma read_written_values (vals : list (list Z)) (count : nat) :
  Forall (Forall (λ v, 0 <= v < 2 ^ 32)) vals →
  fst <$> read_u32_row (write_matrix vals) count
  = if (count <=? length (concat vals))%nat
    then Some (take count (concat vals)) else None.
Proof.
  intros Hvals.
  destruct (read_written_matrix vals EmptyString eq_refl Hvals)
    as (ws' & Hws' & E).
  cbn [String.append] in E.
  destruct (Nat.leb_spec count (length (concat vals))) as [Hle|Hlt].
  - replace (length (concat vals)) with (count + (length (concat vals) - count))%nat
      in E by lia.
    rewrite read_u32_row_app in E.
    destruct (read_u32_row (write_matrix vals) count) as [[x s1]|] eqn:Ex;
      [|discriminate].
    cbn [mbind option_bind] in E.
    destruct (read_u32_row s1 _) as [[y s2]|]; [|discriminate].
    cbn in E. injection E as Hc Hs. cbn. f_equal.
    apply read_u32_row_length in Ex.
    rewrite <- Hc, take_app_length'; [reflexivity | now symmetry].
  - replace count with (length (concat vals) + S (count - length (concat vals) - 1))%nat
      by lia.
    rewrite read_u32_row_app, E. cbn [mbind option_bind].
    now rewrite read_u32_row_blank.
Qed.

(** Reading a written matrix with dimensions of its own. *)
Lemma read_updated_written (vals : list (list Z)) (rows cols : nat) :
  Forall (Forall (λ v, 0 <= v < 2 ^ 32)) vals →
  match read_updated (write_matrix vals) rows cols with
  | Some M =>
      (rows * cols <= length (concat vals))%nat
      ∧ has_dims M rows cols
      ∧ concat M = take (rows * cols) (concat vals)
  | None => (length (concat vals) < rows * cols)%nat
  end.
Proof.
  intros Hvals. unfold read_updated.
  pose proof (read_u32_rows_flat (write_matrix vals) rows cols) as Hflat.
  pose proof (read_written_values vals (rows * cols) Hvals) as Hread.
  destruct (read_u32_rows (write_matrix vals) rows cols) as [[M r]|].
  - destruct Hflat as [Hflat HM]. rewrite Hflat in Hread. cbn in Hread.
    destruct (Nat.leb_spec (rows * cols) (length (concat vals)));
      [|discriminate].
    inversion Hread. cbn. auto.
  - rewrite Hflat in Hread. cbn in Hread.
    destruct (Nat.leb_spec (rows * cols) (length (concat vals)));
      [discriminate | assumption].
Qed.

Lemma read_updated_round_trip (vals : list (list Z)) (rows cols : nat) :
  has_dims vals rows cols →
  Forall (Forall (λ v, 0 <= v < 2 ^ 32)) vals →
  read_updated (write_matrix vals) rows cols = Some vals.
Proof.
  intros Hdims Hvals.
  pose proof (read_updated_written vals rows cols Hvals) as H.
  pose proof (concat_dims_length vals rows cols Hdims) as Hlen.
  destruct (read_updated (write_matrix vals) rows cols) as [M|]; [|lia].
  destruct H as (_ & HM & Hc). f_equal.
  apply (concat_dims_inj _ _ rows cols); [assumption..|].
  rewrite Hc, <- Hlen. apply firstn_all.
Qed.

Lemma saved_in_range (M : ShareMat) :
  Forall (Forall (λ v, 0 <= v < 2 ^ 32)) (map (map save_share) M).
Proof.
  apply Forall_fmap, Forall_true. intros row.
  apply Forall_fmap, Forall_true. intros x. apply to_u32_range.
Qed.

Lemma load_saved (M : ShareMat) :
  map (map load_share) (map (map save_share) M) = map (map to_i32) M.
Proof.
  rewrite map_map. apply map_ext. intros row.
  rewrite map_map. apply map_ext. intros x. apply load_save_share.
Qed.

(** X14: A matrix of shares with [rows] rows and [cols] columns that a
    server writes to its updated file (one line per row, the low 32 bits of
    every share as an unsigned decimal numeral, single spaces between) is
    read back entry by entry: the checker reads the written [uint32_t]
    values, and [load_matrix_shares] gives every share reduced to
    [int32_t].  The same holds for the files of the generator. *)
Theorem matrix_file_round_trip (matrix : ShareMat) (rows cols : nat) :
  has_dims matrix rows cols →
  ∃ text,
    updated_file matrix rows cols = Some text
    ∧ text = save_matrix_to_file matrix
    ∧ read_updated text rows cols = Some (map (map save_share) matrix)
    ∧ load_matrix_shares text rows cols = Some (map (map to_i32) matrix).
Proof.
  intros Hdims. exists (save_matrix_to_file matrix).
  unfold updated_file, save_matrix_to_file.
  rewrite save_matrix_Some by assumption.
  split; [reflexivity|]. split; [reflexivity|].
  assert (E : read_updated (write_matrix (map (map save_share) matrix)) rows cols
              = Some (map (map save_share) matrix)).
  { apply read_updated_round_trip; [now apply has_dims_saved|].
    apply saved_in_range. }
  split; [exact E|].
  rewrite load_matrix_shares_read, E. cbn. now rewrite load_saved.
Qed.

Lemma matrix_file_round_trip_witness :
  updated_file [[1; -1]; [2 ^ 31; 7]] 2 2
  = Some (write_matrix [[1; 4294967295]; [2147483648; 7]])
  ∧ load_matrix_shares (write_matrix [[1; 4294967295]; [2147483648; 7]]) 2 2
    = Some [[1; -1]; [- 2 ^ 31; 7]].
Proof.
  destruct (matrix_file_round_trip [[1; -1]; [2 ^ 31; 7]] 2 2)
    as (text & E & Etext & _ & Hload).
  { split; [reflexivity|]. repeat constructor. }
  assert (text = write_matrix [[1; 4294967295]; [2147483648; 7]]) as ->
    by (rewrite Etext; reflexivity).
  split; [exact E | exact Hload].
Defined.

(** X15: [load_matrix_shares] takes the numerals of the file in order and
    ignores its lines.  A file written for one shape loads without an error
    for any shape that asks for no more entries than it holds: the matrix
    has the asked shape and its entries are the first entries of the file
    in row-major order.  With more entries asked than the file holds a read
    fails at the end of the file. *)
Theorem matrix_file_ignores_lines (vals : list (list Z)) (rows cols : nat) :
  Forall (Forall (λ v, 0 <= v < 2 ^ 32)) vals →
  match load_matrix_shares (write_matrix vals) rows cols with
  | Some M =>
      (rows * cols <= length (concat vals))%nat
      ∧ has_dims M rows cols
      ∧ concat M = map load_share (take (rows * cols) (concat vals))
  | None => (length (concat vals) < rows * cols)%nat
  end.
Proof.
  intros Hvals. rewrite load_matrix_shares_read.
  pose proof (read_updated_written vals rows cols Hvals) as H.
  destruct (read_updated (write_matrix vals) rows cols) as [M|];
    [|exact H].
  destruct H as (Hle & [Hl Hr] & Hc). cbn.
  split; [exact Hle|]. split.
  - split; [now rewrite length_map|].
    apply Forall_fmap. eapply Forall_impl; [exact Hr|].
    intros row Hrow. cbn. now rewrite length_map.
  - rewrite <- Hc. clear. induction M as [|row M IH]; [reflexivity|].
    cbn. now rewrite map_app, IH.
Qed.

Lemma matrix_file_ignores_lines_witness :
  load_matrix_shares (write_matrix [[1; 2; 3]; [4; 5; 6]]) 3 2
  = Some [[1; 2]; [3; 4]; [5; 6]]
  ∧ load_matrix_shares (write_matrix [[1; 2; 3]; [4; 5; 6]]) 1 2
    = Some [[1; 2]]
  ∧ load_matrix_shares (write_matrix [[1; 2; 3]; [4; 5; 6]]) 3 3 = None.
Proof.
  pose proof (matrix_file_ignores_lines [[1; 2; 3]; [4; 5; 6]] 3 3) as H.
  split; [reflexivity|]. split; [reflexivity|].
  destruct (load_matrix_shares (write_matrix [[1; 2; 3]; [4; 5; 6]]) 3 3);
    [|reflexivity].
  exfalso. destruct H as [H _].
  - repeat constructor; lia.
  - cbn in H. lia.
Defined.

(** ** The files of the generator, as the checker reads them *)

Lemma share_entry_sum (draw : Z * Z) :
  is_i64 draw.1 →
  add64 (share_entry draw).1 (share_entry draw).2 = draw.1.
Proof.
  destruct draw as [actual_value share_p0]. cbn [share_entry fst snd].
  intros H. transitivity (to_i64 actual_value); [|now apply to_i64_id].
  ring64.
Qed.

Lemma int8_shares_i32 (draw : Z * Z) :
  -128 <= draw.1 <= 127 → -128 <= draw.2 <= 127 →
  to_i32 (share_entry draw).1 = (share_entry draw).1
  ∧ to_i32 (share_entry draw).2 = (share_entry draw).2.
Proof.
  destruct draw as [actual_value share_p0]. cbn [share_entry fst snd].
  intros Ha Hs. unfold sub64.
  rewrite (to_i64_id (actual_value - share_p0)) by (unfold is_i64; lia).
  split; apply to_i32_id; lia.
Qed.

Lemma map_rows_id {A} (g : A → A) (M : list (list A)) :
  Forall (Forall (λ x, g x = x)) M → map (map g) M = M.
Proof.
  induction 1 as [|row M Hrow _ IH]; [reflexivity|].
  cbn. rewrite IH. f_equal.
  induction Hrow as [|x row Hx _ IHrow]; [reflexivity|].
  cbn. now rewrite Hx, IHrow.
Qed.

(** X16: The initial matrices of the generator reach the checker.  Every
    entry is drawn as a value and a share of P0, both of 8 bits; the two
    share matrices, written by [save_matrix_to_file], loaded by
    [load_matrix_shares] and added by [recombine_shares], give the drawn
    values.  The numbers of rows and columns are below [2^31]:
    [recombine_shares] holds them in [int]. *)
Theorem generated_shares_recombine
    (draws : list (list (Z * Z))) (rows cols : nat) :
  Z.of_nat rows < 2 ^ 31 → Z.of_nat cols < 2 ^ 31 →
  length draws = rows →
  Forall (λ row, length row = cols) draws →
  Forall (Forall (λ draw, -128 <= draw.1 <= 127 ∧ -128 <= draw.2 <= 127))
         draws →
  let '(matrix_p0, matrix_p1) := share_matrices draws in
  load_matrix_shares (save_matrix_to_file matrix_p0) rows cols = Some matrix_p0
  ∧ load_matrix_shares (save_matrix_to_file matrix_p1) rows cols
    = Some matrix_p1
  ∧ recombine_shares matrix_p0 matrix_p1 = Some (map (map fst) draws).
Proof.
  intros Hrows31 Hcols31 Hrows Hcols Hdraws. unfold share_matrices.
  set (M0 := map (map (λ draw, (share_entry draw).1)) draws).
  set (M1 := map (map (λ draw, (share_entry draw).2)) draws).
  assert (H0 : has_dims M0 rows cols).
  { split; [subst M0; now rewrite length_map|].
    apply Forall_fmap. eapply Forall_impl; [exact Hcols|].
    intros row Hrow. cbn. now rewrite length_map. }
  assert (H1 : has_dims M1 rows cols).
  { split; [subst M1; now rewrite length_map|].
    apply Forall_fmap. eapply Forall_impl; [exact Hcols|].
    intros row Hrow. cbn. now rewrite length_map. }
  assert (E0 : map (map to_i32) M0 = M0).
  { apply map_rows_id. subst M0. apply Forall_fmap.
    eapply Forall_impl; [exact Hdraws|]. intros row Hrow. cbn.
    apply Forall_fmap. eapply Forall_impl; [exact Hrow|].
    intros draw [Ha Hs]. cbn. now apply int8_shares_i32. }
  assert (E1 : map (map to_i32) M1 = M1).
  { apply map_rows_id. subst M1. apply Forall_fmap.
    eapply Forall_impl; [exact Hdraws|]. intros row Hrow. cbn.
    apply Forall_fmap. eapply Forall_impl; [exact Hrow|].
    intros draw [Ha Hs]. cbn. now apply int8_shares_i32. }
  split; [|split].
  - unfold save_matrix_to_file.
    rewrite load_matrix_shares_read, read_updated_round_trip;
      [|now apply has_dims_saved | apply saved_in_range].
    cbn. now rewrite load_saved, E0.
  - unfold save_matrix_to_file.
    rewrite load_matrix_shares_read, read_updated_round_trip;
      [|now apply has_dims_saved | apply saved_in_range].
    cbn. now rewrite load_saved, E1.
  - rewrite (recombine_shares_Some M0 M1 rows cols) by assumption.
    f_equal. subst M0 M1. unfold mat_sum. clear -Hdraws.
    induction Hdraws as [|row draws Hrow _ IH]; [reflexivity|].
    cbn. rewrite IH. f_equal. unfold vec_sum.
    induction Hrow as [|draw row [Ha Hs] _ IHrow]; [reflexivity|].
    cbn. rewrite IHrow. f_equal.
    apply share_entry_sum. unfold is_i64. lia.
Qed.

Lemma generated_shares_recombine_witness :
  load_matrix_shares (save_matrix_to_file [[100; -128]]) 1 2
  = Some [[100; -128]]
  ∧ load_matrix_shares (save_matrix_to_file [[-227; 255]]) 1 2
    = Some [[-227; 255]]
  ∧ recombine_shares [[100; -128]] [[-227; 255]] = Some [[-127; 127]].
Proof.
  apply (generated_shares_recombine [[(-127, 100); (127, -128)]] 1 2).
  - reflexivity.
  - reflexivity.
  - reflexivity.
  - repeat constructor.
  - repeat constructor; cbn; lia.
Defined.

(** ** The queries of the checker *)

Lemma read_written_queries (queries : list (Z * Z)) (ws : string) (todo : nat) :
  skip_space ws = EmptyString →
  Forall (λ query, 0 <= query.1 < 2 ^ 32 ∧ 0 <= query.2 < 2 ^ 32) queries →
  read_query_pairs (ws ++ write_cleartext_queries queries)%string todo
  = Some (take todo queries).
Proof.
  intros Hws Hq. revert ws todo Hws.
  induction Hq as [|[u j] queries [Hu Hj] _ IH]; intros ws todo Hws.
  - destruct todo as [|todo]; [reflexivity|].
    cbn [write_cleartext_queries read_query_pairs].
    rewrite string_app_nil_r, read_u32_blank by assumption. reflexivity.
  - destruct todo as [|todo]; [reflexivity|].
    cbn [write_cleartext_queries read_query_pairs fst snd] in *.
    rewrite read_u32_skip, read_u32_print; [|assumption|reflexivity|assumption].
    change (String " " ?s) with (String " " EmptyString ++ s)%string.
    rewrite read_u32_skip, read_u32_print; [|assumption|reflexivity|reflexivity].
    change (String "010" ?s) with (String "010" EmptyString ++ s)%string.
    rewrite IH by reflexivity. reflexivity.
Qed.

(** X17: The cleartext query file is read back.  For queries with 32-bit
    indices written by the generator (a line [user item] per query),
    [load_cleartext_queries] returns the first [expected_q] queries when the
    file holds at least that many, and throws when it holds fewer. *)
Theorem cleartext_queries_round_trip
    (queries : list (Z * Z)) (expected_q : nat) :
  Forall (λ query, 0 <= query.1 < 2 ^ 32 ∧ 0 <= query.2 < 2 ^ 32) queries →
  load_cleartext_queries (write_cleartext_queries queries) expected_q
  = Some (if (expected_q <=? length queries)%nat
          then Returned (take expected_q queries) else Thrown).
Proof.
  intros Hq. unfold load_cleartext_queries.
  pose proof (read_written_queries queries EmptyString expected_q eq_refl Hq)
    as E.
  cbn [String.append] in E. rewrite E. cbn [mbind option_bind]. f_equal.
  rewrite length_take.
  destruct (Nat.leb_spec expected_q (length queries)).
  - rewrite Nat.min_l, Nat.eqb_refl by lia. reflexivity.
  - rewrite Nat.min_r by lia.
    destruct (Nat.eqb_spec (length queries) expected_q); [lia | reflexivity].
Qed.

Lemma cleartext_queries_round_trip_witness :
  load_cleartext_queries (write_cleartext_queries [(3, 41); (0, 7)]) 2
  = Some (Returned [(3, 41); (0, 7)])
  ∧ load_cleartext_queries (write_cleartext_queries [(3, 41); (0, 7)]) 1
    = Some (Returned [(3, 41)])
  ∧ load_cleartext_queries (write_cleartext_queries [(3, 41); (0, 7)]) 3
    = Some Thrown.
Proof.
  assert (H : Forall (λ query : Z * Z,
                        0 <= query.1 < 2 ^ 32 ∧ 0 <= query.2 < 2 ^ 32)
                     [(3, 41); (0, 7)])
    by (repeat constructor; cbn; lia).
  split; [|split].
  - exact (cleartext_queries_round_trip [(3, 41); (0, 7)] 2 H).
  - reflexivity.
  - reflexivity.
Defined.

Section BinaryQueries.

Variable prg : Z → ChildSeed.

Lemma extract_made_queries (num_items : Z) (cleartext : list (Z * Z))
    (draws : list query_draws) :
  (length cleartext <= length draws)%nat →
  Forall (λ query, 0 <= query.2 < 2 ^ 32) cleartext →
  extract_queries_from_binary
    (make_queries prg num_items cleartext draws).1
    (make_queries prg num_items cleartext draws).2
    (length cleartext)
  = Some cleartext.
Proof.
  intros Hlen Hq. revert draws Hlen.
  induction Hq as [|[u j] cleartext Hj _ IH]; intros draws Hlen;
    [reflexivity|].
  destruct draws as [|d draws]; [cbn in Hlen; lia|].
  cbn [make_queries make_query].
  specialize (IH draws ltac:(cbn in Hlen; lia)).
  destruct (make_queries prg num_items cleartext draws) as [l0 l1].
  cbn [fst snd length extract_queries_from_binary user_index item_share]
    in *.
  rewrite IH. cbn [mbind option_bind].
  assert (E : add64 (d_share d) (sub64 j (d_share d)) = j).
  { transitivity (to_i64 j); [ring64|].
    apply to_i64_id. unfold is_i64. lia. }
  rewrite E.
  destruct (Z.geb_spec j 0); [|lia].
  unfold to_u32. rewrite Z.mod_small by lia. reflexivity.
Qed.

(** X18: The checker finds the same queries on both of its paths.  For
    queries made by the generator, with item indices of 32 bits, the
    queries extracted from the two binary files (the user index of the
    file of P1, the sum of the two shares of the item index) are the
    queries of the cleartext file; so the checker goes on with the
    generated queries whether the cleartext file is there, is missing,
    or holds too few queries. *)
Theorem checker_queries_agree (num_items : Z) (cleartext : list (Z * Z))
    (draws : list query_draws) (short : nat) :
  (length cleartext <= length draws)%nat →
  Forall (λ query, 0 <= query.1 < 2 ^ 32 ∧ 0 <= query.2 < 2 ^ 32)
         cleartext →
  (short < length cleartext)%nat →
  let q := length cleartext in
  let '(p0_file, p1_file) := make_queries prg num_items cleartext draws in
  extract_queries_from_binary p0_file p1_file q = Some cleartext
  ∧ checker_queries (Some (write_cleartext_queries cleartext))
                    p0_file p1_file q = Some cleartext
  ∧ checker_queries None p0_file p1_file q = Some cleartext
  ∧ checker_queries (Some (write_cleartext_queries (take short cleartext)))
                    p0_file p1_file q = Some cleartext.
Proof.
  intros Hlen Hq Hshort q.
  pose proof (extract_made_queries num_items cleartext draws Hlen) as E.
  destruct (make_queries prg num_items cleartext draws)
    as [p0_file p1_file].
  cbn [fst snd] in E. fold q in E.
  assert (E' : extract_queries_from_binary p0_file p1_file q
               = Some cleartext).
  { apply E. eapply Forall_impl; [exact Hq|]. now intros ? []. }
  split; [exact E'|]. unfold checker_queries.
  rewrite !cleartext_queries_round_trip;
    [|now apply Forall_take | assumption].
  cbn [mbind option_bind]. subst q.
  rewrite Nat.leb_refl, firstn_all.
  rewrite length_take.
  destruct (Nat.leb_spec (length cleartext)
              (short `min` length cleartext)); [lia|].
  auto.
Qed.

End BinaryQueries.

Lemma checker_queries_agree_witness :
  let files := make_queries PRG 50 [(3, 41); (0, 7)]
                 [mkDraws 5 1 2 3; mkDraws (-9) 4 5 6] in
  checker_queries None files.1 files.2 2 = Some [(3, 41); (0, 7)].
Proof.
  pose proof (checker_queries_agree PRG 50 [(3, 41); (0, 7)]
                [mkDraws 5 1 2 3; mkDraws (-9) 4 5 6] 1) as H.
  cbv zeta in *.
  destruct (make_queries PRG 50 [(3, 41); (0, 7)]
              [mkDraws 5 1 2 3; mkDraws (-9) 4 5 6]) as [p0_file p1_file].
  apply H.
  - cbn; lia.
  - repeat constructor; cbn; lia.
  - cbn; lia.
Defined.
